(** * BitMappery: layer effect rendering, the zoomable canvas and the
      effect factory

    A shallow embedding of three source files of the editor:

    - [src/services/render-service.js]: the per-layer effect pipeline
      ([renderEffectsForLayer], [renderText], [renderTransformedSource],
      [renderMask], [renderFilters], [hasEffects], [hasFilters]) and the
      snapshot of a document ([createDocumentSnapshot],
      [createFullSizeCanvas]);
    - the [ZoomableCanvas] class (its constructor, [setDocumentScale],
      [setZoomFactor], [render], [handleInteraction]);
    - the [EffectFactory] ([create], [serialize], [deserialize]).

    JavaScript numbers are IEEE 754 binary64 values; they are modelled by
    Rocq's primitive [float], whose operations are the same binary64
    operations, so that [NaN], the infinities and the two zeros behave as
    they do in the program.  Drawing on a 2D context is modelled by the
    list of commands the context received; objects that the program shares
    by reference (canvases, sprites, layers) live in a store. *)

From Stdlib Require Import ZArith List String Floats Lia Bool.
From Stdlib.Strings Require Import Byte Ascii.
From stdpp Require Import base list gmap strings.

Set Default Proof Using "Type".

(** ** JavaScript primitives on numbers *)

Module JS.
Local Open Scope float_scope.

(** The number a non-negative integer below 2^63 denotes (exact below
    2^53). *)
Definition of_Z (z : Z) : float := of_uint63 (Uint63.of_Z z).
Definition of_nat (n : nat) : float := of_Z (Z.of_nat n).

(** [ToBoolean] on a number: [+0], [-0] and [NaN] are falsy. *)
Definition truthy (x : float) : bool := negb (is_zero x || is_nan x).

(** [a || b] on numbers. *)
Definition or_else (a b : float) : float := if truthy a then a else b.

(** [x === y] and [x !== y] on numbers. *)
Definition strict_eq (x y : float) : bool := (x =? y).
Definition strict_ne (x y : float) : bool := negb (x =? y).

(** [x % y]: the remainder of the truncated division, computed exactly,
    with the sign of the dividend (ECMAScript Number::remainder). *)
Definition rem (x y : float) : float :=
  match Prim2SF x, Prim2SF y with
  | S754_nan, _ | _, S754_nan => nan
  | S754_infinity _, _ => nan
  | _, S754_zero _ => nan
  | _, S754_infinity _ => x
  | S754_zero _, _ => x
  | S754_finite sx mx ex, S754_finite _ my ey =>
      let e := Z.min ex ey in
      let X := (Zpos mx * 2 ^ (ex - e))%Z in
      let Y := (Zpos my * 2 ^ (ey - e))%Z in
      match (X mod Y)%Z with
      | Zpos r => SF2Prim (S754_finite sx r e)
      | _ => if sx then PrimFloat.neg_zero else PrimFloat.zero
      end
  end.

(** [Math.pow( x, 2 )]: the square.  (The language leaves the last bit
    of [Math.pow] to the implementation, except where the result is
    exact, as it is for the bases 0 and 1.) *)
Definition pow2 (x : float) : float := x * x.

(** [Math.PI]. *)
Definition PI : float := 0x1.921fb54442d18p+1.

(** Reading an element of a [Uint8ClampedArray] gives its value as a
    number. *)
Definition of_byte (b : byte) : float := of_Z (Z.of_N (Byte.to_N b)).

(** The largest integer in [0 .. n] that is [<= x], for [0 <= x]. *)
Fixpoint floor_upto (n : nat) (x : float) : nat :=
  match n with
  | O => O
  | S k => if of_nat n <=? x then n else floor_upto k x
  end.

(** [ToUint8Clamp]: what a store into a [Uint8ClampedArray] keeps of a
    number: [NaN] becomes 0, the value is clamped to [0, 255] and rounded
    to the nearest integer, ties to even. *)
Definition ToUint8Clamp (x : float) : nat :=
  if is_nan x then 0%nat
  else if x <=? 0 then 0%nat
  else if 255 <=? x then 255%nat
  else
    let f := floor_upto 254 x in
    if of_nat f + 0.5 <? x then S f
    else if x <? of_nat f + 0.5 then f
    else if Nat.even f then f else S f.

Definition to_byte (x : float) : byte :=
  match Byte.of_nat (ToUint8Clamp x) with
  | Some b => b
  | None => x00
  end.

(** [lo <= |x| <= hi]. *)
Definition magnitude_between (lo hi x : float) : bool :=
  (lo <=? abs x) && (abs x <=? hi).

(** The exponent at which the binary64 division of [m1 * 2^e1] by
    [m2 * 2^e2] takes its integer quotient ([SFdiv_core_binary]). *)
Definition div_exponent (m1 e1 m2 e2 : Z) : Z :=
  Z.min (fexp prec emax (Zdigits2 m1 + e1 - (Zdigits2 m2 + e2))) (e1 - e2).
(** A number is of order [k] at least: it is infinite, or finite with
    [k] or more for the sum of the digits of its mantissa and its
    exponent, that is, of magnitude [2^(k-1)] or more. *)
Definition order_ge (k : Z) (x : spec_float) : Prop :=
  match x with
  | S754_infinity _ => True
  | S754_finite _ m e => (k <= Z.pos (digits2_pos m) + e)%Z
  | _ => False
  end.
End JS.

(** ** The effect factory *)

Module EffectFactory.
(** An effects object as [create] builds it. *)
Record Effects := {
  rotation : float;
  mirrorX  : bool;
  mirrorY  : bool;
}.

(** The argument of [create]: each property may be missing
    ([undefined], here [None]). *)
Record Props := {
  p_rotation : option float;
  p_mirrorX  : option bool;
  p_mirrorY  : option bool;
}.

(** The stored form [{ r, x, y }]; a project read back from storage may
    lack a property. *)
Record Stored := {
  r : option float;
  x : option bool;
  y : option bool;
}.

(** [create({ rotation = 0, mirrorX = false, mirrorY = false } = {})]:
    a default applies where the argument, or a property of it, is
    [undefined]. *)
Definition create (props : option Props) : Effects :=
  let props := default {| p_rotation := None; p_mirrorX := None; p_mirrorY := None |} props in
  {| rotation := default 0%float (p_rotation props);
     mirrorX  := default false (p_mirrorX props);
     mirrorY  := default false (p_mirrorY props) |}.

Definition serialize (effects : Effects) : Stored :=
  {| r := Some (rotation effects);
     x := Some (mirrorX effects);
     y := Some (mirrorY effects) |}.

Definition deserialize (effects : Stored) : Effects :=
  create (Some {| p_rotation := r effects;
                  p_mirrorX  := x effects;
                  p_mirrorY  := y effects |}).
End EffectFactory.

(** ** Canvases and 2D contexts *)

Module DOM.
(** Canvases are shared by reference. *)
Definition CanvasRef := nat.

(** The commands a [CanvasRenderingContext2D] receives.  Assignments to
    [font], [fillStyle] and [globalCompositeOperation] are commands too;
    the font string [`${size}px ${family}`] is kept as its two parts. *)
Inductive Command :=
| Save
| Restore
| Scale (x y : float)
| Translate (x y : float)
| Rotate (angle : float)
| DrawImage (image : CanvasRef) (dx dy : float)
| ClearRect (x y : float) (w h : nat)
| SetFont (size : float) (family : string)
| SetFillStyle (color : string)
| SetGlobalCompositeOperation (operation : string)
| FillText (text : string) (x y : float)
| PutImageData (data : list byte) (w h : nat) (dx dy : float).

(** A canvas: its size and what was drawn on it since it was last
    sized. *)
Record Canvas := {
  width    : nat;
  height   : nat;
  commands : list Command;
}.

Definition draw (ops : list Command) (cvs : Canvas) : Canvas :=
  {| width := width cvs; height := height cvs; commands := commands cvs ++ ops |}.

(** What the browser decides: the size a canvas takes when a number is
    assigned to [width] or [height], the pixels [getImageData] reads
    back from what was drawn, and the descent [measureText] reports. *)
Class Browser := {
  dimension : float -> nat;
  getImageData : gmap CanvasRef Canvas -> CanvasRef -> list byte;
  actualBoundingBoxDescent : float -> string -> string -> float;
}.

(** [cvs.width = width; cvs.height = height]: sizing a canvas empties
    it. *)
Definition resized `{Browser} (w h : float) : Canvas :=
  {| width := dimension w; height := dimension h; commands := [] |}.

(** *** The drawing state of a context

    What [save] pushes and [restore] pops, as far as the commands above
    reach it: the transformation (kept as the transformations applied, in
    order), the font, the fill style and the composite operation. *)
Record DrawingState := {
  ctx_transform : list Command;
  ctx_font      : option (float * string);
  ctx_fillStyle : option string;
  ctx_operation : string;
}.

(** A context: its current drawing state and the stack of saved ones. *)
Record Context := {
  current : DrawingState;
  stack   : list DrawingState;
}.

Definition with_current (s : DrawingState) (ctx : Context) : Context :=
  {| current := s; stack := stack ctx |}.

(** One command on a context.  [restore] on an empty stack does
    nothing; drawing does not change the drawing state. *)
Definition execute (ctx : Context) (op : Command) : Context :=
  let s := current ctx in
  match op with
  | Save => {| current := s; stack := s :: stack ctx |}
  | Restore =>
      match stack ctx with
      | top :: rest => {| current := top; stack := rest |}
      | [] => ctx
      end
  | Scale _ _ | Translate _ _ | Rotate _ =>
      with_current {| ctx_transform := ctx_transform s ++ [ op ]; ctx_font := ctx_font s;
                      ctx_fillStyle := ctx_fillStyle s;
                      ctx_operation := ctx_operation s |} ctx
  | SetFont size family =>
      with_current {| ctx_transform := ctx_transform s; ctx_font := Some (size, family);
                      ctx_fillStyle := ctx_fillStyle s;
                      ctx_operation := ctx_operation s |} ctx
  | SetFillStyle color =>
      with_current {| ctx_transform := ctx_transform s; ctx_font := ctx_font s;
                      ctx_fillStyle := Some color;
                      ctx_operation := ctx_operation s |} ctx
  | SetGlobalCompositeOperation operation =>
      with_current {| ctx_transform := ctx_transform s; ctx_font := ctx_font s;
                      ctx_fillStyle := ctx_fillStyle s;
                      ctx_operation := operation |} ctx
  | DrawImage _ _ _ | ClearRect _ _ _ _ | FillText _ _ _ | PutImageData _ _ _ _ _ => ctx
  end.

Definition run (ops : list Command) (ctx : Context) : Context :=
  foldl execute ctx ops.

(** The images a list of commands draws, each with the drawing state it
    is drawn under. *)
Fixpoint painted (ops : list Command) (ctx : Context) : list (CanvasRef * DrawingState) :=
  match ops with
  | [] => []
  | op :: ops =>
      match op with
      | DrawImage image _ _ => [ (image, current ctx) ]
      | _ => []
      end ++ painted ops (execute ctx op)
  end.

(** The text a list of commands draws: the [fillText] calls, in order,
    each with its position. *)
Definition textOf (ops : list Command) : list (string * float * float) :=
  omap (fun op => match op with FillText t x y => Some (t, x, y) | _ => None end) ops.
End DOM.

(** ** The render service *)

Module RenderService.
Import DOM.
Export EffectFactory (Effects, rotation, mirrorX, mirrorY).
Local Open Scope float_scope.

Definition MAX_8BIT : float := 255.
Definition HALF     : float := 0.5.

(** The layer types of [@/definitions/layer-types]: the service tells
    [LAYER_TEXT] from every other. *)
Inductive LayerType :=
| LAYER_TEXT
| LAYER_OTHER (name : string).

Definition is_text (t : LayerType) : bool :=
  match t with LAYER_TEXT => true | LAYER_OTHER _ => false end.

Record Filters := {
  levels   : float;
  contrast : float;
}.

Record Text := {
  value      : string;
  font       : string;
  size       : float;
  color      : string;
  lineHeight : float;
  spacing    : float;
}.

(** A layer.  [source] and [mask] are canvases shared by reference, or
    absent. *)
Record Layer := {
  id      : string;
  type    : LayerType;
  width   : float;
  height  : float;
  source  : option CanvasRef;
  mask    : option CanvasRef;
  maskX   : float;
  maskY   : float;
  effects : Effects;
  filters : Filters;
  text    : Text;
}.

(** What a sprite holds as its bitmap. *)
Inductive Bitmap :=
| HTMLCanvasElement (cvs : CanvasRef)
| HTMLImageElement (src : string)
| NoBitmap.

(** The sprites of the rendering library: the service reads [_bitmap]
    and calls [setBitmap] and [invalidate]. *)
Class Sprites := {
  Sprite     : Type;
  _bitmap    : Sprite -> Bitmap;
  setBitmap  : Sprite -> CanvasRef -> float -> float -> Sprite;
  invalidate : Sprite -> Sprite;
}.

(** [@/utils/image-math]: the size of the bounding box of a layer
    rotated by an angle, and the centre of a rectangle
    [{ left, top, width, height }]. *)
Class ImageMath := {
  getRotatedSize    : Layer -> float -> float * float;
  getRotationCenter : float -> float -> float -> float -> float * float;
}.

(** [@/services/font-service]: whether loading a font succeeds. *)
Class FontService := {
  loadGoogleFont : string -> bool;
}.

Section Service.
Context `{Browser} `{Sprites} `{ImageMath} `{FontService}.

(** Layers, sprites and canvases are objects shared by reference;
    [fontRequests] records the fonts asked of the font service. *)
Record World := {
  layers       : gmap string Layer;
  sprites      : gmap string Sprite;
  canvases     : gmap CanvasRef Canvas;
  fontRequests : list string;
}.

(** Modelled from the spec: [getSpriteForLayer] of
    [@/factories/sprite-factory] (sprite lookup: given a layer, its
    on-screen drawable counterpart or none) is the lookup of the layer's
    id among the sprites. *)
Definition getSpriteForLayer (w : World) (layer : Layer) : option Sprite :=
  sprites w !! id layer.

Definition with_canvases (f : gmap CanvasRef Canvas -> gmap CanvasRef Canvas)
    (w : World) : World :=
  {| layers := layers w; sprites := sprites w;
     canvases := f (canvases w); fontRequests := fontRequests w |}.

(** Commands sent to the context of canvas [c]. *)
Definition drawOn (c : CanvasRef) (ops : list Command) (w : World) : World :=
  with_canvases (alter (draw ops) c) w.

(** Modelled from the spec: [createCanvas( width, height )] of
    [@/utils/canvas-util] creates a pixel surface of the given width
    and height; here, a canvas under a reference not yet in use. *)
Definition createCanvas (width height : float) (w : World) : CanvasRef * World :=
  let c := fresh (dom (canvases w)) in
  (c, with_canvases (insert c (resized width height)) w).

(** A canvas by reference; a reference always names a canvas of the
    store, a missing one reads as an empty canvas. *)
Definition canvasOf (w : World) (c : CanvasRef) : Canvas :=
  default {| DOM.width := 0; DOM.height := 0; commands := [] |} (canvases w !! c).

Definition hasEffects (layer : Layer) : bool :=
  if bool_decide (is_Some (mask layer)) then true
  else JS.strict_ne (rotation (effects layer)) 0
       || mirrorX (effects layer) || mirrorY (effects layer).

(** [filters.levels || filters.contrast]: a number, tested for
    truthiness by the caller. *)
Definition hasFilters (layer : Layer) : float :=
  JS.or_else (levels (filters layer)) (contrast (filters layer)).

(** [value.split( "\n" )]. *)
Fixpoint split_lines (s : string) : list string :=
  match s with
  | EmptyString => [EmptyString]
  | String c rest =>
      if Ascii.eqb c "010"%char then EmptyString :: split_lines rest
      else match split_lines rest with
           | l :: ls => String c l :: ls
           | [] => [String c EmptyString]
           end
  end.

(** *** Letters

    A string holds the UTF-8 bytes of a text; [line.split] on the empty
    separator cuts a line into its UTF-16 code units.  A character of
    one, two or three bytes is one code unit; a character of four bytes,
    one beyond the basic plane, is two, its surrogates, each of which is
    written here in the three bytes of its own code.  (Bytes that are
    not well-formed UTF-8 stand for no text; they are cut where the
    form breaks.) *)

(** The bytes [10xxxxxx], which follow the first byte of a character. *)
Definition continuation (c : ascii) : bool :=
  let n := N_of_ascii c in (128 <=? n)%N && (n <? 192)%N.

(** How many bytes follow a first byte: one after [110xxxxx], two after
    [1110xxxx], three after [11110xxx]. *)
Definition following (c : ascii) : nat :=
  let n := N_of_ascii c in
  if (n <? 192)%N then 0
  else if (n <? 224)%N then 1
  else if (n <? 240)%N then 2
  else if (n <? 248)%N then 3
  else 0.

(** The three bytes of the code unit [u], [1110xxxx 10xxxxxx 10xxxxxx]. *)
Definition surrogate (u : N) : string :=
  String (ascii_of_N (224 + u / 4096))
    (String (ascii_of_N (128 + (u / 64) mod 64))
       (String (ascii_of_N (128 + u mod 64)) EmptyString)).

(** The code units of one character, given by its bytes: of four bytes
    [11110aaa 10bbbbbb 10cccccc 10dddddd], the code point less [0x10000]
    gives ten bits to the surrogate from [0xD800] and ten to the one
    from [0xDC00]. *)
Definition codeUnits (bytes : string) : list string :=
  match bytes with
  | EmptyString => []
  | String a (String b (String c (String d EmptyString))) =>
      let point := (N_of_ascii a mod 8 * 262144 + N_of_ascii b mod 64 * 4096
                    + N_of_ascii c mod 64 * 64 + N_of_ascii d mod 64)%N in
      let v := (point - 65536)%N in
      [ surrogate (55296 + v / 1024); surrogate (56320 + v mod 1024) ]
  | _ => [ bytes ]
  end.

(** The code units of [s], after the bytes [pending] of a character
    that [need] more bytes are to follow. *)
Fixpoint units (pending : string) (need : nat) (s : string) : list string :=
  match s with
  | EmptyString => codeUnits pending
  | String c rest =>
      match need with
      | S n =>
          if continuation c then
            match n with
            | O => codeUnits (pending +:+ String c EmptyString) ++ units EmptyString 0 rest
            | S _ => units (pending +:+ String c EmptyString) n rest
            end
          else
            codeUnits pending
            ++ match following c with
               | O => String c EmptyString :: units EmptyString 0 rest
               | S k => units (String c EmptyString) (S k) rest
               end
      | O =>
          codeUnits pending
          ++ match following c with
             | O => String c EmptyString :: units EmptyString 0 rest
             | S k => units (String c EmptyString) (S k) rest
             end
      end
  end.

(** [line.split] on the empty separator: the letters of the line. *)
Definition split_letters (s : string) : list string := units EmptyString 0 s.

(** [renderText]; [None] is the [TypeError] of reading a property of
    a missing [source]. *)
Definition renderText (layer : Layer) (w : World) : option World :=
  let text := text layer in
  if String.eqb (value text) EmptyString then Some w
  else
    let w := {| layers := layers w; sprites := sprites w; canvases := canvases w;
                fontRequests := fontRequests w ++ [font text] |} in
    let font := if loadGoogleFont (font text) then font text else "Arial"%string in
    src ← source layer;
    let cvs := canvasOf w src in
    let setup :=
      [ ClearRect 0 0 (DOM.width cvs) (DOM.height cvs);
        SetFont (size text) font;
        SetFillStyle (color text) ] in
    let lines := split_lines (value text) in
    let lineHeight :=
      if JS.truthy (lineHeight text) then lineHeight text
      else size text + abs (actualBoundingBoxDescent (size text) font "Wq") in
    let drawLine (lineIndex : nat) (line : string) : list Command :=
      let y := lineHeight + JS.of_nat lineIndex * lineHeight in
      if JS.truthy (spacing text)
      then imap (fun letterIndex letter =>
                   FillText letter (JS.of_nat letterIndex * spacing text) y)
                (split_letters line)
      else [ FillText line 0 y ] in
    Some (drawOn src (setup ++ concat (imap drawLine lines)) w).

Definition renderMask (layer : Layer) (tX tY : float) : list Command :=
  match mask layer with
  | None => []
  | Some m =>
      [ Save;
        Translate tX tY;
        SetGlobalCompositeOperation "destination-in";
        DrawImage m (maskX layer) (maskY layer);
        Restore ]
  end.

(** The flag [rotate] of [renderTransformedSource]. *)
Definition rotate (rotation : float) : bool :=
  JS.strict_ne (JS.rem rotation 360) 0.

(** [renderTransformedSource]: the commands sent to [ctx]. *)
Definition renderTransformedSource (layer : Layer) (sourceBitmap : CanvasRef)
    (width height : float) (effects : Effects) : list Command :=
  let mirrorX := mirrorX effects in
  let mirrorY := mirrorY effects in
  let rotation := rotation effects in
  let targetX := if mirrorX then - width else 0 in
  let targetY := if mirrorY then - height else 0 in
  let xScale := if mirrorX then -1 else 1 in
  let yScale := if mirrorY then -1 else 1 in
  let '(transform, targetX, targetY) :=
    if rotate rotation then
      let '(x, y) := getRotationCenter 0 0
                       (if mirrorX then - width else width)
                       (if mirrorY then - height else height) in
      ([ Translate x y; Rotate rotation; Translate (- x) (- y) ],
       x - RenderService.width layer * HALF,
       y - RenderService.height layer * HALF)
    else ([], targetX, targetY) in
  [ Save; Scale xScale yScale ]
  ++ transform
  ++ [ DrawImage sourceBitmap targetX targetY ]
  ++ renderMask layer targetX targetY
  ++ [ Restore ].

(** [data[ i ]] read as a number: outside the array it is [undefined],
    which arithmetic turns into [NaN]. *)
Definition load (data : list byte) (i : nat) : float :=
  match data !! i with
  | Some b => JS.of_byte b
  | None => nan
  end.

(** [data[ i ] = v] on a [Uint8ClampedArray]: the value is clamped and
    rounded; a store outside the array is ignored. *)
Definition store (data : list byte) (i : nat) (v : float) : list byte :=
  <[ i := JS.to_byte v ]> data.

(** The right-hand sides of the two assignments, for a channel that
    reads [channel]: [channel * levels * levels] and
    [(( channel / MAX_8BIT - HALF ) * contrast + HALF ) * MAX_8BIT]. *)
Definition levelValue (channel levels : float) : float :=
  channel * levels * levels.

Definition contrastValue (channel contrast : float) : float :=
  ((channel / MAX_8BIT - HALF) * contrast + HALF) * MAX_8BIT.

Definition adjustLevel (levels : float) (data : list byte) (i : nat) : list byte :=
  store data i (levelValue (load data i) levels).

Definition adjustContrast (contrast : float) (data : list byte) (i : nat) : list byte :=
  store data i (contrastValue (load data i) contrast).

(** The two guarded adjustments of the loop body, for the pixel that
    starts at index [i]. *)
Definition filterAt (levels contrast : float) (i : nat) (data : list byte) : list byte :=
  let data :=
    if JS.truthy levels then
      let data := adjustLevel levels data i in
      let data := adjustLevel levels data (i + 1) in
      adjustLevel levels data (i + 2)
    else data in
  if JS.truthy contrast then
    let data := adjustContrast contrast data i in
    let data := adjustContrast contrast data (i + 1) in
    adjustContrast contrast data (i + 2)
  else data.

(** The body of the two loops of [renderFilters], at pixel [(x, y)]:
    [const i = ( y * width + x ) * 4], then the adjustments. *)
Definition filterPixel (levels contrast : float) (width x y : nat)
    (data : list byte) : list byte :=
  filterAt levels contrast ((y * width + x) * 4) data.

(** [for x < width] around [for y < height]. *)
Definition filterPixels (levels contrast : float) (width height : nat)
    (data : list byte) : list byte :=
  foldl (fun data x =>
           foldl (fun data y => filterPixel levels contrast width x y data)
                 data (seq 0 height))
        data (seq 0 width).

(** The colour bytes of pixel number [p] are the indices [j] with
    [j / 4 = p] and [j mod 4 <> 3]. *)
Definition colourOf (p j : nat) : Prop := (j / 4 = p /\ j mod 4 <> 3)%nat.

(** The pixels in the order of the two loops. *)
Definition sweepOrder (width height : nat) : list nat :=
  x ← seq 0 width; (fun y => (y * width + x)%nat) <$> seq 0 height.

(** What the adjustments make of the byte of one colour channel: the
    level value, as the array keeps it, and of that byte the contrast
    value, as the array keeps it. *)
Definition filterChannel (levels contrast : float) (b : byte) : byte :=
  let b := if JS.truthy levels then JS.to_byte (levelValue (JS.of_byte b) levels) else b in
  if JS.truthy contrast then JS.to_byte (contrastValue (JS.of_byte b) contrast) else b.

(** The two constants [renderFilters] derives from the filters. *)
Definition contrastFactor (filters : Filters) : float :=
  JS.pow2 ((contrast filters * 100 + 100) / 100).
Definition scaledLevels (filters : Filters) : float :=
  levels filters * 2.

Definition renderFilters (source : CanvasRef) (layer : Layer) (w : World) : World :=
  let filters := filters layer in
  let contrast := contrastFactor filters in
  let levels := scaledLevels filters in
  let width := DOM.width (canvasOf w source) in
  let height := DOM.height (canvasOf w source) in
  let data := getImageData (canvases w) source in
  let data := filterPixels levels contrast width height data in
  drawOn source [ ClearRect 0 0 width height;
                  PutImageData data width height 0 0 ] w.

(** The filter step of the pipeline:
    [if ( hasFilters( layer )) await renderFilters( cvs, layer )]. *)
Definition filterStage (cvs : CanvasRef) (layer : Layer) (w : World) : World :=
  if JS.truthy (hasFilters layer) then renderFilters cvs layer w else w.

(** The width and height of a canvas of the store. *)
Definition extent (w : World) (c : CanvasRef) : nat * nat :=
  (DOM.width (canvasOf w c), DOM.height (canvasOf w c)).

(** The canvas the pipeline draws on: the sprite's bitmap when that is a
    canvas, sized anew ([cvs.width = width; cvs.height = height]), else a
    canvas from [createCanvas]. *)
Definition workingCanvas (sprite : Sprite) (width height : float) (w : World)
    : CanvasRef * World :=
  match _bitmap sprite with
  | HTMLCanvasElement c => (c, with_canvases (insert c (resized width height)) w)
  | _ => createCanvas width height w
  end.

(** [renderEffectsForLayer], for the layer object under reference
    [ref] (a reference that names no layer does not occur); [None] is a
    rejected promise. *)
Definition renderEffectsForLayer (ref : string) (w : World) : option World :=
  match layers w !! ref with
  | None => Some w
  | Some layer =>
      match getSpriteForLayer w layer, source layer with
      | Some sprite, Some src =>
          let '(width, height) := getRotatedSize layer (rotation (effects layer)) in
          let '(cvs, w) := workingCanvas sprite width height w in
          w ← (if is_text (type layer) then renderText layer w else Some w);
          let w :=
            if hasEffects layer
            then drawOn cvs (renderTransformedSource layer src width height
                               (effects layer)) w
            else drawOn cvs [ DrawImage src 0 0 ] w in
          let w := filterStage cvs layer w in
          Some {| layers := layers w;
                  sprites := <[ id layer :=
                                  invalidate (setBitmap sprite cvs width height) ]>
                               (sprites w);
                  canvases := canvases w;
                  fontRequests := fontRequests w |}
      | _, _ => Some w
      end
  end.

(** *** Snapshots *)

(** A document: its size and its layers, bottom layer first, by
    reference. *)
Record Document := {
  doc_width  : float;
  doc_height : float;
  doc_layers : list string;
}.

(** [createFullSizeCanvas]: the options it gives the canvas of the
    rendering library, [{ width, height, viewport: { width: width * 10,
    height: height * 10 } }]. *)
Record CanvasOptions := {
  opt_width          : float;
  opt_height         : float;
  opt_viewportWidth  : float;
  opt_viewportHeight : float;
}.



(** What [createDocumentSnapshot] asks of the browser, of the rendering
    library and of the canvas utilities once the layers are drawn; each
    call can throw or reject ([None]).  [toDataURL] is
    [cvs.toDataURL( type, quality )] on the full-size canvas, which is
    given by its options, the sprites drawn on it, in order, and the world
    the loop leaves; [dispose] is [zcvs.dispose()]; [resizeToBase64] is
    the function of [@/utils/canvas-util]; [fetch] and [blob] are the
    browser's.  [toFixed2] is [parseFloat( x.toFixed( 2 ))], and
    [devicePixelRatio] is [window.devicePixelRatio]. *)
Class Exporter := {
  Response         : Type;
  Blob             : Type;
  toFixed2         : float -> float;
  devicePixelRatio : float;
  toDataURL        : CanvasOptions -> list Sprite -> World -> string -> float
                     -> option string;
  dispose          : CanvasOptions -> option unit;
  resizeToBase64   : string -> float -> float -> float -> float -> string -> float
                     -> option string;
  fetch            : string -> option Response;
  blob             : Response -> option Blob;
}.

Context `{Exporter}.



End Service.

(** *** Lines and letters

    The line feeds of a string, [lines.join( "\n" )], and the letters
    (the code units) of a string other than its line feeds. *)
Fixpoint newlines (s : string) : nat :=
  match s with
  | EmptyString => 0
  | String c rest => (if Ascii.eqb c "010"%char then 1 else 0) + newlines rest
  end.

Fixpoint join (lines : list string) : string :=
  match lines with
  | [] => EmptyString
  | line :: rest =>
      match rest with
      | [] => line
      | _ => line +:+ String "010"%char (join rest)
      end
  end.


End RenderService.

(** ** The zoomable canvas *)

Module ZoomableCanvas.
Import DOM.

Record Viewport := {
  left   : float;
  top    : float;
  width  : float;
  height : float;
}.

Record Touch := {
  pageX : float;
  pageY : float;
}.

Record Event := {
  type               : string;
  offsetX            : float;
  offsetY            : float;
  touches            : list Touch;
  changedTouches     : list Touch;
  deltaX             : float;
  deltaY             : float;
  propagationStopped : bool;
  defaultPrevented   : bool;
}.

Definition stopPropagation (e : Event) : Event :=
  {| type := type e; offsetX := offsetX e; offsetY := offsetY e;
     touches := touches e; changedTouches := changedTouches e;
     deltaX := deltaX e; deltaY := deltaY e;
     propagationStopped := true; defaultPrevented := defaultPrevented e |}.

Definition preventDefault (e : Event) : Event :=
  {| type := type e; offsetX := offsetX e; offsetY := offsetY e;
     touches := touches e; changedTouches := changedTouches e;
     deltaX := deltaX e; deltaY := deltaY e;
     propagationStopped := propagationStopped e; defaultPrevented := true |}.

Section Canvas.
(** [W] is whatever state the interaction handlers of the sprites act
    on. *)
Context {W : Type}.

(** A child sprite: its handler, which reports whether it handled the
    event, and [last], the link to its previous sibling. *)
#[warnings="-register-all"]
Inductive Sprite := {
  label             : string;
  child_handleInteraction : float -> float -> Event -> W -> bool * W;
  last              : option Sprite;
}.

Record Canvas := {
  _width           : float;
  _height          : float;
  _viewport        : option Viewport;
  zoomFactor       : float;
  documentScale    : float;
  _children        : list Sprite;
  _preventDefaults : bool;
  _canvasContext   : list Command;
}.

Record Document := { doc_width : float }.

(** The methods inherited from the rendering library's canvas. *)
Class Library := {
  setDimensions : Canvas -> float -> float -> bool -> bool -> Canvas;
  panViewport   : Canvas -> float -> float -> bool -> Canvas;
  invalidate    : Canvas -> Canvas;
  getCoordinate : Canvas -> float * float;
}.

Context `{Library}.

Definition set_zoomFactor (scale : float) (c : Canvas) : Canvas :=
  {| _width := _width c; _height := _height c; _viewport := _viewport c;
     zoomFactor := scale; documentScale := documentScale c;
     _children := _children c; _preventDefaults := _preventDefaults c;
     _canvasContext := _canvasContext c |}.

Definition set_documentScale (s : float) (c : Canvas) : Canvas :=
  {| _width := _width c; _height := _height c; _viewport := _viewport c;
     zoomFactor := zoomFactor c; documentScale := s;
     _children := _children c; _preventDefaults := _preventDefaults c;
     _canvasContext := _canvasContext c |}.

Definition contextScale (x y : float) (c : Canvas) : Canvas :=
  {| _width := _width c; _height := _height c; _viewport := _viewport c;
     zoomFactor := zoomFactor c; documentScale := documentScale c;
     _children := _children c; _preventDefaults := _preventDefaults c;
     _canvasContext := _canvasContext c ++ [ Scale x y ] |}.

Definition setZoomFactor (c : Canvas) (scale : float) : Canvas :=
  invalidate (contextScale scale scale (set_zoomFactor scale c)).

(** The [constructor], on the canvas the constructor of the library
    made of the options ([super( opts )]): the document scale and the
    zoom factor of a new canvas are 1.  (The reference to the store is
    kept aside; nothing here reads it.) *)
Definition constructor (base : Canvas) : Canvas :=
  setZoomFactor (set_documentScale 1 base) 1.

(** [( offset / scroll ) || .5]. *)
Definition scrollRatio (offset scroll : float) : float :=
  JS.or_else (offset / scroll) 0.5.

(** [setDocumentScale]; [None] is the [TypeError] of destructuring a
    missing [_viewport]. *)
Definition setDocumentScale (c : Canvas) (targetWidth targetHeight scale zoom : float)
    (activeDocument : option Document) : option Canvas :=
  v ← _viewport c;
  let 'Build_Viewport left top width height := v in
  let scrollWidth  := (_width c - width)%float in
  let scrollHeight := (_height c - height)%float in
  let ratioX := scrollRatio left scrollWidth in
  let ratioY := scrollRatio top scrollHeight in
  let c := setDimensions c targetWidth targetHeight true true in
  let c := setZoomFactor c (scale * zoom) in
  let scrollWidth  := (_width c - width)%float in
  let scrollHeight := (_height c - height)%float in
  let c := panViewport c (scrollWidth * ratioX) (scrollHeight * ratioY) true in
  Some match activeDocument with
       | Some d => set_documentScale (doc_width d / _width c) c
       | None => c
       end.

(** [offset += viewportOffset] (when there is a viewport), then
    [offset /= zoomFactor]. *)
Definition toDocument (offset : float) (viewportOffset : option float)
    (zoomFactor : float) : float :=
  (match viewportOffset with
   | Some v => offset + v
   | None => offset
   end / zoomFactor)%float.

(** [( page - offset ) / zoomFactor], where [offset], the position of
    the canvas on the page, had the viewport offset subtracted (when
    there is a viewport). *)
Definition touchToDocument (page offset : float)
    (viewportOffset : option float) (zoomFactor : float) : float :=
  ((page - match viewportOffset with
           | Some v => offset - v
           | None => offset
           end) / zoomFactor)%float.

(** One call of a child's handler, as the canvas made it. *)
Record Call := {
  callee : Sprite;
  call_x : float;
  call_y : float;
}.

(** The mouse loop: [while ( theChild )], leaving at the first child
    that reports the event handled, else on to [theChild.last]. *)
Fixpoint dispatchMouse (theChild : Sprite) (x y : float) (aEvent : Event)
    (w : W) : list Call * W :=
  let '(found, w) := child_handleInteraction theChild x y aEvent w in
  let call := {| callee := theChild; call_x := x; call_y := y |} in
  if found then ([ call ], w)
  else match last theChild with
       | Some prev =>
           let '(calls, w) := dispatchMouse prev x y aEvent w in
           (call :: calls, w)
       | None => ([ call ], w)
       end.

(** The touch loop: every child down the [last] links is called. *)
Fixpoint dispatchTouch (theChild : Sprite) (x y : float) (aEvent : Event)
    (w : W) : list Call * W :=
  let '(_, w) := child_handleInteraction theChild x y aEvent w in
  let call := {| callee := theChild; call_x := x; call_y := y |} in
  match last theChild with
  | Some prev =>
      let '(calls, w) := dispatchTouch prev x y aEvent w in
      (call :: calls, w)
  | None => ([ call ], w)
  end.

(** The sibling links as the library keeps them, read from the topmost
    child down: each child's [last] is the child just below it, and the
    bottom child has none. *)
Fixpoint chained (order : list Sprite) : Prop :=
  match order with
  | [] => True
  | c :: below => last c = head below /\ chained below
  end.

(** [_children] is in z-order, bottom child first. *)
Definition linked (children : list Sprite) : Prop :=
  chained (reverse children).

(** What the mouse dispatch is said to do, on a list of sprites to visit
    in order: call each one's handler, stop after the first that reports
    the event handled. *)
Fixpoint visitUntilHandled (order : list Sprite) (x y : float) (aEvent : Event)
    (w : W) : list Call * W :=
  match order with
  | [] => ([], w)
  | s :: rest =>
      let '(found, w) := child_handleInteraction s x y aEvent w in
      let call := {| callee := s; call_x := x; call_y := y |} in
      if found then ([ call ], w)
      else let '(calls, w) := visitUntilHandled rest x y aEvent w in
           (call :: calls, w)
  end.

(** What the touch dispatch is said to do: call every sprite's handler,
    in order. *)
Fixpoint visitAll (order : list Sprite) (x y : float) (aEvent : Event)
    (w : W) : list Call * W :=
  match order with
  | [] => ([], w)
  | s :: rest =>
      let '(_, w) := child_handleInteraction s x y aEvent w in
      let call := {| callee := s; call_x := x; call_y := y |} in
      let '(calls, w) := visitAll rest x y aEvent w in
      (call :: calls, w)
  end.

(** The touches a touch event is dispatched with:
    [( aEvent.touches.length > 0 ) ? aEvent.touches : aEvent.changedTouches]. *)
Definition activeTouches (aEvent : Event) : list Touch :=
  if (0 <? length (touches aEvent))%nat then touches aEvent
  else changedTouches aEvent.

Definition WHEEL_SPEED : float := 20.

(** The [case] labels ["mousedown"], ["mousemove"], ["mouseup"]. *)
Definition is_mouse (type : string) : bool :=
  String.eqb type "mousedown" || String.eqb type "mousemove"
  || String.eqb type "mouseup".

Definition wheelSpeed (delta : float) : float :=
  if JS.strict_eq delta 0 then 0%float
  else if (0 <? delta)%float then WHEEL_SPEED else (- WHEEL_SPEED)%float.

(** The coordinates a touch event is dispatched with: [(0, 0)] unless
    the event has touches, then those of [touches[ 0 ]], less the
    position of the canvas on the page ([getCoordinate], itself less the
    viewport offset when there is a viewport), over the zoom factor. *)
Definition touchCoordinates (c : Canvas) (aEvent : Event) : float * float :=
  match activeTouches aEvent with
  | t :: _ =>
      let '(x, y) := getCoordinate c in
      (touchToDocument (pageX t) x (left <$> _viewport c) (zoomFactor c),
       touchToDocument (pageY t) y (top <$> _viewport c) (zoomFactor c))
  | [] => (0%float, 0%float)
  end.

(** What a call of [handleInteraction] leaves behind: the canvas, the
    state of the sprites, the event, and the calls made to the
    children's handlers, in order. *)
Record Outcome := {
  canvas : Canvas;
  world  : W;
  event  : Event;
  calls  : list Call;
}.

(** [handleInteraction]; [None] is a [TypeError] (a wheel event on a
    canvas without viewport).  There is a child at [numChildren - 1]
    exactly when [numChildren > 0]. *)
Definition handleInteraction (c : Canvas) (aEvent : Event) (w : W) : option Outcome :=
  let numChildren := length (_children c) in
  let viewport := _viewport c in
  '(c', w, calls) ←
    match _children c !! (numChildren - 1)%nat with
    | Some theChild =>
        if is_mouse (type aEvent) then
          let offsetX := toDocument (offsetX aEvent) (left <$> viewport) (zoomFactor c) in
          let offsetY := toDocument (offsetY aEvent) (top <$> viewport) (zoomFactor c) in
          let '(calls, w) := dispatchMouse theChild offsetX offsetY aEvent w in
          Some (c, w, calls)
        else if String.eqb (type aEvent) "wheel" then
          v ← viewport;
          let xSpeed := wheelSpeed (deltaX aEvent) in
          let ySpeed := wheelSpeed (deltaY aEvent) in
          Some (panViewport c (left v + xSpeed)%float (top v + ySpeed)%float true, w, [])
        else
          let '(eventOffsetX, eventOffsetY) := touchCoordinates c aEvent in
          let '(calls, w) := dispatchTouch theChild eventOffsetX eventOffsetY aEvent w in
          Some (c, w, calls)
    | None => Some (c, w, [])
    end;
  let aEvent :=
    if _preventDefaults c then preventDefault (stopPropagation aEvent) else aEvent in
  Some {| canvas := invalidate c'; world := w; event := aEvent; calls := calls |}.

(** *** Rendering *)

(** The fields of the canvas that only [render] uses: the time of the
    last render and the interval between renders, whether a render is
    pending, whether a size is enqueued, the background colour, the
    external update handler (when [_updateHandler] is a function), and
    the flags and the frame id of the animation. *)
Record RenderState := {
  _lastRender     : float;
  _renderInterval : float;
  _renderPending  : bool;
  _enqueuedSize   : bool;
  _bgColor        : option string;
  _updateHandler  : option (float -> W -> W);
  _disposed       : bool;
  _animate        : bool;
  _renderId       : option nat;
}.

(** What [render] asks of the sprites: [update] and [draw] of a sprite
    (on the context of the canvas), and its [next] sibling. *)
Class Display := {
  update : Sprite -> float -> W -> W;
  draw   : Sprite -> option Viewport -> W -> W;
  next   : Sprite -> option Sprite;
}.

Context `{Display}.

(** What a call of [render] does, in order. *)
Inductive RenderStep :=
| Filled (color : string) (width height : float)
| Cleared (width height : float)
| HandlerCalled (now : float)
| Updated (sprite : Sprite) (now : float)
| Drawn (sprite : Sprite) (viewport : option Viewport)
| FrameRequested (frame : nat).

(** [this._renderPending = false] and
    [this._lastRender = now - ( delta % this._renderInterval )]. *)
Definition stamped (now : float) (r : RenderState) : RenderState :=
  let delta := (now - _lastRender r)%float in
  {| _lastRender := (now - JS.rem delta (_renderInterval r))%float;
     _renderInterval := _renderInterval r;
     _renderPending := false;
     _enqueuedSize := _enqueuedSize r;
     _bgColor := _bgColor r;
     _updateHandler := _updateHandler r;
     _disposed := _disposed r;
     _animate := _animate r;
     _renderId := _renderId r |}.

(** [this._renderPending = true] and
    [this._renderId = window.requestAnimationFrame( ... )]. *)
Definition requested (frame : nat) (r : RenderState) : RenderState :=
  {| _lastRender := _lastRender r;
     _renderInterval := _renderInterval r;
     _renderPending := true;
     _enqueuedSize := _enqueuedSize r;
     _bgColor := _bgColor r;
     _updateHandler := _updateHandler r;
     _disposed := _disposed r;
     _animate := _animate r;
     _renderId := Some frame |}.

(** The copy of the viewport with every value divided by the zoom
    factor; without viewport the copy is the empty object. *)
Definition zoomedViewport (c : Canvas) : option Viewport :=
  (fun v => {| left := left v / zoomFactor c; top := top v / zoomFactor c;
               width := width v / zoomFactor c;
               height := height v / zoomFactor c |}%float)
  <$> _viewport c.

(** A background colour is used when it is truthy: a string other than
    the empty one. *)
Definition background (r : RenderState) : option string :=
  match _bgColor r with
  | Some color => if String.eqb color EmptyString then None else Some color
  | None => None
  end.

(** The loop [while ( theSprite )] over the [next] links.  [fuel]
    bounds the number of sprites visited; [None] is a chain of links
    that does not end within it. *)
Fixpoint drawChildren (fuel : nat) (theSprite : option Sprite)
    (useExternalUpdateHandler : bool) (now : float) (viewport : option Viewport)
    (w : W) : option (list RenderStep * W) :=
  match theSprite with
  | None => Some ([], w)
  | Some sprite =>
      match fuel with
      | O => None
      | S fuel =>
          let w := if useExternalUpdateHandler then w else update sprite now w in
          let w := draw sprite viewport w in
          '(steps, w) ← drawChildren fuel (next sprite) useExternalUpdateHandler
                          now viewport w;
          Some ((if useExternalUpdateHandler then [] else [ Updated sprite now ])
                ++ Drawn sprite viewport :: steps, w)
      end
  end.

(** What a call of [render] leaves behind. *)
Record Rendered := {
  rendered_canvas : Canvas;
  rendered_state  : RenderState;
  rendered_world  : W;
  steps           : list RenderStep;
}.

(** [render], at the time [now] ([Date.now()]), where
    [requestAnimationFrame] would answer [frame].  [None] is an
    exception, or a chain of [next] links that does not end within
    [fuel].  With a size enqueued the call [updateCanvasSize( this )] is
    made: the module neither defines nor imports a function of that
    name (it is a private function of the rendering library), so the
    call throws a [ReferenceError], after the two stamps and before
    anything is cleared or drawn.  The canvas has a context: the
    constructor scales it, through [setZoomFactor]. *)
Definition render (fuel : nat) (c : Canvas) (r : RenderState) (now : float)
    (frame : nat) (w : W) : option Rendered :=
  let r := stamped now r in
  if _enqueuedSize r then None else
  let width := (_width c / zoomFactor c)%float in
  let height := (_height c / zoomFactor c)%float in
  let viewport := zoomedViewport c in
  let cleared :=
    match background r with
    | Some color => [ Filled color width height ]
    | None => [ Cleared width height ]
    end in
  let '(w, handled) :=
    match _updateHandler r with
    | Some handler => (handler now w, [ HandlerCalled now ])
    | None => (w, [])
    end in
  '(drawn, w) ← drawChildren fuel (_children c !! 0%nat)
                  (bool_decide (is_Some (_updateHandler r))) now viewport w;
  let '(r, animated) :=
    if negb (_disposed r) && _animate r && negb (_renderPending r)
    then (requested frame r, [ FrameRequested frame ])
    else (r, []) in
  Some {| rendered_canvas := c; rendered_state := r; rendered_world := w;
          steps := cleared ++ handled ++ drawn ++ animated |}.

(** The [next] links as the library keeps them, read from the bottom
    child up: each child's [next] is the child just above it, and the
    topmost child has none. *)
Fixpoint chained_next (order : list Sprite) : Prop :=
  match order with
  | [] => True
  | sprite :: above => next sprite = head above /\ chained_next above
  end.

(** What the loop of [render] is to do, on the list of the children:
    update (unless an external handler did) and draw each one, in
    order. *)
Fixpoint drawAll (order : list Sprite) (useExternalUpdateHandler : bool) (now : float)
    (viewport : option Viewport) (w : W) : list RenderStep * W :=
  match order with
  | [] => ([], w)
  | sprite :: above =>
      let w := if useExternalUpdateHandler then w else update sprite now w in
      let w := draw sprite viewport w in
      let '(steps, w) := drawAll above useExternalUpdateHandler now viewport w in
      ((if useExternalUpdateHandler then [] else [ Updated sprite now ])
       ++ Drawn sprite viewport :: steps, w)
  end.
End Canvas.
End ZoomableCanvas.

(** ** Stand-ins for the collaborators

    The theorems below hold for every browser, sprite library, image-math
    and font-service implementation; the ones here make the functions
    run on concrete inputs. *)

Module Fixtures.
Import DOM RenderService.
Local Open Scope float_scope.

(** The integer part of a non-negative finite number. *)
Definition trunc (x : float) : nat :=
  match Prim2SF x with
  | S754_finite false m e =>
      Z.to_nat (match e with
                | Zneg p => Z.pos m / 2 ^ Z.pos p
                | _ => Z.pos m * 2 ^ e
                end)
  | _ => 0%nat
  end.

(** A uniform opaque grey, value 100. *)
Definition grey (cvs : Canvas) : list byte :=
  concat (replicate (DOM.width cvs * DOM.height cvs) [ x64; x64; x64; xff ]).

#[export] Instance testBrowser : Browser :=
  {| dimension := trunc;
     getImageData := fun cs c =>
       match cs !! c with Some cvs => grey cvs | None => [] end;
     actualBoundingBoxDescent := fun size _ _ => size / 4 |}.

Record TestSprite := {
  bitmap      : Bitmap;
  bounds      : float * float;
  invalidated : bool;
}.

#[export] Instance testSprites : Sprites :=
  {| Sprite := TestSprite;
     _bitmap := bitmap;
     setBitmap := fun s cvs w h =>
       {| bitmap := HTMLCanvasElement cvs; bounds := (w, h);
          invalidated := invalidated s |};
     invalidate := fun s =>
       {| bitmap := bitmap s; bounds := bounds s; invalidated := true |} |}.

(** The bounding box of a quarter turn for every non-zero angle, and the
    centre of a rectangle. *)
#[export] Instance testImageMath : ImageMath :=
  {| getRotatedSize := fun layer angle =>
       if JS.strict_eq angle 0
       then (RenderService.width layer, RenderService.height layer)
       else (RenderService.height layer, RenderService.width layer);
     getRotationCenter := fun left top width height =>
       (left + width * 0.5, top + height * 0.5) |}.

#[export] Instance testFonts : FontService :=
  {| loadGoogleFont := fun name => String.eqb name "Roboto" |}.

Definition noText : Text :=
  {| value := EmptyString; font := "Roboto"; size := 12; color := "#000";
     lineHeight := 0; spacing := 0 |}.

Definition noEffects : Effects :=
  {| rotation := 0; mirrorX := false; mirrorY := false |}.

(** A 4 by 2 bitmap layer whose source is canvas 0. *)
Definition plainLayer : Layer :=
  {| id := "layer"; type := LAYER_OTHER "graphic"; RenderService.width := 4;
     RenderService.height := 2; source := Some 0%nat; mask := None;
     maskX := 0; maskY := 0; effects := noEffects;
     filters := {| levels := 0; contrast := 0 |}; text := noText |}.


Definition with_filters (f : Filters) (l : Layer) : Layer :=
  {| id := id l; type := type l; RenderService.width := RenderService.width l;
     RenderService.height := RenderService.height l; source := source l;
     mask := mask l; maskX := maskX l; maskY := maskY l; effects := effects l;
     filters := f; text := text l |}.

Definition textLayer (t : Text) : Layer :=
  {| id := "layer"; type := LAYER_TEXT; RenderService.width := 4;
     RenderService.height := 2; source := Some 0%nat; mask := None;
     maskX := 0; maskY := 0; effects := noEffects;
     filters := {| levels := 0; contrast := 0 |}; text := t |}.


Definition emptySprite : TestSprite :=
  {| bitmap := NoBitmap; bounds := (0, 0); invalidated := false |}.

(** A world with one layer, its sprite, and the layer's 4 by 2 source
    canvas, on which something was drawn before. *)
Definition worldOf (layer : Layer) : World :=
  {| layers := {[ "layer"%string := layer ]};
     sprites := {[ "layer"%string := emptySprite ]};
     canvases := {[ 0%nat := {| DOM.width := 4; DOM.height := 2;
                                commands := [ FillText "old" 0 10 ] |} ]};
     fontRequests := [] |}.






(** An exporter that does not fail, on a screen of two device pixels
    to the pixel: the data URL names the type, resizing and fetching
    pass it on, and a quality is taken to have two decimals already. *)
#[export] Instance testExporter : Exporter :=
  {| Response := string;
     Blob := string;
     toFixed2 := fun x => x;
     devicePixelRatio := 2;
     toDataURL := fun _ _ _ type _ => Some ("data:" +:+ type);
     dispose := fun _ => Some tt;
     resizeToBase64 := fun base64 _ _ _ _ _ _ => Some base64;
     fetch := Some;
     blob := Some |}.

(** *** The zoomable canvas *)

(** The handlers of the test sprites log the label of their sprite. *)
Definition Log := list string.

Definition sprite (label : string) (handles : bool)
    (last : option (@ZoomableCanvas.Sprite Log)) : @ZoomableCanvas.Sprite Log :=
  {| ZoomableCanvas.label := label;
     ZoomableCanvas.child_handleInteraction := fun _ _ _ log => (handles, log ++ [ label ]);
     ZoomableCanvas.last := last |}.

Definition with_size (width height : float) (c : @ZoomableCanvas.Canvas Log)
    : @ZoomableCanvas.Canvas Log :=
  {| ZoomableCanvas._width := width; ZoomableCanvas._height := height;
     ZoomableCanvas._viewport := ZoomableCanvas._viewport c;
     ZoomableCanvas.zoomFactor := ZoomableCanvas.zoomFactor c;
     ZoomableCanvas.documentScale := ZoomableCanvas.documentScale c;
     ZoomableCanvas._children := ZoomableCanvas._children c;
     ZoomableCanvas._preventDefaults := ZoomableCanvas._preventDefaults c;
     ZoomableCanvas._canvasContext := ZoomableCanvas._canvasContext c |}.

Definition scrolled_to (x y : float) (c : @ZoomableCanvas.Canvas Log)
    : @ZoomableCanvas.Canvas Log :=
  {| ZoomableCanvas._width := ZoomableCanvas._width c;
     ZoomableCanvas._height := ZoomableCanvas._height c;
     ZoomableCanvas._viewport :=
       (fun v => {| ZoomableCanvas.left := x; ZoomableCanvas.top := y;
                    ZoomableCanvas.width := ZoomableCanvas.width v;
                    ZoomableCanvas.height := ZoomableCanvas.height v |})
       <$> ZoomableCanvas._viewport c;
     ZoomableCanvas.zoomFactor := ZoomableCanvas.zoomFactor c;
     ZoomableCanvas.documentScale := ZoomableCanvas.documentScale c;
     ZoomableCanvas._children := ZoomableCanvas._children c;
     ZoomableCanvas._preventDefaults := ZoomableCanvas._preventDefaults c;
     ZoomableCanvas._canvasContext := ZoomableCanvas._canvasContext c |}.

(** A library that sizes and scrolls as asked, and a canvas that sits at
    the origin of the page. *)
#[export] Instance testLibrary : @ZoomableCanvas.Library Log :=
  {| ZoomableCanvas.setDimensions := fun c width height _ _ => with_size width height c;
     ZoomableCanvas.panViewport := fun c x y _ => scrolled_to x y c;
     ZoomableCanvas.invalidate := fun c => c;
     ZoomableCanvas.getCoordinate := fun _ => (0, 0) |}.

(** Three children, bottom to top, each linked to the one below. *)
Definition bottom : @ZoomableCanvas.Sprite Log := sprite "bottom" false None.
Definition middle (handles : bool) : @ZoomableCanvas.Sprite Log :=
  sprite "middle" handles (Some bottom).
Definition topmost (handles : bool) : @ZoomableCanvas.Sprite Log :=
  sprite "top" false (Some (middle handles)).

(** A canvas 200 wide and high, zoomed by 2, showing the 100 by 100
    window at [(left, top)]. *)
Definition testCanvas (left top : float) (children : list (@ZoomableCanvas.Sprite Log))
    : @ZoomableCanvas.Canvas Log :=
  {| ZoomableCanvas._width := 200; ZoomableCanvas._height := 200;
     ZoomableCanvas._viewport :=
       Some {| ZoomableCanvas.left := left; ZoomableCanvas.top := top;
               ZoomableCanvas.width := 100; ZoomableCanvas.height := 100 |};
     ZoomableCanvas.zoomFactor := 2;
     ZoomableCanvas.documentScale := 1;
     ZoomableCanvas._children := children;
     ZoomableCanvas._preventDefaults := true;
     ZoomableCanvas._canvasContext := [] |}.

Definition mouseEvent (type : string) (x y : float) : ZoomableCanvas.Event :=
  {| ZoomableCanvas.type := type;
     ZoomableCanvas.offsetX := x; ZoomableCanvas.offsetY := y;
     ZoomableCanvas.touches := []; ZoomableCanvas.changedTouches := [];
     ZoomableCanvas.deltaX := 0; ZoomableCanvas.deltaY := 0;
     ZoomableCanvas.propagationStopped := false;
     ZoomableCanvas.defaultPrevented := false |}.

Definition touchEvent (type : string) (touches changed : list ZoomableCanvas.Touch)
    : ZoomableCanvas.Event :=
  {| ZoomableCanvas.type := type;
     ZoomableCanvas.offsetX := 0; ZoomableCanvas.offsetY := 0;
     ZoomableCanvas.touches := touches; ZoomableCanvas.changedTouches := changed;
     ZoomableCanvas.deltaX := 0; ZoomableCanvas.deltaY := 0;
     ZoomableCanvas.propagationStopped := false;
     ZoomableCanvas.defaultPrevented := false |}.

(** Sprites that log their updates and draws, with the [next] links of
    the three children. *)
#[export] Instance testDisplay : @ZoomableCanvas.Display Log :=
  {| ZoomableCanvas.update := fun s _ log =>
       log ++ [ "update " +:+ ZoomableCanvas.label s ];
     ZoomableCanvas.draw := fun s _ log =>
       log ++ [ "draw " +:+ ZoomableCanvas.label s ];
     ZoomableCanvas.next := fun s =>
       if String.eqb (ZoomableCanvas.label s) "bottom" then Some (middle true)
       else if String.eqb (ZoomableCanvas.label s) "middle" then Some (topmost true)
       else None |}.

(** A canvas last rendered at 1000, every 16, with a white background
    and no external update handler; a render is pending. *)
Definition testRenderState (animate : bool) : @ZoomableCanvas.RenderState Log :=
  {| ZoomableCanvas._lastRender := 1000;
     ZoomableCanvas._renderInterval := 16;
     ZoomableCanvas._renderPending := true;
     ZoomableCanvas._enqueuedSize := false;
     ZoomableCanvas._bgColor := Some "#fff"%string;
     ZoomableCanvas._updateHandler := None;
     ZoomableCanvas._disposed := false;
     ZoomableCanvas._animate := animate;
     ZoomableCanvas._renderId := None |}.

(** Offsets 0 to 511 against a handful of zoom factors. *)
Definition halvingSample : list (float * float) :=
  z ← [ 0.25; 0.5; 1; 1.5; 2; 3; 4; 7; 8; 10 ];
  n ← seq 0 512;
  [ (JS.of_nat n, z) ].
End Fixtures.

(** * Properties *)

(** ** The effect factory *)

Section EffectFactoryFacts.
Import EffectFactory.

Lemma create_of_defined (rot : float) (mx my : bool) :
  create (Some {| p_rotation := Some rot; p_mirrorX := Some mx; p_mirrorY := Some my |})
  = {| rotation := rot; mirrorX := mx; mirrorY := my |}.
Proof. reflexivity. Qed.

(** A property missing from the stored form is read back as its
    default. *)
Lemma deserialize_missing_fields :
  deserialize {| r := None; x := None; y := None |}
  = {| rotation := 0%float; mirrorX := false; mirrorY := false |}.
Proof. reflexivity. Qed.

(** C6: for every effects object [e], [deserialize (serialize e)] has
    the rotation, the mirrorX and the mirrorY of [e], and so is [e]
    itself: the round trip through the stored form [{r, x, y}] loses
    nothing. *)
Theorem deserialize_serialize (e : Effects) :
  rotation (deserialize (serialize e)) = rotation e
  /\ mirrorX (deserialize (serialize e)) = mirrorX e
  /\ mirrorY (deserialize (serialize e)) = mirrorY e
  /\ deserialize (serialize e) = e.
Proof.
  destruct e as [rot mx my].
  unfold deserialize, serialize; cbn [r x y rotation mirrorX mirrorY].
  rewrite create_of_defined. auto.
Qed.

(** X6: the round trip the other way.  Reading a stored object and
    storing the result gives the stored object with every missing
    property filled in with its default ([r: 0], [x: false], [y: false])
    and every present one kept; so a stored object with its three
    properties comes back as it was, and reading what was stored back
    gives the same effects again.  [create] without argument gives the
    effects of the empty stored object. *)
Theorem serialize_deserialize (s : Stored) :
  serialize (deserialize s)
  = {| r := Some (default 0%float (r s));
       x := Some (default false (x s));
       y := Some (default false (y s)) |}
  /\ (is_Some (r s) -> is_Some (x s) -> is_Some (y s) -> serialize (deserialize s) = s)
  /\ deserialize (serialize (deserialize s)) = deserialize s
  /\ create None = deserialize {| r := None; x := None; y := None |}.
Proof.
  destruct s as [sr sx sy]. cbn [r x y].
  split; [reflexivity|]. split; [|split; reflexivity].
  intros [rot ->] [mx ->] [my ->]. reflexivity.
Qed.
End EffectFactoryFacts.

(** ** Numbers *)

Section NumberFacts.
Local Open Scope float_scope.

Lemma Prim2SF_zero : Prim2SF 0 = S754_zero false.
Proof. reflexivity. Qed.

(** A number that compares equal to 0 is one of the two zeros. *)
Lemma is_zero_inv (x : float) :
  is_zero x = true -> exists s, Prim2SF x = S754_zero s.
Proof.
  unfold is_zero. rewrite FloatAxioms.eqb_spec.
  change (Prim2SF PrimFloat.zero) with (S754_zero false).
  destruct (Prim2SF x) as [s|s| |s m e]; [eauto|..]; try discriminate;
    destruct s; discriminate.
Qed.

Lemma is_zero_of_SF (x : float) (s : bool) :
  Prim2SF x = S754_zero s -> is_zero x = true.
Proof.
  intros E. unfold is_zero. rewrite FloatAxioms.eqb_spec, E. by destruct s.
Qed.

Lemma is_nan_of_SF (x : float) :
  Prim2SF x = S754_nan -> is_nan x = true.
Proof.
  intros E. unfold is_nan. rewrite FloatAxioms.eqb_spec, E. reflexivity.
Qed.

(** Zero divided by anything is a zero or [NaN]: falsy. *)
Lemma zero_div_falsy (x y : float) :
  is_zero x = true -> JS.truthy (x / y) = false.
Proof.
  intros [s E]%is_zero_inv. unfold JS.truthy.
  assert (Prim2SF (x / y) = S754_nan \/ exists t, Prim2SF (x / y) = S754_zero t) as [N|[t Z]].
  { rewrite FloatAxioms.div_spec, E. unfold SF64div, SFdiv.
    destruct (Prim2SF y) as [t|t| |t m e]; eauto. }
  - rewrite (is_nan_of_SF _ N). by rewrite orb_true_r.
  - by rewrite (is_zero_of_SF _ _ Z).
Qed.

Lemma or_else_truthy (a b : float) : JS.truthy a = true -> JS.or_else a b = a.
Proof. unfold JS.or_else. by intros ->. Qed.

Lemma or_else_falsy (a b : float) : JS.truthy a = false -> JS.or_else a b = b.
Proof. unfold JS.or_else. by intros ->. Qed.

(** Storing what the contrast formula gives for the factor 1 keeps the
    byte: the rounding of the store absorbs the error of the binary64
    arithmetic. *)
Lemma contrast_one_keeps_byte (b : byte) :
  JS.to_byte (RenderService.contrastValue (JS.of_byte b) 1) = b.
Proof. destruct b; vm_compute; reflexivity. Qed.

(** Reading a byte and storing it back keeps it. *)
Lemma to_byte_of_byte (b : byte) : JS.to_byte (JS.of_byte b) = b.
Proof. destruct b; vm_compute; reflexivity. Qed.

(** For the scaled level 2 the level formula gives four times the
    byte, exactly. *)
Lemma level_two_quadruples (b : byte) :
  RenderService.levelValue (JS.of_byte b) 2 = JS.of_Z (4 * Z.of_N (Byte.to_N b)).
Proof. destruct b; vm_compute; reflexivity. Qed.
End NumberFacts.

(** ** Binary64 division by a doubled divisor

    The operations of [float] are specified on [spec_float]
    ([FloatAxioms]); the lemmas below follow the rounding of a quotient
    through that specification. *)

Section Binary64Division.
Local Open Scope Z_scope.
Local Arguments Pos.mul : simpl nomatch.
Lemma fexp_eq (e : Z) : fexp prec emax e = Z.max (e - 53) (-1074).
Proof. reflexivity. Qed.

Lemma shr_nonpos (mrs : shr_record) (e n : Z) : n <= 0 -> shr mrs e n = (mrs, e).
Proof. destruct n; [reflexivity|lia|reflexivity]. Qed.

Lemma shr_snd (mrs : shr_record) (e n : Z) : 0 <= n -> snd (shr mrs e n) = e + n.
Proof. destruct n; cbn; lia. Qed.

Lemma shr_fst_indep (mrs : shr_record) (e e' n : Z) :
  fst (shr mrs e n) = fst (shr mrs e' n).
Proof. destruct n; reflexivity. Qed.

(** Lowering the exponent by one lowers the exponent of the shifted
    record by one and keeps the record, unless the shift already ends at
    the least exponent. *)
Lemma shr_fexp_dec (m e : Z) (l : location) :
  shr_fexp prec emax m (e - 1) l
  = (fst (shr_fexp prec emax m e l), snd (shr_fexp prec emax m e l) - 1)
  \/ (snd (shr_fexp prec emax m e l) = -1074 /\ e <= -1074
      /\ Zdigits2 m + e - 53 <= -1074).
Proof.
  unfold shr_fexp. rewrite !fexp_eq. set (d := Zdigits2 m). set (r := shr_record_of_loc m l).
  destruct (Z_le_gt_dec (d + e - 53) (-1074)) as [Hflat|Hlin].
  - destruct (Z_le_gt_dec e (-1074)) as [He|He].
    + right. rewrite Z.max_r by lia. rewrite shr_snd by lia. lia.
    + left. rewrite !Z.max_r by lia. rewrite !shr_nonpos by lia. reflexivity.
  - left. rewrite !Z.max_l by lia.
    replace (d + (e - 1) - 53 - (e - 1)) with (d + e - 53 - e) by lia.
    destruct (d + e - 53 - e) as [|n|n]; cbn; f_equal; lia.
Qed.

(** *** Digits *)

Lemma digits2_pos_size (p : positive) : digits2_pos p = Pos.size p.
Proof. induction p; cbn; congruence. Qed.

Lemma Zdigits2_nonneg (m : Z) : 0 <= Zdigits2 m.
Proof. destruct m; cbn; lia. Qed.

Lemma Zdigits2_gt (m : Z) : 0 <= m -> m < 2 ^ Zdigits2 m.
Proof.
  destruct m as [|p|p]; intros Hm; [reflexivity| |lia].
  cbn [Zdigits2]. rewrite digits2_pos_size.
  pose proof (Pos.size_gt p) as H. apply Pos2Z.pos_lt_pos in H.
  rewrite Pos2Z.inj_pow in H. exact H.
Qed.

Lemma Zdigits2_le (m d : Z) : 0 <= m -> 0 <= d -> m < 2 ^ d -> Zdigits2 m <= d.
Proof.
  destruct m as [|p|p]; intros Hm Hd Hlt; [cbn; lia| |lia].
  cbn [Zdigits2]. rewrite digits2_pos_size.
  pose proof (Pos.size_le p) as H. apply Pos2Z.pos_le_pos in H.
  rewrite Pos2Z.inj_pow in H. change (Z.pos p~0) with (2 * Z.pos p) in H.
  destruct (Z_lt_le_dec d (Z.pos (Pos.size p))) as [Hgt|]; [|lia].
  exfalso.
  assert (2 ^ (d + 1) <= 2 ^ Z.pos (Pos.size p)) by (apply Z.pow_le_mono_r; lia).
  rewrite Z.pow_add_r in * by lia. lia.
Qed.

Lemma Zdigits2_ge (m : Z) : 0 < m -> 2 ^ (Zdigits2 m - 1) <= m.
Proof.
  destruct m as [|p|p]; intros Hm; [lia| |lia].
  cbn [Zdigits2]. rewrite digits2_pos_size.
  pose proof (Pos.size_le p) as H. apply Pos2Z.pos_le_pos in H.
  rewrite Pos2Z.inj_pow in H. change (Z.pos p~0) with (2 * Z.pos p) in H.
  replace (Z.pos (Pos.size p)) with ((Z.pos (Pos.size p) - 1) + 1) in H by lia.
  rewrite Z.pow_add_r in H by lia. lia.
Qed.

(** *** Shifting right *)

Lemma shr_1_bounds (mrs : shr_record) :
  0 <= shr_m mrs -> 0 <= shr_m (shr_1 mrs) /\ 2 * shr_m (shr_1 mrs) <= shr_m mrs.
Proof.
  destruct mrs as [m r s]. cbn [shr_m]. intros Hm.
  destruct m as [|[p|p|]|p]; cbn [shr_1 shr_m]; lia.
Qed.

Lemma iter_shr_1_bounds (n : positive) (mrs : shr_record) :
  0 <= shr_m mrs ->
  0 <= shr_m (SpecFloat.iter_pos shr_1 n mrs)
  /\ 2 ^ Z.pos n * shr_m (SpecFloat.iter_pos shr_1 n mrs) <= shr_m mrs.
Proof.
  revert mrs. induction n as [n IH|n IH|]; intros mrs Hm; cbn [SpecFloat.iter_pos].
  - destruct (shr_1_bounds mrs Hm) as [H0 H1].
    destruct (IH _ H0) as [H2 H3]. destruct (IH _ H2) as [H4 H5].
    split; [exact H4|].
    assert (E : 2 ^ Z.pos n~1 = 2 * (2 ^ Z.pos n * 2 ^ Z.pos n)).
    { replace (Z.pos n~1) with (1 + (Z.pos n + Z.pos n)) by lia.
      rewrite !Z.pow_add_r by lia. reflexivity. }
    rewrite E. assert (0 < 2 ^ Z.pos n) by (apply Z.pow_pos_nonneg; lia).
    set (P := 2 ^ Z.pos n) in *.
    assert (P * (P * shr_m (SpecFloat.iter_pos shr_1 n (SpecFloat.iter_pos shr_1 n (shr_1 mrs))))
            <= P * shr_m (SpecFloat.iter_pos shr_1 n (shr_1 mrs)))
      by (apply Z.mul_le_mono_nonneg_l; lia).
    lia.
  - destruct (IH _ Hm) as [H2 H3]. destruct (IH _ H2) as [H4 H5].
    split; [exact H4|].
    assert (E : 2 ^ Z.pos n~0 = 2 ^ Z.pos n * 2 ^ Z.pos n).
    { replace (Z.pos n~0) with (Z.pos n + Z.pos n) by lia.
      rewrite !Z.pow_add_r by lia. reflexivity. }
    rewrite E. assert (0 < 2 ^ Z.pos n) by (apply Z.pow_pos_nonneg; lia).
    set (P := 2 ^ Z.pos n) in *.
    assert (P * (P * shr_m (SpecFloat.iter_pos shr_1 n (SpecFloat.iter_pos shr_1 n mrs)))
            <= P * shr_m (SpecFloat.iter_pos shr_1 n mrs))
      by (apply Z.mul_le_mono_nonneg_l; lia).
    lia.
  - destruct (shr_1_bounds mrs Hm). change (2 ^ 1) with 2. lia.
Qed.

Lemma shr_bounds (mrs : shr_record) (e n : Z) :
  0 <= shr_m mrs -> 0 <= n ->
  0 <= shr_m (fst (shr mrs e n))
  /\ 2 ^ n * shr_m (fst (shr mrs e n)) <= shr_m mrs.
Proof.
  intros Hm Hn. destruct n as [|n|n]; cbn [shr fst]; [change (2 ^ 0) with 1; lia| |lia].
  apply iter_shr_1_bounds; assumption.
Qed.

Lemma shr_record_of_loc_m (m : Z) (l : location) : shr_m (shr_record_of_loc m l) = m.
Proof. destruct l as [|[]]; reflexivity. Qed.

Lemma round_nearest_even_bounds (m : Z) (l : location) :
  m <= round_nearest_even m l <= m + 1.
Proof. destruct l as [|[]]; cbn; try lia. destruct (Z.even m); lia. Qed.

Lemma shr_fexp_snd (m e : Z) (l : location) :
  snd (shr_fexp prec emax m e l) = Z.max e (fexp prec emax (Zdigits2 m + e)).
Proof.
  unfold shr_fexp. destruct (fexp prec emax (Zdigits2 m + e) - e) as [|n|n] eqn:E; cbn; lia.
Qed.

(** *** Rounding at an exponent one lower *)

Lemma binary_round_aux_dec (sx : bool) (m e : Z) (l : location)
    (sr : bool) (mr : positive) (er : Z) :
  0 <= m ->
  binary_round_aux prec emax sx m e l = S754_finite sr mr er ->
  -1072 <= er ->
  binary_round_aux prec emax sx m (e - 1) l = S754_finite sr mr (er - 1).
Proof.
  intros Hm. unfold binary_round_aux.
  destruct (shr_fexp_dec m e l) as [H1|(H1 & He & Hd)].
  - rewrite H1. destruct (shr_fexp prec emax m e l) as [mrs1 e1]. cbn [fst snd].
    set (m1 := round_nearest_even (shr_m mrs1) (loc_of_shr_record mrs1)).
    destruct (shr_fexp_dec m1 e1 loc_Exact) as [H2|(H2 & _)].
    + rewrite H2. destruct (shr_fexp prec emax m1 e1 loc_Exact) as [mrs2 e2].
      cbn [fst snd]. destruct (shr_m mrs2); try discriminate.
      destruct (Z.leb_spec e2 (emax - prec)); try discriminate.
      intros [= -> -> ->] Her.
      destruct (Z.leb_spec (er - 1) (emax - prec)); [reflexivity|lia].
    + destruct (shr_fexp prec emax m1 e1 loc_Exact) as [mrs2 e2].
      cbn [snd] in H2. subst e2. destruct (shr_m mrs2); try discriminate.
      destruct (_ <=? _); try discriminate. intros [= _ _ <-]. lia.
  - pose proof (shr_fexp_snd m e l) as Hsnd.
    assert (Hsm : 0 <= shr_m (fst (shr_fexp prec emax m e l)) < 2 ^ 53).
    { unfold shr_fexp. rewrite fexp_eq, Z.max_r by lia.
      destruct (shr_bounds (shr_record_of_loc m l) e (-1074 - e)) as [B0 B1];
        [rewrite shr_record_of_loc_m; lia|lia|].
      rewrite shr_record_of_loc_m in B1. split; [exact B0|].
      pose proof (Zdigits2_gt m Hm) as Hg. pose proof (Zdigits2_nonneg m) as Hn.
      assert (2 ^ Zdigits2 m <= 2 ^ (53 + (-1074 - e))) by (apply Z.pow_le_mono_r; lia).
      rewrite Z.pow_add_r in * by lia.
      assert (0 < 2 ^ (-1074 - e)) by (apply Z.pow_pos_nonneg; lia).
      nia. }
    destruct (shr_fexp prec emax m e l) as [mrs1 e1]. cbn [fst snd] in *. subst e1.
    set (m1 := round_nearest_even (shr_m mrs1) (loc_of_shr_record mrs1)).
    pose proof (round_nearest_even_bounds (shr_m mrs1) (loc_of_shr_record mrs1)) as Hr.
    fold m1 in Hr.
    assert (Hd1 : Zdigits2 m1 <= 54).
    { apply Zdigits2_le; [lia|lia|]. change (2 ^ 54) with (2 * 2 ^ 53). lia. }
    pose proof (shr_fexp_snd m1 (-1074) loc_Exact) as Hsnd2.
    rewrite fexp_eq in Hsnd2.
    destruct (shr_fexp prec emax m1 (-1074) loc_Exact) as [mrs2 e2]. cbn [snd] in Hsnd2.
    destruct (shr_m mrs2); try discriminate.
    destruct (_ <=? _); try discriminate. intros [= _ _ <-]. lia.
Qed.

(** A value this small rounds to an exponent of at most -1072. *)
Lemma binary_round_aux_small (sx : bool) (m e : Z) (l : location)
    (sr : bool) (mr : positive) (er : Z) :
  0 <= m -> e <= -1074 -> Zdigits2 m + e <= -1020 ->
  binary_round_aux prec emax sx m e l = S754_finite sr mr er ->
  er <= -1072.
Proof.
  intros Hm He Hd. unfold binary_round_aux.
  pose proof (shr_fexp_snd m e l) as Hsnd. rewrite fexp_eq in Hsnd.
  assert (Hsm : 0 <= shr_m (fst (shr_fexp prec emax m e l))
                /\ 2 ^ (snd (shr_fexp prec emax m e l) - e)
                   * shr_m (fst (shr_fexp prec emax m e l)) <= m).
  { rewrite Hsnd. unfold shr_fexp. rewrite fexp_eq.
    replace (Z.max e (Z.max (Zdigits2 m + e - 53) (-1074)) - e)
      with (Z.max (Zdigits2 m + e - 53) (-1074) - e) by lia.
    destruct (shr_bounds (shr_record_of_loc m l) e
                (Z.max (Zdigits2 m + e - 53) (-1074) - e)) as [B0 B1];
      [rewrite shr_record_of_loc_m; lia|lia|].
    rewrite shr_record_of_loc_m in B1. split; assumption. }
  destruct (shr_fexp prec emax m e l) as [mrs1 e1]. cbn [fst snd] in *.
  set (m1 := round_nearest_even (shr_m mrs1) (loc_of_shr_record mrs1)).
  pose proof (round_nearest_even_bounds (shr_m mrs1) (loc_of_shr_record mrs1)) as Hr.
  fold m1 in Hr. destruct Hsm as [Hs0 Hs1].
  assert (Hd1 : Zdigits2 m1 <= -1019 - e1).
  { apply Zdigits2_le; [lia|lia|].
    pose proof (Zdigits2_gt m Hm) as Hg. pose proof (Zdigits2_nonneg m) as Hn.
    assert (2 ^ Zdigits2 m <= 2 ^ ((-1020 - e1) + (e1 - e))) by (apply Z.pow_le_mono_r; lia).
    rewrite Z.pow_add_r in * by lia.
    assert (0 < 2 ^ (e1 - e)) by (apply Z.pow_pos_nonneg; lia).
    assert (shr_m mrs1 < 2 ^ (-1020 - e1)) by nia.
    replace (-1019 - e1) with (1 + (-1020 - e1)) by lia.
    rewrite Z.pow_add_r by lia. change (2 ^ 1) with 2. lia. }
  pose proof (shr_fexp_snd m1 e1 loc_Exact) as Hsnd2. rewrite fexp_eq in Hsnd2.
  destruct (shr_fexp prec emax m1 e1 loc_Exact) as [mrs2 e2]. cbn [snd] in Hsnd2.
  destruct (shr_m mrs2); try discriminate.
  destruct (_ <=? _); try discriminate. intros [= _ _ <-]. lia.
Qed.

(** *** Division by a divisor of the next exponent *)

Lemma div_eucl_digits (m1 m2 s : Z) :
  0 <= m1 -> 0 < m2 -> 0 <= s ->
  0 <= fst (Z.div_eucl (m1 * 2 ^ s) m2)
  /\ Zdigits2 (fst (Z.div_eucl (m1 * 2 ^ s) m2))
     <= Z.max 0 (Zdigits2 m1 + s - Zdigits2 m2 + 1).
Proof.
  intros H1 H2 Hs. change (fst (Z.div_eucl ?a ?b)) with (a / b).
  assert (0 < 2 ^ s) by (apply Z.pow_pos_nonneg; lia).
  set (q := m1 * 2 ^ s / m2).
  assert (Hq0 : 0 <= q) by (apply Z.div_pos; nia).
  split; [exact Hq0|].
  assert (Hqm : q * m2 <= m1 * 2 ^ s) by (unfold q; rewrite Z.mul_comm; apply Z.mul_div_le; lia).
  pose proof (Zdigits2_gt m1 H1) as Hg1. pose proof (Zdigits2_ge m2 H2) as Hg2.
  pose proof (Zdigits2_nonneg m1). pose proof (Zdigits2_nonneg m2).
  assert (0 < Zdigits2 m2) by (destruct m2; cbn; lia).
  assert (0 < 2 ^ (Zdigits2 m2 - 1)) by (apply Z.pow_pos_nonneg; lia).
  assert (Hlt : q * 2 ^ (Zdigits2 m2 - 1) < 2 ^ (Zdigits2 m1 + s)).
  { rewrite Z.pow_add_r by lia. nia. }
  destruct (Z_lt_le_dec (Zdigits2 m1 + s - Zdigits2 m2 + 1) 0) as [Hneg|Hpos].
  - assert (2 ^ (Zdigits2 m1 + s) <= 2 ^ (Zdigits2 m2 - 1)) by (apply Z.pow_le_mono_r; lia).
    assert (Hz : q = 0) by nia. rewrite Hz. cbn. lia.
  - rewrite Z.max_r by lia. apply Zdigits2_le; [lia|lia|].
    replace (Zdigits2 m1 + s) with ((Zdigits2 m1 + s - Zdigits2 m2 + 1) + (Zdigits2 m2 - 1))
      in Hlt by lia.
    rewrite Z.pow_add_r in Hlt by lia. nia.
Qed.

Lemma SFdiv_core_binary_eq (m1 e1 m2 e2 : Z) :
  let e' := JS.div_exponent m1 e1 m2 e2 in
  let qr := Z.div_eucl (m1 * 2 ^ (e1 - e2 - e')) m2 in
  SFdiv_core_binary prec emax m1 e1 m2 e2 = (fst qr, e', new_location m2 (snd qr)).
Proof.
  cbv zeta. unfold SFdiv_core_binary. fold (JS.div_exponent m1 e1 m2 e2).
  set (e' := JS.div_exponent m1 e1 m2 e2).
  assert (Hs : 0 <= e1 - e2 - e') by (unfold e', JS.div_exponent; lia).
  replace (match e1 - e2 - e' with
           | 0 => m1
           | Z.pos _ => Z.shiftl m1 (e1 - e2 - e')
           | Z.neg _ => 0
           end) with (m1 * 2 ^ (e1 - e2 - e')).
  - destruct (Z.div_eucl _ _). reflexivity.
  - destruct (e1 - e2 - e') as [|p|p] eqn:E.
    + change (2 ^ 0) with 1. lia.
    + rewrite Z.shiftl_mul_pow2 by lia. reflexivity.
    + lia.
Qed.

Lemma SFdiv_finite_dec (sx : bool) (mx : positive) (ex : Z) (sy : bool) (my : positive)
    (ey : Z) (sr : bool) (mr : positive) (er : Z) :
  SFdiv prec emax (S754_finite sx mx ex) (S754_finite sy my ey) = S754_finite sr mr er ->
  -1071 <= er ->
  SFdiv prec emax (S754_finite sx mx ex) (S754_finite sy my (ey + 1))
  = S754_finite sr mr (er - 1).
Proof.
  cbn [SFdiv]. rewrite !SFdiv_core_binary_eq.
  set (k := Zdigits2 (Z.pos mx) + ex - (Zdigits2 (Z.pos my) + ey)).
  assert (He' : JS.div_exponent (Z.pos mx) ex (Z.pos my) ey
                = Z.min (Z.max (k - 53) (-1074)) (ex - ey)) by reflexivity.
  assert (He1 : JS.div_exponent (Z.pos mx) ex (Z.pos my) (ey + 1)
                = Z.min (Z.max (k - 1 - 53) (-1074)) (ex - ey - 1)).
  { unfold JS.div_exponent. rewrite fexp_eq. unfold k. f_equal; [f_equal|]; lia. }
  set (e' := JS.div_exponent (Z.pos mx) ex (Z.pos my) ey) in *.
  assert (Hs : 0 <= ex - ey - e') by lia.
  destruct (div_eucl_digits (Z.pos mx) (Z.pos my) (ex - ey - e')) as [Hq0 Hqd];
    [lia|lia|lia|].
  destruct (Z_le_gt_dec (k - 53) (-1074)) as [Hflat|Hlin].
  - intros Hdiv Her. exfalso.
    apply binary_round_aux_small in Hdiv; [lia|exact Hq0|lia|].
    fold k in Hqd. unfold k in *. lia.
  - rewrite He1.
    replace (Z.min (Z.max (k - 1 - 53) (-1074)) (ex - ey - 1)) with (e' - 1) by lia.
    replace (ex - (ey + 1) - (e' - 1)) with (ex - ey - e') by lia.
    intros Hdiv Her. apply binary_round_aux_dec; [exact Hq0|exact Hdiv|lia].
Qed.

(** *** Doubling and halving a normal number *)

Local Open Scope float_scope.

Lemma Prim2SF_two : Prim2SF 2 = S754_finite false 4503599627370496 (-51).
Proof. reflexivity. Qed.

(** A canonical mantissa above the least exponent has 53 digits. *)
Lemma canonical_normal (s : bool) (m : positive) (e : Z) :
  valid_binary (S754_finite s m e) = true -> (-1074 < e)%Z ->
  Z.pos (digits2_pos m) = 53%Z.
Proof.
  cbn [SpecFloat.valid_binary]. unfold bounded, canonical_mantissa.
  rewrite andb_true_iff, Z.eqb_eq, fexp_eq. lia.
Qed.

Lemma canonical_digits_le (s : bool) (m : positive) (e : Z) :
  valid_binary (S754_finite s m e) = true ->
  (Z.pos (digits2_pos m) <= 53 /\ -1074 <= e <= 971)%Z.
Proof.
  cbn [SpecFloat.valid_binary]. unfold bounded, canonical_mantissa.
  rewrite andb_true_iff, Z.eqb_eq, Z.leb_le, fexp_eq.
  change (emax - prec)%Z with 971%Z. lia.
Qed.

Lemma SFmul_two (s : bool) (m : positive) (e : Z) :
  Z.pos (digits2_pos m) = 53%Z -> (-1074 <= e <= 970)%Z ->
  SFmul prec emax (S754_finite false 4503599627370496 (-51)) (S754_finite s m e)
  = S754_finite s m (e + 1).
Proof.
  intros Hd He. cbn [SFmul xorb]. unfold binary_round_aux, shr_fexp.
  rewrite !fexp_eq.
  change (Zdigits2 (Z.pos (4503599627370496 * m)))
    with (Z.pos (Pos.iter Pos.succ (digits2_pos m) 52)).
  replace (Z.pos (Pos.iter Pos.succ (digits2_pos m) 52))
    with (Z.pos (digits2_pos m) + 52)%Z.
  2: { cbv [Pos.iter]. rewrite !Pos2Z.inj_succ. lia. }
  rewrite Hd.
  replace (Z.max (53 + 52 + (-51 + e) - 53) (-1074) - (-51 + e))%Z with 52%Z by lia.
  cbn [shr shr_record_of_loc SpecFloat.iter_pos shr_1 Pos.mul shr_m shr_r shr_s orb
       loc_of_shr_record round_nearest_even fst snd].
  cbn [Zdigits2]. rewrite Hd, fexp_eq.
  replace (Z.max (53 + (-51 + e + 52) - 53) (-1074) - (-51 + e + 52))%Z with 0%Z by lia.
  cbn [shr shr_record_of_loc shr_m].
  destruct (Z.leb_spec (-51 + e + 52) (emax - prec)) as [_|Hgt].
  - f_equal. lia.
  - change (emax - prec)%Z with 971%Z in Hgt. lia.
Qed.

Lemma div_eucl_exact (a q : Z) :
  (a = 4503599627370496 * q)%Z ->
  Z.div_eucl a 4503599627370496 = (q, 0%Z).
Proof.
  intros ->. pose proof (Z.div_eucl_eq (4503599627370496 * q) 4503599627370496) as E.
  pose proof (Z.mod_pos_bound (4503599627370496 * q) 4503599627370496) as B.
  unfold Z.modulo in B.
  destruct (Z.div_eucl (4503599627370496 * q) 4503599627370496) as [q' r'].
  specialize (E ltac:(lia)). specialize (B ltac:(lia)). f_equal; lia.
Qed.

Lemma SFdiv_two (s : bool) (m : positive) (e : Z) :
  Z.pos (digits2_pos m) = 53%Z -> (-1072 <= e <= 971)%Z ->
  SFdiv prec emax (S754_finite s m e) (S754_finite false 4503599627370496 (-51))
  = S754_finite s m (e - 1).
Proof.
  intros Hd He. cbn [SFdiv]. rewrite SFdiv_core_binary_eq.
  assert (Hde : JS.div_exponent (Z.pos m) e 4503599627370496 (-51) = (e - 2)%Z).
  { unfold JS.div_exponent. rewrite fexp_eq. cbn [Zdigits2]. rewrite Hd.
    change (Z.pos (digits2_pos 4503599627370496)) with 53%Z. lia. }
  rewrite Hde.
  replace (e - -51 - (e - 2))%Z with 53%Z by lia.
  rewrite (div_eucl_exact _ (Z.pos m~0)).
  2: { change (2 ^ 53)%Z with (4503599627370496 * 2)%Z. lia. }
  cbn [fst snd]. change (new_location 4503599627370496 0) with loc_Exact.
  unfold binary_round_aux, shr_fexp. rewrite fexp_eq.
  cbn [Zdigits2 digits2_pos]. rewrite Pos2Z.inj_succ, Hd.
  replace (Z.max (Z.succ 53 + (e - 2) - 53) (-1074) - (e - 2))%Z with 1%Z by lia.
  cbn [shr shr_record_of_loc SpecFloat.iter_pos shr_1 shr_m shr_r shr_s orb
       loc_of_shr_record round_nearest_even fst snd].
  cbn [Zdigits2]. rewrite Hd, fexp_eq.
  replace (Z.max (53 + (e - 2 + 1) - 53) (-1074) - (e - 2 + 1))%Z with 0%Z by lia.
  cbn [shr shr_record_of_loc shr_m].
  destruct (Z.leb_spec (e - 2 + 1) (emax - prec)) as [_|Hgt].
  - rewrite xorb_false_r. f_equal. lia.
  - change (emax - prec)%Z with 971%Z in Hgt. lia.
Qed.

(** *** Magnitudes *)

Lemma SFleb_finite (m1 : positive) (e1 : Z) (m2 : positive) (e2 : Z) :
  SFleb (S754_finite false m1 e1) (S754_finite false m2 e2) = true ->
  (e1 < e2 \/ (e1 = e2 /\ Z.pos m1 <= Z.pos m2))%Z.
Proof.
  unfold SFleb, SFcompare.
  destruct (Z.compare_spec e1 e2) as [->| |]; try discriminate; [|lia].
  change (Pos.compare_cont Eq m1 m2) with (Pos.compare m1 m2).
  destruct (Pos.compare_spec m1 m2) as [->| |]; try discriminate; lia.
Qed.

(** A number whose magnitude lies between two positive finite numbers is
    finite, with an exponent between theirs. *)
Lemma magnitude_between_finite (lo hi x : float) (mlo : positive) (elo : Z)
    (mhi : positive) (ehi : Z) :
  Prim2SF lo = S754_finite false mlo elo ->
  Prim2SF hi = S754_finite false mhi ehi ->
  JS.magnitude_between lo hi x = true ->
  exists s m e,
    Prim2SF x = S754_finite s m e
    /\ (elo < e \/ (elo = e /\ Z.pos mlo <= Z.pos m))%Z
    /\ (e <= ehi)%Z.
Proof.
  intros Hlo Hhi. unfold JS.magnitude_between.
  rewrite andb_true_iff, !leb_spec, abs_spec, Hlo, Hhi.
  destruct (Prim2SF x) as [s|s| |s m e]; cbn [SFabs]; intros [H1 H2];
    try discriminate.
  apply SFleb_finite in H1. apply SFleb_finite in H2.
  exists s, m, e. split; [reflexivity|]. split; lia.
Qed.

Lemma normal_of_magnitude (z : float) (s : bool) (m : positive) (e : Z) :
  Prim2SF z = S754_finite s m e ->
  (-1074 < e \/ (-1074 = e /\ 4503599627370496 <= Z.pos m))%Z ->
  Z.pos (digits2_pos m) = 53%Z.
Proof.
  intros Hz Hm. pose proof (Prim2SF_valid z) as Hv. rewrite Hz in Hv.
  destruct Hm as [He|[<- Hm]].
  - exact (canonical_normal _ _ _ Hv He).
  - destruct (canonical_digits_le _ _ _ Hv) as [Hle _].
    pose proof (Zdigits2_gt (Z.pos m) ltac:(lia)) as Hg. cbn [Zdigits2] in Hg.
    destruct (Z_lt_le_dec (Z.pos (digits2_pos m)) 53) as [Hlt|]; [exfalso|lia].
    assert (2 ^ Z.pos (digits2_pos m) <= 2 ^ 52)%Z by (apply Z.pow_le_mono_r; lia).
    change (2 ^ 52)%Z with 4503599627370496%Z in *. lia.
Qed.

(** Doubling the divisor halves the quotient, as long as the divisor is
    a normal number that can be doubled and the quotient is finite and at
    least [2^-1019] in magnitude. *)
Lemma div_double (x z : float) :
  JS.magnitude_between 0x1p-1022 0x1p+1022 z = true ->
  JS.magnitude_between 0x1p-1019 0x1.fffffffffffffp+1023 (x / z) = true ->
  x / (2 * z) = x / z / 2.
Proof.
  intros Hz Hq.
  destruct (magnitude_between_finite 0x1p-1022 0x1p+1022 z 4503599627370496 (-1074)
              4503599627370496 970 eq_refl eq_refl Hz)
    as (sz & mz & ez & Ez & Hzlo & Hzhi).
  destruct (magnitude_between_finite 0x1p-1019 0x1.fffffffffffffp+1023 (x / z)
              4503599627370496 (-1071) 9007199254740991 971 eq_refl eq_refl Hq)
    as (sq & mq & exq & Eq & Hqlo & Hqhi).
  pose proof (normal_of_magnitude _ _ _ _ Ez Hzlo) as Hdz.
  assert (Hdq : Z.pos (digits2_pos mq) = 53%Z).
  { apply (normal_of_magnitude _ _ _ _ Eq). lia. }
  apply Prim2SF_inj.
  rewrite (div_spec (x / z) 2), Eq, Prim2SF_two. unfold SF64div.
  rewrite SFdiv_two by (try assumption; lia).
  rewrite (div_spec x (2 * z)), mul_spec, Prim2SF_two, Ez. unfold SF64div, SF64mul.
  rewrite SFmul_two by (try assumption; lia).
  rewrite (div_spec x z), Ez in Eq. unfold SF64div in Eq.
  destruct (Prim2SF x) as [sx|sx| |sx mx ex]; try discriminate.
  apply SFdiv_finite_dec; [exact Eq|lia].
Qed.

(** *** Twice a number *)

Lemma SFmul_finite_comm (s1 : bool) (m1 : positive) (e1 : Z) (s2 : bool) (m2 : positive)
    (e2 : Z) :
  SFmul prec emax (S754_finite s1 m1 e1) (S754_finite s2 m2 e2)
  = SFmul prec emax (S754_finite s2 m2 e2) (S754_finite s1 m1 e1).
Proof.
  cbn [SFmul]. by rewrite xorb_comm, Pos.mul_comm, Z.add_comm.
Qed.

(** Twice a number of the largest binade overflows. *)
Lemma SFmul_two_overflow (s : bool) (m : positive) :
  Z.pos (digits2_pos m) = 53%Z ->
  SFmul prec emax (S754_finite false 4503599627370496 (-51)) (S754_finite s m 971)
  = S754_infinity s.
Proof.
  intros Hd. cbn [SFmul xorb]. unfold binary_round_aux, shr_fexp.
  rewrite !fexp_eq.
  change (Zdigits2 (Z.pos (4503599627370496 * m)))
    with (Z.pos (Pos.iter Pos.succ (digits2_pos m) 52)).
  replace (Z.pos (Pos.iter Pos.succ (digits2_pos m) 52))
    with (Z.pos (digits2_pos m) + 52)%Z.
  2: { cbv [Pos.iter]. rewrite !Pos2Z.inj_succ. lia. }
  rewrite Hd.
  change (Z.max (53 + 52 + (-51 + 971) - 53) (-1074) - (-51 + 971))%Z with 52%Z.
  cbn [shr shr_record_of_loc SpecFloat.iter_pos shr_1 Pos.mul shr_m shr_r shr_s orb
       loc_of_shr_record round_nearest_even fst snd].
  cbn [Zdigits2]. rewrite Hd, fexp_eq.
  change (Z.max (53 + (-51 + 971 + 52) - 53) (-1074) - (-51 + 971 + 52))%Z with 0%Z.
  cbn [shr shr_record_of_loc shr_m]. reflexivity.
Qed.

(** Twice a subnormal number is exact. *)
Lemma SFmul_two_subnormal (s : bool) (m : positive) :
  (Z.pos (digits2_pos m) < 53)%Z ->
  SFmul prec emax (S754_finite false 4503599627370496 (-51)) (S754_finite s m (-1074))
  = S754_finite s m~0 (-1074).
Proof.
  intros Hd. cbn [SFmul xorb]. unfold binary_round_aux, shr_fexp.
  rewrite !fexp_eq.
  change (Zdigits2 (Z.pos (4503599627370496 * m)))
    with (Z.pos (Pos.iter Pos.succ (digits2_pos m) 52)).
  replace (Z.pos (Pos.iter Pos.succ (digits2_pos m) 52))
    with (Z.pos (digits2_pos m) + 52)%Z.
  2: { cbv [Pos.iter]. rewrite !Pos2Z.inj_succ. lia. }
  replace (Z.max (Z.pos (digits2_pos m) + 52 + (-51 + -1074) - 53) (-1074) - (-51 + -1074))%Z
    with 51%Z by lia.
  cbn [shr shr_record_of_loc SpecFloat.iter_pos shr_1 Pos.mul shr_m shr_r shr_s orb
       loc_of_shr_record round_nearest_even fst snd].
  cbn [Zdigits2 digits2_pos]. rewrite Pos2Z.inj_succ, fexp_eq.
  replace (Z.max (Z.succ (Z.pos (digits2_pos m)) + (-51 + -1074 + 51) - 53) (-1074)
           - (-51 + -1074 + 51))%Z with 0%Z by lia.
  cbn [shr shr_record_of_loc shr_m]. reflexivity.
Qed.


(** Truthiness, read off the value of a number. *)
Lemma truthy_SF (x : float) :
  JS.truthy x = match Prim2SF x with
                | S754_zero _ | S754_nan => false
                | _ => true
                end.
Proof.
  unfold JS.truthy, is_zero, is_nan. rewrite !FloatAxioms.eqb_spec.
  change (Prim2SF PrimFloat.zero) with (S754_zero false).
  destruct (Prim2SF x) as [s|s| |s m e]; [by destruct s|by destruct s|done|].
  unfold SFeqb, SFcompare.
  destruct s; by rewrite Z.compare_refl, Pos.compare_cont_refl.
Qed.

(** The value of twice a number: zeros, infinities and [NaN] are kept,
    and twice a finite number other than zero is finite or infinite. *)
Lemma double_SF (x : float) :
  match Prim2SF x with
  | S754_finite s _ _ =>
      (exists m e, Prim2SF (x * 2) = S754_finite s m e)
      \/ Prim2SF (x * 2) = S754_infinity s
  | v => Prim2SF (x * 2) = v
  end.
Proof.
  pose proof (Prim2SF_valid x) as Hvalid.
  rewrite mul_spec, Prim2SF_two. unfold SF64mul.
  destruct (Prim2SF x) as [s|s| |s m e]; [by destruct s|by destruct s|done|].
  rewrite SFmul_finite_comm.
  destruct (canonical_digits_le s m e Hvalid) as [Hd He].
  destruct (Z.eq_dec (Z.pos (digits2_pos m)) 53%Z) as [Hn|Hn].
  - destruct (Z.eq_dec e 971%Z) as [->|He'].
    + right. by apply SFmul_two_overflow.
    + left. exists m, (e + 1)%Z. apply SFmul_two; [done|lia].
  - left. exists m~0%positive, (-1074)%Z.
    assert (e = (-1074)%Z) as ->.
    { revert Hvalid. cbn [SpecFloat.valid_binary]. unfold bounded, canonical_mantissa.
      rewrite andb_true_iff, Z.eqb_eq, fexp_eq. lia. }
    apply SFmul_two_subnormal. lia.
Qed.

Lemma truthy_double (x : float) : JS.truthy (x * 2) = JS.truthy x.
Proof.
  rewrite !truthy_SF. pose proof (double_SF x) as Hx.
  destruct (Prim2SF x) as [s|s| |s m e].
  - by rewrite Hx.
  - by rewrite Hx.
  - by rewrite Hx.
  - by destruct Hx as [(m' & e' & ->)| ->].
Qed.
End Binary64Division.

(** ** Binary64 division by one, and halves *)

Section Binary64Units.
Local Open Scope Z_scope.
Local Arguments Pos.mul : simpl nomatch.

Lemma Prim2SF_one : Prim2SF 1%float = S754_finite false 4503599627370496 (-52).
Proof. reflexivity. Qed.

(** A canonical mantissa that needs no rounding. *)
Lemma binary_round_aux_exact (s : bool) (m : positive) (e : Z) :
  valid_binary (S754_finite s m e) = true ->
  binary_round_aux prec emax s (Z.pos m) e loc_Exact = S754_finite s m e.
Proof.
  intros Hv. pose proof Hv as Hc. revert Hc.
  cbn [SpecFloat.valid_binary]. unfold bounded, canonical_mantissa.
  rewrite andb_true_iff, Z.eqb_eq, Z.leb_le, fexp_eq. intros [Hc He].
  unfold binary_round_aux, shr_fexp. rewrite fexp_eq. cbn [Zdigits2].
  rewrite Hc, Z.sub_diag.
  cbn [shr shr_record_of_loc shr_m shr_r shr_s loc_of_shr_record round_nearest_even
       fst snd].
  cbn [Zdigits2]. rewrite fexp_eq, Hc, Z.sub_diag. cbn [shr shr_record_of_loc shr_m].
  destruct (Z.leb_spec e (emax - prec)); [reflexivity|lia].
Qed.

(** A mantissa of 54 digits whose last is zero. *)
Lemma binary_round_aux_even (s : bool) (m : positive) (e : Z) :
  Z.pos (digits2_pos m) = 53 -> -1074 <= e <= 971 ->
  binary_round_aux prec emax s (Z.pos m~0) (e - 1) loc_Exact = S754_finite s m e.
Proof.
  intros Hd He.
  unfold binary_round_aux, shr_fexp. rewrite fexp_eq.
  cbn [Zdigits2 digits2_pos]. rewrite Pos2Z.inj_succ, Hd.
  replace (Z.max (Z.succ 53 + (e - 1) - 53) (-1074) - (e - 1))%Z with 1%Z by lia.
  cbn [shr shr_record_of_loc SpecFloat.iter_pos shr_1 shr_m shr_r shr_s orb
       loc_of_shr_record round_nearest_even fst snd].
  cbn [Zdigits2]. rewrite Hd, fexp_eq.
  replace (Z.max (53 + (e - 1 + 1) - 53) (-1074) - (e - 1 + 1))%Z with 0%Z by lia.
  cbn [shr shr_record_of_loc shr_m].
  destruct (Z.leb_spec (e - 1 + 1) (emax - prec)) as [_|Hgt].
  - f_equal. lia.
  - change (emax - prec)%Z with 971%Z in Hgt. lia.
Qed.

Lemma SFdiv_one (s : bool) (m : positive) (e : Z) :
  valid_binary (S754_finite s m e) = true ->
  SFdiv prec emax (S754_finite s m e) (S754_finite false 4503599627370496 (-52))
  = S754_finite s m e.
Proof.
  intros Hv. destruct (canonical_digits_le s m e Hv) as [Hd He].
  cbn [SFdiv]. rewrite SFdiv_core_binary_eq, xorb_false_r.
  destruct (Z_lt_le_dec (-1074) e) as [Hn|Hl].
  - pose proof (canonical_normal s m e Hv Hn) as Hd53.
    assert (Hde : JS.div_exponent (Z.pos m) e 4503599627370496 (-52) = (e - 1)%Z).
    { unfold JS.div_exponent. rewrite fexp_eq. cbn [Zdigits2]. rewrite Hd53.
      change (Z.pos (digits2_pos 4503599627370496)) with 53%Z. lia. }
    rewrite Hde. replace (e - -52 - (e - 1))%Z with 53%Z by lia.
    rewrite (div_eucl_exact _ (Z.pos m~0)).
    2: { change (2 ^ 53)%Z with (4503599627370496 * 2)%Z. lia. }
    cbn [fst snd]. change (new_location 4503599627370496 0) with loc_Exact.
    apply binary_round_aux_even; [done|lia].
  - assert (e = -1074) as -> by lia.
    assert (Hde : JS.div_exponent (Z.pos m) (-1074) 4503599627370496 (-52) = (-1074)%Z).
    { unfold JS.div_exponent. rewrite fexp_eq. cbn [Zdigits2].
      change (Z.pos (digits2_pos 4503599627370496)) with 53%Z. lia. }
    rewrite Hde. change (-1074 - -52 - -1074)%Z with 52%Z.
    rewrite (div_eucl_exact _ (Z.pos m)).
    2: { change (2 ^ 52)%Z with 4503599627370496%Z. lia. }
    cbn [fst snd]. change (new_location 4503599627370496 0) with loc_Exact.
    by apply binary_round_aux_exact.
Qed.

Lemma Prim2SF_half : Prim2SF 0.5%float = S754_finite false 4503599627370496 (-53).
Proof. reflexivity. Qed.

(** Half a normal number above the least binade is exact. *)
Lemma SFmul_half (s : bool) (m : positive) (e : Z) :
  Z.pos (digits2_pos m) = 53 -> -1073 <= e <= 971 ->
  SFmul prec emax (S754_finite s m e) (S754_finite false 4503599627370496 (-53))
  = S754_finite s m (e - 1).
Proof.
  intros Hd He. rewrite SFmul_finite_comm.
  cbn [SFmul xorb]. unfold binary_round_aux, shr_fexp.
  rewrite !fexp_eq.
  change (Zdigits2 (Z.pos (4503599627370496 * m)))
    with (Z.pos (Pos.iter Pos.succ (digits2_pos m) 52)).
  replace (Z.pos (Pos.iter Pos.succ (digits2_pos m) 52))
    with (Z.pos (digits2_pos m) + 52)%Z.
  2: { cbv [Pos.iter]. rewrite !Pos2Z.inj_succ. lia. }
  rewrite Hd.
  replace (Z.max (53 + 52 + (-53 + e) - 53) (-1074) - (-53 + e))%Z with 52%Z by lia.
  cbn [shr shr_record_of_loc SpecFloat.iter_pos shr_1 Pos.mul shr_m shr_r shr_s orb
       loc_of_shr_record round_nearest_even fst snd].
  cbn [Zdigits2]. rewrite Hd, fexp_eq.
  replace (Z.max (53 + (-53 + e + 52) - 53) (-1074) - (-53 + e + 52))%Z with 0%Z by lia.
  cbn [shr shr_record_of_loc shr_m].
  destruct (Z.leb_spec (-53 + e + 52) (emax - prec)) as [_|Hgt].
  - f_equal. lia.
  - change (emax - prec)%Z with 971%Z in Hgt. lia.
Qed.

Lemma div_eucl_multiple (m k : Z) : 0 < m -> Z.div_eucl (m * k) m = (k, 0).
Proof.
  intros Hm. pose proof (Z.div_eucl_eq (m * k) m ltac:(lia)) as E.
  pose proof (Z.mod_pos_bound (m * k) m Hm) as B. unfold Z.modulo in B.
  destruct (Z.div_eucl (m * k) m) as [q r].
  assert (q = k) by nia. subst q. f_equal. lia.
Qed.

(** A normal number into its half gives a half. *)
Lemma SFdiv_half_self (s : bool) (m : positive) (e : Z) :
  Z.pos (digits2_pos m) = 53 ->
  SFdiv prec emax (S754_finite s m (e - 1)) (S754_finite s m e)
  = S754_finite false 4503599627370496 (-53).
Proof.
  intros Hd. cbn [SFdiv]. rewrite SFdiv_core_binary_eq, xorb_nilpotent.
  assert (Hde : JS.div_exponent (Z.pos m) (e - 1) (Z.pos m) e = (-54)%Z).
  { unfold JS.div_exponent. rewrite fexp_eq. cbn [Zdigits2]. rewrite Hd. lia. }
  rewrite Hde. replace (e - 1 - e - -54)%Z with 53%Z by lia.
  rewrite div_eucl_multiple by lia. cbn [fst snd].
  assert (Hloc : new_location (Z.pos m) 0 = loc_Exact).
  { unfold new_location. by destruct (Z.even (Z.pos m)). }
  rewrite Hloc. reflexivity.
Qed.

Local Open Scope float_scope.

(** Division by 1 is exact, for every number. *)
Lemma div_one (x : float) : x / 1 = x.
Proof.
  apply Prim2SF_inj. rewrite div_spec, Prim2SF_one. unfold SF64div.
  pose proof (Prim2SF_valid x) as Hv.
  destruct (Prim2SF x) as [s|s| |s m e]; [by destruct s|by destruct s|done|].
  by apply SFdiv_one.
Qed.

(** Half a number, over the number, is a half or falsy: a half for every
    number of magnitude [2^-1021] or more, and [NaN] for the zeros, the
    infinities and [NaN]. *)
Lemma half_ratio (x : float) :
  (0x1p-1021 <=? abs x) = true \/ JS.truthy x = false ->
  JS.or_else (x * 0.5 / x) 0.5 = 0.5.
Proof.
  intros Hx.
  assert (Hcases : Prim2SF (x * 0.5 / x) = S754_nan \/ x * 0.5 / x = 0.5).
  { rewrite truthy_SF, leb_spec, abs_spec in Hx.
    change (Prim2SF 0x1p-1021) with (S754_finite false 4503599627370496 (-1073)) in Hx.
    rewrite div_spec, mul_spec, Prim2SF_half. unfold SF64div, SF64mul.
    pose proof (Prim2SF_valid x) as Hv.
    destruct (Prim2SF x) as [s|s| |s m e] eqn:E; [left; by destruct s|left; by destruct s|
                                                  by left|].
    right. destruct Hx as [Hx|Hx]; [|done]. cbn [SFabs] in Hx.
    apply SFleb_finite in Hx.
    assert (Hd : Z.pos (digits2_pos m) = 53%Z).
    { apply (normal_of_magnitude x s m e E). lia. }
    destruct (canonical_digits_le s m e Hv) as [_ He].
    apply Prim2SF_inj. rewrite div_spec, mul_spec, Prim2SF_half, E.
    unfold SF64div, SF64mul. rewrite SFmul_half by (done || lia).
    by apply SFdiv_half_self. }
  destruct Hcases as [Hnan| ->].
  - apply or_else_falsy. by rewrite truthy_SF, Hnan.
  - unfold JS.or_else. by destruct (JS.truthy 0.5).
Qed.

(** Doubling the divisor of a zero halves the quotient, which stays
    what it was: a zero of the same sign, or [NaN] for the divisors 0
    and [NaN]. *)
Lemma double_comm (z : float) : 2 * z = z * 2.
Proof.
  apply Prim2SF_inj. rewrite !mul_spec, Prim2SF_two. unfold SF64mul.
  destruct (Prim2SF z) as [s|s| |s m e]; [by destruct s|by destruct s|done|].
  apply SFmul_finite_comm.
Qed.

Lemma zero_div_double (x z : float) :
  is_zero x = true -> x / (2 * z) = x / z / 2.
Proof.
  intros [s E]%is_zero_inv. rewrite double_comm. apply Prim2SF_inj.
  rewrite (div_spec (x / z) 2), !(div_spec x), E, Prim2SF_two.
  pose proof (double_SF z) as Hz. unfold SF64div.
  destruct (Prim2SF z) as [t|t| |t m e].
  - rewrite Hz. reflexivity.
  - rewrite Hz. cbn. by destruct s, t.
  - rewrite Hz. reflexivity.
  - destruct Hz as [(m' & e' & ->)| ->]; cbn; by destruct s, t.
Qed.

(** A zero over a divisor is a zero exactly for the divisors other
    than 0 and [NaN]. *)
Lemma zero_div_is_zero (x z : float) :
  is_zero x = true -> is_zero (x / z) = JS.truthy z.
Proof.
  intros [s E]%is_zero_inv. rewrite truthy_SF.
  assert (Hq : Prim2SF (x / z) = SFdiv prec emax (S754_zero s) (Prim2SF z)).
  { by rewrite div_spec, E. }
  destruct (Prim2SF z) as [t|t| |t m e]; cbn [SFdiv] in Hq.
  - destruct (is_zero (x / z)) eqn:Hzero; [|done].
    apply is_zero_inv in Hzero as [u Hu]. congruence.
  - by apply (is_zero_of_SF _ _ Hq).
  - destruct (is_zero (x / z)) eqn:Hzero; [|done].
    apply is_zero_inv in Hzero as [u Hu]. congruence.
  - by apply (is_zero_of_SF _ _ Hq).
Qed.
End Binary64Units.

(** ** Binary64 rounding: what the contrast factor keeps *)

Section Binary64Rounding.
Local Open Scope Z_scope.
Local Arguments Pos.mul : simpl nomatch.

(** *** What a shift to the right leaves out *)

Lemma shr_1_upper (mrs : shr_record) :
  0 <= shr_m mrs -> shr_m mrs <= 2 * shr_m (shr_1 mrs) + 1.
Proof.
  destruct mrs as [m r s]. cbn [shr_m]. intros Hm.
  destruct m as [|[p|p|]|p]; cbn [shr_1 shr_m]; lia.
Qed.

Lemma iter_shr_1_upper (n : positive) (mrs : shr_record) :
  0 <= shr_m mrs ->
  shr_m mrs < 2 ^ Z.pos n * (shr_m (SpecFloat.iter_pos shr_1 n mrs) + 1).
Proof.
  revert mrs. induction n as [n IH|n IH|]; intros mrs Hm; cbn [SpecFloat.iter_pos].
  - pose proof (shr_1_upper mrs Hm) as H1.
    destruct (shr_1_bounds mrs Hm) as [H0 _].
    pose proof (IH _ H0) as H2.
    destruct (iter_shr_1_bounds n _ H0) as [H3 _].
    pose proof (IH _ H3) as H4.
    assert (E : 2 ^ Z.pos n~1 = 2 * (2 ^ Z.pos n * 2 ^ Z.pos n)).
    { replace (Z.pos n~1) with (1 + (Z.pos n + Z.pos n)) by lia.
      rewrite !Z.pow_add_r by lia. reflexivity. }
    rewrite E. assert (0 < 2 ^ Z.pos n) by (apply Z.pow_pos_nonneg; lia).
    set (P := 2 ^ Z.pos n) in *.
    set (a := shr_m (SpecFloat.iter_pos shr_1 n (shr_1 mrs))) in *.
    set (b := shr_m (SpecFloat.iter_pos shr_1 n (SpecFloat.iter_pos shr_1 n (shr_1 mrs)))) in *.
    assert (a + 1 <= P * (b + 1)) by lia.
    assert (P * (a + 1) <= P * (P * (b + 1))) by (apply Z.mul_le_mono_nonneg_l; lia).
    lia.
  - pose proof (IH _ Hm) as H2.
    destruct (iter_shr_1_bounds n _ Hm) as [H3 _].
    pose proof (IH _ H3) as H4.
    assert (E : 2 ^ Z.pos n~0 = 2 ^ Z.pos n * 2 ^ Z.pos n).
    { replace (Z.pos n~0) with (Z.pos n + Z.pos n) by lia.
      rewrite !Z.pow_add_r by lia. reflexivity. }
    rewrite E. assert (0 < 2 ^ Z.pos n) by (apply Z.pow_pos_nonneg; lia).
    set (P := 2 ^ Z.pos n) in *.
    set (a := shr_m (SpecFloat.iter_pos shr_1 n mrs)) in *.
    set (b := shr_m (SpecFloat.iter_pos shr_1 n (SpecFloat.iter_pos shr_1 n mrs))) in *.
    assert (a + 1 <= P * (b + 1)) by lia.
    assert (P * (a + 1) <= P * (P * (b + 1))) by (apply Z.mul_le_mono_nonneg_l; lia).
    lia.
  - pose proof (shr_1_upper mrs Hm). change (2 ^ 1) with 2. lia.
Qed.

Lemma shr_upper (mrs : shr_record) (e n : Z) :
  0 <= shr_m mrs -> 0 <= n ->
  shr_m mrs < 2 ^ n * (shr_m (fst (shr mrs e n)) + 1).
Proof.
  intros Hm Hn. destruct n as [|n|n]; cbn [shr fst]; [change (2 ^ 0) with 1; lia| |lia].
  by apply iter_shr_1_upper.
Qed.

(** The mantissa and the exponent a shift for the format leaves: the
    exponent is the larger of the exponent given and the exponent of the
    format, and the mantissa is the quotient by the power of two
    between them. *)
Lemma shr_fexp_spec (m e : Z) (l : location) :
  0 <= m ->
  let e1 := Z.max e (fexp prec emax (Zdigits2 m + e)) in
  let q := shr_m (fst (shr_fexp prec emax m e l)) in
  snd (shr_fexp prec emax m e l) = e1
  /\ 0 <= q /\ 2 ^ (e1 - e) * q <= m < 2 ^ (e1 - e) * (q + 1).
Proof.
  intros Hm. cbv zeta. split; [apply shr_fexp_snd|].
  unfold shr_fexp. set (f := fexp prec emax (Zdigits2 m + e)).
  destruct (Z_le_gt_dec f e) as [Hle|Hgt].
  - rewrite shr_nonpos by lia. cbn [fst]. rewrite shr_record_of_loc_m.
    rewrite Z.max_l by lia. rewrite Z.sub_diag. change (2 ^ 0) with 1. lia.
  - rewrite Z.max_r by lia.
    destruct (shr_bounds (shr_record_of_loc m l) e (f - e)) as [B0 B1];
      [rewrite shr_record_of_loc_m; lia|lia|].
    pose proof (shr_upper (shr_record_of_loc m l) e (f - e)) as B2.
    rewrite shr_record_of_loc_m in *. split; [exact B0|]. split; [exact B1|].
    apply B2; lia.
Qed.

(** *** The two steps of a rounding *)

Lemma binary_round_aux_spec (sx : bool) (m e : Z) (l : location) :
  0 <= m ->
  exists e1 q1 m1 e2 q2,
    e1 = Z.max e (fexp prec emax (Zdigits2 m + e))
    /\ 0 <= q1 /\ 2 ^ (e1 - e) * q1 <= m < 2 ^ (e1 - e) * (q1 + 1)
    /\ q1 <= m1 <= q1 + 1
    /\ e2 = Z.max e1 (fexp prec emax (Zdigits2 m1 + e1))
    /\ 0 <= q2 /\ 2 ^ (e2 - e1) * q2 <= m1 < 2 ^ (e2 - e1) * (q2 + 1)
    /\ binary_round_aux prec emax sx m e l
       = match q2 with
         | Z0 => S754_zero sx
         | Z.pos p => if e2 <=? emax - prec then S754_finite sx p e2 else S754_infinity sx
         | Z.neg _ => S754_nan
         end.
Proof.
  intros Hm. unfold binary_round_aux.
  destruct (shr_fexp_spec m e l Hm) as (He1 & Hq0 & Hq1).
  destruct (shr_fexp prec emax m e l) as [mrs1 e1]. cbn [fst snd] in *.
  set (m1 := round_nearest_even (shr_m mrs1) (loc_of_shr_record mrs1)).
  pose proof (round_nearest_even_bounds (shr_m mrs1) (loc_of_shr_record mrs1)) as Hr.
  fold m1 in Hr.
  destruct (shr_fexp_spec m1 e1 loc_Exact ltac:(lia)) as (He2 & Hp0 & Hp1).
  destruct (shr_fexp prec emax m1 e1 loc_Exact) as [mrs2 e2]. cbn [fst snd] in *.
  exists e1, (shr_m mrs1), m1, e2, (shr_m mrs2).
  subst e1. rewrite <- He2 in Hp1. repeat split; try lia; try done.
Qed.

(** *** What a rounding keeps *)

Lemma pow2_pos (n : Z) : 0 <= n -> 0 < 2 ^ n.
Proof. intros. apply Z.pow_pos_nonneg; lia. Qed.

(** Rounding a non-negative integer gives a zero, an infinity or a
    finite number, of the sign given. *)
Lemma binary_round_aux_cases (sx : bool) (m e : Z) (l : location) :
  0 <= m ->
  binary_round_aux prec emax sx m e l = S754_zero sx
  \/ binary_round_aux prec emax sx m e l = S754_infinity sx
  \/ exists m' e', binary_round_aux prec emax sx m e l = S754_finite sx m' e'.
Proof.
  intros Hm.
  destruct (binary_round_aux_spec sx m e l Hm)
    as (e1 & q1 & m1 & e2 & q2 & _ & _ & _ & _ & _ & Hq2 & _ & ->).
  destruct q2 as [|p|p]; [by left| |lia].
  destruct (e2 <=? emax - prec); [right; right; by exists p, e2|right; by left].
Qed.

(** The finite number a rounding gives is within one unit of its last
    place of the integer rounded. *)
Lemma binary_round_aux_envelope (sx : bool) (m e : Z) (l : location) (s' : bool)
    (m' : positive) (e' : Z) :
  0 <= m ->
  binary_round_aux prec emax sx m e l = S754_finite s' m' e' ->
  s' = sx /\ e <= e'
  /\ (Z.pos m' - 1) * 2 ^ (e' - e) <= m < (Z.pos m' + 1) * 2 ^ (e' - e).
Proof.
  intros Hm.
  destruct (binary_round_aux_spec sx m e l Hm)
    as (e1 & q1 & m1 & e2 & q2 & He1 & Hq1 & Hb1 & Hm1 & He2 & Hq2 & Hb2 & ->).
  destruct q2 as [|p|p]; [done| |done].
  destruct (e2 <=? emax - prec); [|done].
  intros [= <- <- <-].
  assert (H1 : 0 <= e1 - e) by lia. assert (H2 : 0 <= e2 - e1) by lia.
  replace (e2 - e) with ((e1 - e) + (e2 - e1)) by lia.
  rewrite Z.pow_add_r by lia.
  pose proof (pow2_pos _ H1). pose proof (pow2_pos _ H2).
  set (P1 := 2 ^ (e1 - e)) in *. set (P2 := 2 ^ (e2 - e1)) in *.
  split; [done|]. split; [lia|]. split.
  - assert (P2 * (Z.pos p - 1) <= m1 - 1) by nia.
    assert (P1 * (P2 * (Z.pos p - 1)) <= P1 * q1) by (apply Z.mul_le_mono_nonneg_l; lia).
    lia.
  - assert (q1 + 1 <= P2 * (Z.pos p + 1)) by lia.
    assert (P1 * (q1 + 1) <= P1 * (P2 * (Z.pos p + 1))) by (apply Z.mul_le_mono_nonneg_l; lia).
    lia.
Qed.

Lemma Zdigits2_lower (m k : Z) : 0 <= k -> 2 ^ k <= m -> k + 1 <= Zdigits2 m.
Proof.
  intros Hk Hm. pose proof (pow2_pos k Hk).
  pose proof (Zdigits2_gt m ltac:(lia)) as Hgt.
  pose proof (Zdigits2_nonneg m).
  destruct (Z_lt_ge_dec k (Zdigits2 m)); [lia|].
  assert (2 ^ Zdigits2 m <= 2 ^ k) by (apply Z.pow_le_mono_r; lia). lia.
Qed.

(** The quotient of a shift keeps the leading digit. *)
Lemma quotient_lower (m q k n : Z) :
  0 <= k -> 0 <= n -> 2 ^ (k + n) <= m -> m < 2 ^ n * (q + 1) -> 2 ^ k <= q.
Proof.
  intros Hk Hn. rewrite Z.pow_add_r by lia.
  pose proof (pow2_pos k Hk). pose proof (pow2_pos n Hn). nia.
Qed.

Lemma quotient_upper (m q d n : Z) :
  0 <= n <= d -> m < 2 ^ d -> 2 ^ n * q <= m -> q < 2 ^ (d - n).
Proof.
  intros Hn. replace d with (n + (d - n)) at 1 by lia.
  rewrite Z.pow_add_r by lia.
  pose proof (pow2_pos n ltac:(lia)). pose proof (pow2_pos (d - n) ltac:(lia)). nia.
Qed.

(** The order of a number: its digits and its exponent together.  A
    rounding does not lower the order of an integer in the range of the
    normal numbers. *)
Lemma binary_round_aux_order (sx : bool) (m e : Z) (l : location) :
  0 < m -> -1021 <= Zdigits2 m + e ->
  binary_round_aux prec emax sx m e l = S754_infinity sx
  \/ exists m' e', binary_round_aux prec emax sx m e l = S754_finite sx m' e'
                   /\ Zdigits2 m + e <= Z.pos (digits2_pos m') + e'.
Proof.
  intros Hm Hord.
  destruct (binary_round_aux_spec sx m e l ltac:(lia))
    as (e1 & q1 & m1 & e2 & q2 & He1 & Hq1 & Hb1 & Hm1 & He2 & Hq2 & Hb2 & ->).
  rewrite fexp_eq in He1, He2.
  set (d := Zdigits2 m) in *.
  pose proof (Zdigits2_ge m Hm) as Hge. pose proof (Zdigits2_gt m ltac:(lia)) as Hgt.
  fold d in Hge, Hgt.
  assert (Hd : 1 <= d).
  { destruct (Z_lt_ge_dec d 1); [|lia]. pose proof (Zdigits2_nonneg m). fold d in H.
    assert (d = 0) as Hd0 by lia. rewrite Hd0 in Hgt. change (2 ^ 0) with 1 in Hgt. lia. }
  assert (Hn1 : e1 - e = Z.max 0 (d - 53)) by lia.
  set (n1 := e1 - e) in *.
  (* the first quotient keeps d - n1 digits *)
  assert (Hq1lo : 2 ^ (d - 1 - n1) <= q1).
  { apply (quotient_lower m q1 (d - 1 - n1) n1); [lia|lia| |lia].
    replace (d - 1 - n1 + n1) with (d - 1) by lia. exact Hge. }
  assert (Hq1hi : q1 < 2 ^ (d - n1)).
  { apply (quotient_upper m q1 d n1); [lia|exact Hgt|lia]. }
  assert (Hm1hi : m1 < 2 ^ (d - n1 + 1)).
  { rewrite Z.pow_add_r by lia. change (2 ^ 1) with 2.
    pose proof (pow2_pos (d - n1) ltac:(lia)). lia. }
  pose proof (Zdigits2_le m1 (d - n1 + 1) ltac:(lia) ltac:(lia) Hm1hi) as Hd1.
  assert (Hn2 : 0 <= e2 - e1 <= 1) by lia.
  assert (Hn2' : e2 - e1 = 1 -> 53 <= d) by lia.
  set (n2 := e2 - e1) in *.
  assert (Hq2lo : 2 ^ (d - 1 - n1 - n2) <= q2).
  { apply (quotient_lower m1 q2 (d - 1 - n1 - n2) n2); [lia|lia| |lia].
    replace (d - 1 - n1 - n2 + n2) with (d - 1 - n1) by lia. lia. }
  pose proof (pow2_pos (d - 1 - n1 - n2) ltac:(lia)) as Hpos.
  destruct q2 as [|p|p]; [lia| |lia].
  destruct (e2 <=? emax - prec); [right|by left].
  exists p, e2. split; [done|].
  pose proof (Zdigits2_lower (Z.pos p) (d - 1 - n1 - n2) ltac:(lia) Hq2lo) as Hdig.
  change (Zdigits2 (Z.pos p)) with (Z.pos (digits2_pos p)) in Hdig. lia.
Qed.

Lemma round_order_ge (sx : bool) (m e : Z) (l : location) (k : Z) :
  0 < m -> -1021 <= Zdigits2 m + e -> k <= Zdigits2 m + e ->
  JS.order_ge k (binary_round_aux prec emax sx m e l).
Proof.
  intros Hm Ho Hk.
  destruct (binary_round_aux_order sx m e l Hm Ho) as [->|(m' & e' & -> & Hle)];
    cbn [JS.order_ge]; [done|lia].
Qed.

Lemma iter_xO (m d : positive) : Z.pos (Pos.iter xO m d) = Z.pos m * 2 ^ Z.pos d.
Proof.
  induction d as [|d IH] using Pos.peano_ind.
  - cbn [Pos.iter]. change (2 ^ 1) with 2. lia.
  - rewrite Pos.iter_succ, Pos2Z.inj_succ, Z.pow_succ_r by lia.
    rewrite Pos2Z.inj_xO, IH. lia.
Qed.

Lemma shl_align_spec (m : positive) (e e' : Z) :
  snd (shl_align m e e') = Z.min e e'
  /\ Z.pos (fst (shl_align m e e')) = Z.pos m * 2 ^ (e - Z.min e e').
Proof.
  unfold shl_align. destruct (e' - e) as [|d|d] eqn:E; cbn [fst snd].
  - rewrite Z.min_l by lia. rewrite Z.sub_diag. change (2 ^ 0) with 1. lia.
  - rewrite Z.min_l by lia. rewrite Z.sub_diag. change (2 ^ 0) with 1. lia.
  - rewrite Z.min_r by lia. split; [done|]. rewrite iter_xO.
    replace (e - e') with (Z.pos d) by lia. done.
Qed.

Lemma binary_round_order (s : bool) (m : positive) (e k : Z) :
  -1021 <= Zdigits2 (Z.pos m) + e -> k <= Zdigits2 (Z.pos m) + e ->
  JS.order_ge k (binary_round prec emax s m e).
Proof.
  intros Ho Hk. unfold binary_round.
  destruct (shl_align_spec m e (fexp prec emax (Z.pos (digits2_pos m) + e))) as [He Hm].
  destruct (shl_align m e _) as [mz ez]. cbn [fst snd] in *.
  assert (Hd : Zdigits2 (Z.pos m) + e <= Zdigits2 (Z.pos mz) + ez).
  { pose proof (Zdigits2_ge (Z.pos m) ltac:(lia)) as Hge.
    assert (Hd1 : 1 <= Zdigits2 (Z.pos m)) by (cbn [Zdigits2]; lia).
    assert (Hs : 0 <= e - ez) by lia.
    pose proof (pow2_pos _ Hs).
    assert (Hlo : 2 ^ (Zdigits2 (Z.pos m) - 1 + (e - ez)) <= Z.pos mz).
    { rewrite Z.pow_add_r, Hm by lia. rewrite He.
      apply Z.mul_le_mono_nonneg_r; [|exact Hge]. subst ez. lia. }
    assert (Hk0 : 0 <= Zdigits2 (Z.pos m) - 1 + (e - ez)) by lia.
    pose proof (Zdigits2_lower _ _ Hk0 Hlo). lia. }
  apply round_order_ge; lia.
Qed.

(** *** The three operations of the contrast factor *)

Lemma SFmul_self_order (x : spec_float) :
  JS.order_ge (-52) x -> JS.order_ge (-105) (SFmul prec emax x x).
Proof.
  destruct x as [s|s| |s m e]; cbn [JS.order_ge SFmul]; [done|done|done|].
  intros Ho. set (d := Z.pos (digits2_pos m)) in *.
  pose proof (Zdigits2_ge (Z.pos m) ltac:(lia)) as Hge.
  change (Zdigits2 (Z.pos m)) with d in Hge.
  assert (Hd1 : 1 <= d) by (unfold d; lia).
  assert (Hlo : 2 ^ (d - 1 + (d - 1)) <= Z.pos (m * m)).
  { rewrite Z.pow_add_r by lia. rewrite Pos2Z.inj_mul.
    pose proof (pow2_pos (d - 1) ltac:(lia)). nia. }
  assert (Hk0 : 0 <= d - 1 + (d - 1)) by lia.
  pose proof (Zdigits2_lower _ _ Hk0 Hlo).
  apply round_order_ge; lia.
Qed.

Lemma SFdiv_hundred_order (x : spec_float) :
  JS.order_ge (-45) x -> JS.order_ge (-52) (SFdiv prec emax x (Prim2SF 100%float)).
Proof.
  change (Prim2SF 100%float) with (S754_finite false 7036874417766400 (-46)).
  destruct x as [s|s| |s m e]; cbn [JS.order_ge SFdiv]; [done|done|done|].
  intros Ho. rewrite SFdiv_core_binary_eq.
  set (d := Z.pos (digits2_pos m)) in *.
  assert (Hd1 : 1 <= d) by (unfold d; lia).
  assert (He' : JS.div_exponent (Z.pos m) e 7036874417766400 (-46) = Z.min (d + e - 60) (e + 46)).
  { unfold JS.div_exponent. rewrite fexp_eq. change (Zdigits2 (Z.pos m)) with d.
    change (Zdigits2 7036874417766400) with 53. lia. }
  rewrite He'.
  pose proof (Zdigits2_ge (Z.pos m) ltac:(lia)) as Hge.
  change (Zdigits2 (Z.pos m)) with d in Hge.
  set (e' := Z.min (d + e - 60) (e + 46)).
  set (sh := e - -46 - e').
  assert (Hsh : 0 <= sh) by (unfold sh, e'; lia).
  assert (Hsh' : 106 - d <= sh) by (unfold sh, e'; lia).
  change (fst (Z.div_eucl ?a ?b)) with (a / b).
  set (q := Z.pos m * 2 ^ sh / 7036874417766400).
  assert (Hnum : 2 ^ (sh + d - 1) <= Z.pos m * 2 ^ sh).
  { replace (sh + d - 1) with (d - 1 + sh) by lia. rewrite Z.pow_add_r by lia.
    apply Z.mul_le_mono_nonneg_r; [|exact Hge]. pose proof (pow2_pos sh Hsh). lia. }
  assert (Hq : 2 ^ (sh + d - 54) <= q).
  { unfold q. apply Z.div_le_lower_bound; [lia|].
    replace (sh + d - 1) with (53 + (sh + d - 54)) in Hnum by lia.
    rewrite Z.pow_add_r in Hnum by lia.
    pose proof (pow2_pos (sh + d - 54) ltac:(lia)).
    change (2 ^ 53) with 9007199254740992 in Hnum. lia. }
  pose proof (Zdigits2_lower q (sh + d - 54) ltac:(lia) Hq) as Hdig.
  pose proof (pow2_pos (sh + d - 54) ltac:(lia)).
  apply round_order_ge; [lia| |]; unfold sh, e' in *; lia.
Qed.

(** Adding 100 gives zero for -100 alone. *)
Lemma SFadd_hundred_order (x : spec_float) :
  valid_binary x = true -> x <> S754_nan -> x <> Prim2SF (-100)%float ->
  JS.order_ge (-45) (SFadd prec emax x (Prim2SF 100%float)).
Proof.
  change (Prim2SF 100%float) with (S754_finite false 7036874417766400 (-46)).
  change (Prim2SF (-100)%float) with (S754_finite true 7036874417766400 (-46)).
  destruct x as [s|s| |s m e]; intros Hvalid Hnan Hne.
  - cbn. lia.
  - by destruct s.
  - done.
  - cbn [SFadd].
    destruct (canonical_digits_le s m e Hvalid) as [Hd He].
    pose proof (Zdigits2_gt (Z.pos m) ltac:(lia)) as Hgt.
    change (Zdigits2 (Z.pos m)) with (Z.pos (digits2_pos m)) in Hgt.
    assert (Hm53 : Z.pos m < 2 ^ 53).
    { eapply Z.lt_le_trans; [exact Hgt|]. apply Z.pow_le_mono_r; lia. }
    set (ez := Z.min e (-46)).
    destruct (shl_align_spec m e ez) as [_ HA].
    destruct (shl_align_spec 7036874417766400 (-46) ez) as [_ HB].
    rewrite HA, HB. clear HA HB.
    replace (Z.min e ez) with ez by (unfold ez; lia).
    replace (Z.min (-46) ez) with ez by (unfold ez; lia).
    set (A := Z.pos m * 2 ^ (e - ez)). set (B := 7036874417766400 * 2 ^ (-46 - ez)).
    cbn [cond_Zopp].
    assert (Hsum : (ez = -46 /\ cond_Zopp s A + B <> 0)
                   \/ 2 ^ (51 - ez - 46) <= cond_Zopp s A + B).
    { destruct (Z_lt_ge_dec e (-46)) as [Hlt|Hge].
      - right. assert (ez = e) as -> by (unfold ez; lia).
        unfold A, B. rewrite Z.sub_diag. change (2 ^ 0) with 1.
        replace (51 - e - 46) with (51 + (-46 - e)) by lia.
        rewrite Z.pow_add_r by lia.
        pose proof (pow2_pos (-46 - e) ltac:(lia)).
        assert (2 ^ 1 <= 2 ^ (-46 - e)) by (apply Z.pow_le_mono_r; lia).
        change (2 ^ 1) with 2 in *. change (2 ^ 53) with 9007199254740992 in *.
        change (2 ^ 51) with 2251799813685248.
        destruct s; cbn [cond_Zopp]; lia.
      - left. assert (ez = -46) as Hez by (unfold ez; lia). split; [exact Hez|].
        unfold A, B. rewrite Hez. change (2 ^ (-46 - -46)) with 1.
        destruct s; cbn [cond_Zopp]; [|pose proof (pow2_pos (e - -46) ltac:(lia)); lia].
        intros Hz. destruct (Z.eq_dec e (-46)) as [->|Hne'].
        + change (2 ^ (-46 - -46)) with 1 in Hz.
          apply Hne. f_equal. lia.
        + pose proof (canonical_normal true m e Hvalid ltac:(lia)) as Hn.
          pose proof (Zdigits2_ge (Z.pos m) ltac:(lia)) as Hlo.
          change (Zdigits2 (Z.pos m)) with (Z.pos (digits2_pos m)) in Hlo.
          rewrite Hn in Hlo. change (2 ^ (53 - 1)) with 4503599627370496 in Hlo.
          assert (2 ^ 1 <= 2 ^ (e - -46)) by (apply Z.pow_le_mono_r; lia).
          change (2 ^ 1) with 2 in *. nia. }
    set (S := cond_Zopp s A + B) in *.
    assert (Hord : forall p : positive, (Z.pos p = S \/ Z.pos p = - S) ->
                   -45 <= Zdigits2 (Z.pos p) + ez).
    { intros p Hp. destruct Hsum as [[Hez Hnz]|Hbig].
      - rewrite Hez. cbn [Zdigits2]. lia.
      - pose proof (pow2_pos (51 - ez - 46) ltac:(unfold ez; lia)).
        assert (Hp' : 2 ^ (51 - ez - 46) <= Z.pos p) by lia.
        assert (Hk0 : 0 <= 51 - ez - 46) by (unfold ez; lia).
        pose proof (Zdigits2_lower _ _ Hk0 Hp'). lia. }
    unfold binary_normalize. destruct S as [|p|p] eqn:ES.
    + exfalso. destruct Hsum as [[_ Hnz]|Hbig]; [done|].
      pose proof (pow2_pos (51 - ez - 46) ltac:(unfold ez; lia)). lia.
    + pose proof (Hord p ltac:(lia)). apply binary_round_order; lia.
    + pose proof (Hord p ltac:(lia)). apply binary_round_order; lia.
Qed.

(** The product by 100 is -100 for -1 alone. *)
Lemma SFmul_hundred_minus (s : bool) (m : positive) (e : Z) :
  valid_binary (S754_finite s m e) = true ->
  SFmul prec emax (S754_finite s m e) (Prim2SF 100%float) = Prim2SF (-100)%float ->
  S754_finite s m e = Prim2SF (-1)%float.
Proof.
  change (Prim2SF 100%float) with (S754_finite false 7036874417766400 (-46)).
  change (Prim2SF (-100)%float) with (S754_finite true 7036874417766400 (-46)).
  change (Prim2SF (-1)%float) with (S754_finite true 4503599627370496 (-52)).
  intros Hvalid Hmul.
  destruct (canonical_digits_le s m e Hvalid) as [Hd He].
  pose proof (Zdigits2_gt (Z.pos m) ltac:(lia)) as Hgt.
  change (Zdigits2 (Z.pos m)) with (Z.pos (digits2_pos m)) in Hgt.
  assert (Hm53 : Z.pos m < 2 ^ 53).
  { eapply Z.lt_le_trans; [exact Hgt|]. apply Z.pow_le_mono_r; lia. }
  pose proof Hmul as Hmul'. cbn [SFmul] in Hmul'.
  apply binary_round_aux_envelope in Hmul'; [|lia].
  destruct Hmul' as (Hs & Hee & Hlo & Hhi).
  assert (s = true) as -> by (by destruct s).
  replace (-46 - (e + -46)) with (- e) in Hlo, Hhi by lia.
  rewrite Pos2Z.inj_mul in Hlo, Hhi.
  assert (He0 : 0 <= - e) by lia.
  change (2 ^ 53) with 9007199254740992 in Hm53.
  (* the exponent is -52 or -53 *)
  assert (Hup : - e <= 53).
  { destruct (Z_le_gt_dec (- e) 53); [done|exfalso].
    assert (2 ^ 54 <= 2 ^ (- e)) by (apply Z.pow_le_mono_r; lia).
    change (2 ^ 54) with 18014398509481984 in *. lia. }
  pose proof (canonical_normal true m e Hvalid ltac:(lia)) as Hn.
  pose proof (Zdigits2_ge (Z.pos m) ltac:(lia)) as Hm52.
  change (Zdigits2 (Z.pos m)) with (Z.pos (digits2_pos m)) in Hm52.
  rewrite Hn in Hm52. change (2 ^ (53 - 1)) with 4503599627370496 in Hm52.
  assert (Hdown : 52 <= - e).
  { destruct (Z_le_gt_dec 52 (- e)); [done|exfalso].
    assert (2 ^ (- e) <= 2 ^ 51) by (apply Z.pow_le_mono_r; lia).
    change (2 ^ 51) with 2251799813685248 in *. lia. }
  assert (e = -52 \/ e = -53) as [-> | ->] by lia.
  - change (2 ^ (- -52)) with 4503599627370496 in *. f_equal; lia.
  - exfalso. change (2 ^ (- -53)) with 9007199254740992 in *.
    assert (m = 9007199254740991%positive) as -> by lia.
    vm_compute in Hmul. discriminate.
Qed.

Lemma order_ge_truthy (k : Z) (x : float) :
  JS.order_ge k (Prim2SF x) -> JS.truthy x = true.
Proof. rewrite truthy_SF. by destruct (Prim2SF x). Qed.

Lemma spec_float_eq_dec (x y : spec_float) : {x = y} + {x <> y}.
Proof.
  decide equality; first [apply Z.eq_dec | apply Pos.eq_dec | apply Bool.bool_dec].
Qed.

Local Open Scope float_scope.

Lemma Prim2SF_hundred : Prim2SF 100 = S754_finite false 7036874417766400 (-46).
Proof. reflexivity. Qed.

(** The factor of every contrast but -1 and [NaN] is of order -105 at
    least: the sum with 100 is zero for -100 alone, the product by 100
    is -100 for -1 alone, and the quotient and the square keep the
    order of what they are given. *)
Lemma contrastFactor_order (c : float) :
  Prim2SF c <> S754_nan -> c <> (-1) ->
  JS.order_ge (-105) (Prim2SF (JS.pow2 ((c * 100 + 100) / 100))).
Proof.
  intros Hnan Hne. unfold JS.pow2. rewrite mul_spec, div_spec, add_spec.
  rewrite Prim2SF_hundred. unfold SF64mul, SF64div, SF64add.
  apply SFmul_self_order, SFdiv_hundred_order, SFadd_hundred_order.
  - apply Prim2SF_valid.
  - rewrite mul_spec, Prim2SF_hundred. unfold SF64mul.
    destruct (Prim2SF c) as [s|s| |s m e]; [done|done|done|].
    cbn [SFmul].
    destruct (binary_round_aux_cases (xorb s false) (Z.pos (m * 7036874417766400))
                (e + -46) loc_Exact ltac:(lia)) as [-> | [-> | (m' & e' & ->)]]; done.
  - rewrite mul_spec, Prim2SF_hundred. unfold SF64mul. intros Hmul.
    pose proof (Prim2SF_valid c) as Hvalid.
    destruct (Prim2SF c) as [s|s| |s m e] eqn:Ec; [done|done|done|].
    apply SFmul_hundred_minus in Hmul; [|exact Hvalid].
    apply Hne, Prim2SF_inj. by rewrite Ec, Hmul.
Qed.

Lemma is_nan_SF (x : float) : is_nan x = true <-> Prim2SF x = S754_nan.
Proof.
  split; [|apply is_nan_of_SF].
  unfold is_nan. rewrite FloatAxioms.eqb_spec.
  destruct (Prim2SF x) as [s|s| |s m e]; [by destruct s|by destruct s|done|].
  unfold SFeqb, SFcompare.
  destruct s; by rewrite Z.compare_refl, Pos.compare_cont_refl.
Qed.

End Binary64Rounding.

(** ** The pixel filters *)

Section FilterFacts.
Import DOM RenderService.
Context `{Browser} `{Sprites} `{ImageMath} `{FontService}.
Local Open Scope float_scope.

Lemma foldl_fixed {A B : Type} (f : A -> B -> A) (l : list B) (a : A) :
  (forall b, f a b = a) -> foldl f a l = a.
Proof.
  intros Hf. induction l as [|b l IH]; [done|]. cbn. by rewrite Hf.
Qed.

(** A pixel step that leaves a buffer alone leaves it alone over the
    whole sweep. *)
Lemma filterPixels_fixed (levels contrast : float) (width height : nat)
    (data : list byte) :
  (forall x y, filterPixel levels contrast width x y data = data) ->
  filterPixels levels contrast width height data = data.
Proof.
  intros Hstep. unfold filterPixels.
  apply foldl_fixed. intros x. by apply foldl_fixed.
Qed.

(** With both guards falsy a sweep changes nothing. *)
Lemma filterPixels_guards_falsy (levels contrast : float) (width height : nat)
    (data : list byte) :
  JS.truthy levels = false -> JS.truthy contrast = false ->
  filterPixels levels contrast width height data = data.
Proof.
  intros Hl Hc. apply filterPixels_fixed. intros x y.
  unfold filterPixel, filterAt. by rewrite Hl, Hc.
Qed.

Lemma adjustContrast_one (data : list byte) (i : nat) :
  adjustContrast 1 data i = data.
Proof.
  unfold adjustContrast, store, load.
  destruct (data !! i) as [b|] eqn:E.
  - rewrite contrast_one_keeps_byte. by apply list_insert_id.
  - apply list_insert_ge. by apply lookup_ge_None.
Qed.

(** The alpha byte of a pixel is at an index that is 3 modulo 4; no
    store of a sweep goes there. *)
Lemma store_other (data : list byte) (i j : nat) (v : float) :
  i <> j -> store data i v !! j = data !! j.
Proof. intros. unfold store. by apply list_lookup_insert_ne. Qed.

Lemma filterPixel_alpha (levels contrast : float) (width x y : nat)
    (data : list byte) (j : nat) :
  (j mod 4 = 3)%nat ->
  filterPixel levels contrast width x y data !! j = data !! j.
Proof.
  intros Hj. unfold filterPixel, filterAt.
  set (i := ((y * width + x) * 4)%nat).
  assert (Hi : (i mod 4 = 0)%nat) by (unfold i; apply Nat.Div0.mod_mul).
  assert (i <> j /\ (i + 1)%nat <> j /\ (i + 2)%nat <> j) as (N0 & N1 & N2).
  { repeat split; intros <-.
    - lia.
    - rewrite <- Nat.Div0.add_mod_idemp_l, Hi in Hj. cbn in Hj. lia.
    - rewrite <- Nat.Div0.add_mod_idemp_l, Hi in Hj. cbn in Hj. lia. }
  destruct (JS.truthy levels), (JS.truthy contrast);
    unfold adjustLevel, adjustContrast;
    by rewrite ?store_other.
Qed.

(** X1: whatever the levels and the contrast, the sweep of
    [renderFilters] leaves the alpha byte of every pixel (the bytes at
    the indices that are 3 modulo 4) as it was. *)
Theorem filterPixels_alpha (levels contrast : float) (width height : nat)
    (data : list byte) (j : nat) :
  (j mod 4 = 3)%nat ->
  filterPixels levels contrast width height data !! j = data !! j.
Proof.
  intros Hj. unfold filterPixels.
  generalize (seq 0 width). intros xs. revert data.
  induction xs as [|x xs IH]; intros data; [done|]. cbn [foldl].
  rewrite IH. generalize (seq 0 height). intros ys. revert data.
  induction ys as [|y ys IHy]; intros data; [done|]. cbn [foldl].
  rewrite IHy. by apply filterPixel_alpha.
Qed.

(** *** The sweep, pixel by pixel *)

Lemma adjustLevel_lookup (levels : float) (data : list byte) (i j : nat) :
  adjustLevel levels data i !! j
  = if decide (i = j)
    then (fun b => JS.to_byte (levelValue (JS.of_byte b) levels)) <$> data !! j
    else data !! j.
Proof.
  unfold adjustLevel, store, load. destruct (decide (i = j)) as [->|Hne].
  - destruct (data !! j) as [b|] eqn:E; cbn.
    + rewrite list_lookup_insert_eq; [done|by eapply lookup_lt_Some].
    + apply lookup_ge_None. rewrite length_insert. by apply lookup_ge_None.
  - by apply list_lookup_insert_ne.
Qed.

Lemma adjustContrast_lookup (contrast : float) (data : list byte) (i j : nat) :
  adjustContrast contrast data i !! j
  = if decide (i = j)
    then (fun b => JS.to_byte (contrastValue (JS.of_byte b) contrast)) <$> data !! j
    else data !! j.
Proof.
  unfold adjustContrast, store, load. destruct (decide (i = j)) as [->|Hne].
  - destruct (data !! j) as [b|] eqn:E; cbn.
    + rewrite list_lookup_insert_eq; [done|by eapply lookup_lt_Some].
    + apply lookup_ge_None. rewrite length_insert. by apply lookup_ge_None.
  - by apply list_lookup_insert_ne.
Qed.

Lemma colourOf_indices (p j : nat) :
  colourOf p j <-> (j = p * 4 \/ j = p * 4 + 1 \/ j = p * 4 + 2)%nat.
Proof.
  unfold colourOf.
  pose proof (Nat.div_mod_eq j 4). pose proof (Nat.mod_upper_bound j 4). lia.
Qed.

(** The loop body rewrites the colour bytes of its pixel, each through
    [filterChannel], and nothing else. *)
Lemma filterAt_lookup (levels contrast : float) (p : nat) (data : list byte) (j : nat) :
  filterAt levels contrast (p * 4) data !! j
  = if bool_decide (colourOf p j) then filterChannel levels contrast <$> data !! j
    else data !! j.
Proof.
  unfold filterAt, filterChannel.
  destruct (bool_decide_reflect (colourOf p j)) as [Hc|Hc];
    rewrite colourOf_indices in Hc;
    destruct (JS.truthy levels), (JS.truthy contrast);
    rewrite ?adjustContrast_lookup, ?adjustLevel_lookup;
    repeat (destruct (decide _) as [?|?]; try lia);
    try done; by destruct (data !! j).
Qed.

(** A sweep over pixels that are all different rewrites the colour bytes
    of those pixels, once each. *)
Lemma foldl_filterAt_lookup (levels contrast : float) (ps : list nat)
    (data : list byte) (j : nat) :
  NoDup ps ->
  foldl (fun data p => filterAt levels contrast (p * 4) data) data ps !! j
  = if bool_decide ((j / 4)%nat ∈ ps /\ (j mod 4 <> 3)%nat)
    then filterChannel levels contrast <$> data !! j
    else data !! j.
Proof.
  intros Hnd. revert data. induction Hnd as [|p ps Hp Hnd IH]; intros data; cbn [foldl].
  - rewrite bool_decide_eq_false_2; [done|]. intros [[]%not_elem_of_nil _].
  - rewrite IH, filterAt_lookup. unfold colourOf.
    repeat case_bool_decide; try done;
      rewrite elem_of_cons in *; try tauto.
    exfalso. destruct_and?. by subst.
Qed.

Lemma foldl_over_bind {A B C : Type} (f : A -> C -> A) (k : B -> list C)
    (l : list B) (a : A) :
  foldl f a (l ≫= k) = foldl (fun a x => foldl f a (k x)) a l.
Proof.
  revert a. induction l as [|x l IH]; intros a; csimpl; [done|].
  by rewrite foldl_app, IH.
Qed.

Lemma foldl_over_fmap {A B C : Type} (f : A -> C -> A) (h : B -> C)
    (l : list B) (a : A) :
  foldl f a (h <$> l) = foldl (fun a y => f a (h y)) a l.
Proof.
  revert a. induction l as [|y l IH]; intros a; csimpl; [done|]. by rewrite IH.
Qed.

Lemma filterPixels_sweepOrder (levels contrast : float) (width height : nat)
    (data : list byte) :
  filterPixels levels contrast width height data
  = foldl (fun data p => filterAt levels contrast (p * 4) data) data
          (sweepOrder width height).
Proof.
  unfold filterPixels, sweepOrder, filterPixel.
  rewrite foldl_over_bind.
  generalize (seq 0 width). intros xs. revert data.
  induction xs as [|x xs IH]; intros data; [done|].
  cbn [foldl]. by rewrite IH, foldl_over_fmap.
Qed.

Lemma elem_of_sweepOrder (width height p : nat) :
  p ∈ sweepOrder width height <-> (p < width * height)%nat.
Proof.
  unfold sweepOrder. rewrite list_elem_of_bind. split.
  - intros (x & (y & -> & Hy%elem_of_seq)%list_elem_of_fmap & Hx%elem_of_seq). nia.
  - intros Hp. assert (width <> 0)%nat by lia.
    exists (p mod width)%nat. split.
    + apply list_elem_of_fmap. exists (p / width)%nat. split.
      * pose proof (Nat.div_mod_eq p width). lia.
      * apply elem_of_seq. split; [lia|]. cbn.
        apply Nat.Div0.div_lt_upper_bound. lia.
    + apply elem_of_seq. pose proof (Nat.mod_upper_bound p width). lia.
Qed.

Lemma NoDup_sweepOrder (width height : nat) : NoDup (sweepOrder width height).
Proof.
  unfold sweepOrder. apply NoDup_bind; [| |apply NoDup_seq].
  - intros x1 x2 p Hx1%elem_of_seq Hx2%elem_of_seq
      (y1 & -> & _)%list_elem_of_fmap (y2 & E & _)%list_elem_of_fmap.
    assert (y1 = y2) by nia. nia.
  - intros x Hx%elem_of_seq. apply NoDup_fmap_2_strong; [|apply NoDup_seq].
    intros y1 y2 _ _ E. nia.
Qed.

(** The sweep rewrites the colour bytes of the pixels of the image, once
    each, and nothing else. *)
Lemma filterPixels_lookup (levels contrast : float) (width height : nat)
    (data : list byte) (j : nat) :
  filterPixels levels contrast width height data !! j
  = if bool_decide ((j / 4 < width * height)%nat /\ (j mod 4 <> 3)%nat)
    then filterChannel levels contrast <$> data !! j
    else data !! j.
Proof.
  rewrite filterPixels_sweepOrder, foldl_filterAt_lookup by apply NoDup_sweepOrder.
  apply (f_equal (fun b : bool => if b then _ else _)).
  apply bool_decide_ext. by rewrite elem_of_sweepOrder.
Qed.

(** X5: the sweep of [renderFilters] over a [width] by [height] image
    rewrites the red, green and blue byte of each of its pixels, once,
    through [filterChannel] (the level value as the array keeps it, then
    the contrast value of that byte as the array keeps it), and leaves
    every other byte, the alpha bytes among them, as it was; on a buffer
    of [4 * width * height] bytes no byte is added or lost. *)
Theorem filter_sweep_pixelwise (levels contrast : float) (width height : nat)
    (data : list byte) :
  (forall j : nat,
     filterPixels levels contrast width height data !! j
     = if bool_decide ((j / 4 < width * height)%nat /\ (j mod 4 <> 3)%nat)
       then filterChannel levels contrast <$> data !! j
       else data !! j)
  /\ length (filterPixels levels contrast width height data) = length data.
Proof.
  split; [apply filterPixels_lookup|].
  apply Nat.le_antisymm.
  - apply Nat.nlt_ge. intros Hlt.
    destruct (lookup_lt_is_Some_2 _ _ Hlt) as [b Hb].
    rewrite filterPixels_lookup, (lookup_ge_None_2 data (length data)) in Hb by lia.
    by destruct (bool_decide _).
  - apply Nat.nlt_ge. intros Hlt.
    destruct (lookup_lt_is_Some_2 _ _ Hlt) as [b Hb].
    pose proof (filterPixels_lookup levels contrast width height data
                  (length (filterPixels levels contrast width height data))) as E.
    rewrite Hb, lookup_ge_None_2 in E by lia.
    by destruct (bool_decide _).
Qed.

(** For the scaled level 2 and the contrast factor 1 a colour byte
    becomes the level value as the array keeps it: the contrast step
    keeps the byte. *)
Lemma filterChannel_level_two (b : byte) :
  filterChannel 2 1 b = JS.to_byte (levelValue (JS.of_byte b) 2).
Proof. destruct b; vm_compute; reflexivity. Qed.

(** C4: with [levels = 0] and [contrast = 0] the filter stage of the
    pipeline leaves the canvas, and the whole world, as it was (the
    stage does not run [renderFilters]); and the sweep of
    [renderFilters] itself, run on any buffer with these filters, gives
    the buffer back byte for byte, red, green, blue and alpha alike. *)
Theorem filters_zero_noop (layer : Layer) (cvs : CanvasRef) (w : World) :
  filters layer = {| levels := 0; contrast := 0 |} ->
  filterStage cvs layer w = w
  /\ forall (width height : nat) (data : list byte),
       filterPixels (scaledLevels (filters layer)) (contrastFactor (filters layer))
                    width height data = data.
Proof.
  intros Hf. split.
  - unfold filterStage, hasFilters. by rewrite Hf.
  - intros width height data. rewrite Hf.
    change (scaledLevels _) with 0. change (contrastFactor _) with 1.
    apply filterPixels_fixed. intros x y. unfold filterPixel, filterAt.
    change (JS.truthy 0) with false. change (JS.truthy 1) with true. cbn iota.
    by rewrite !adjustContrast_one.
Qed.

(** C5: for the raw levels value 1 and contrast 0 the scaled value is
    2, and the sweep assigns to the red, green and blue byte of every
    pixel the level value of the byte (the contrast step, of factor 1,
    keeps what was stored), leaving the other bytes.  The level value is,
    for every byte a channel can hold, the byte times 2 times 2, exactly;
    for the channel value 100 that is 400, a number above 255: the
    formula does not clamp.  [renderFilters] runs that sweep: for a layer
    with these filters the filter stage of the pipeline calls it
    ([hasFilters] is truthy), and it clears the canvas and puts back the
    pixels it read from it, swept. *)
Theorem levels_one_gives_400_unclamped :
  let f := {| levels := 1; contrast := 0 |} in
  scaledLevels f = 2
  /\ (forall (width height : nat) (data : list byte) (j : nat),
        filterPixels (scaledLevels f) (contrastFactor f) width height data !! j
        = if bool_decide ((j / 4 < width * height)%nat /\ (j mod 4 <> 3)%nat)
          then (fun b => JS.to_byte (levelValue (JS.of_byte b) (scaledLevels f)))
                 <$> data !! j
          else data !! j)
  /\ (forall b : byte,
        levelValue (JS.of_byte b) (scaledLevels f)
        = JS.of_Z (4 * Z.of_N (Byte.to_N b)))
  /\ levelValue 100 (scaledLevels f) = 100 * 2 * 2
  /\ levelValue 100 (scaledLevels f) = 400
  /\ (255 <? levelValue 100 (scaledLevels f)) = true
  /\ (forall (layer : Layer) (cvs : CanvasRef) (w : World),
        filters layer = f ->
        let width := DOM.width (canvasOf w cvs) in
        let height := DOM.height (canvasOf w cvs) in
        JS.truthy (hasFilters layer) = true
        /\ filterStage cvs layer w = renderFilters cvs layer w
        /\ renderFilters cvs layer w
           = drawOn cvs
               [ ClearRect 0 0 width height;
                 PutImageData
                   (filterPixels (scaledLevels f) (contrastFactor f) width height
                      (getImageData (canvases w) cvs))
                   width height 0 0 ] w).
Proof.
  cbv zeta. change (scaledLevels _) with 2. change (contrastFactor _) with 1.
  split; [reflexivity|]. split.
  - intros width height data j. rewrite filterPixels_lookup.
    destruct (bool_decide _); [|done].
    destruct (data !! j) as [b|]; [|done].
    exact (f_equal Some (filterChannel_level_two b)).
  - split; [apply level_two_quadruples|].
    split; [reflexivity|]. split; [reflexivity|]. split; [reflexivity|].
    intros layer cvs w Hf.
    unfold filterStage, renderFilters, hasFilters. rewrite Hf.
    split; [reflexivity|]. split; reflexivity.
Qed.

(** The store into the pixel array is what clamps: the byte kept for
    400 is 255. *)
Lemma adjustLevel_store_clamps :
  adjustLevel 2 [ x64 ] 0 = [ xff ].
Proof. vm_compute. reflexivity. Qed.

(** C2, at the failing input [contrast = -1] (with [levels = 0]):
    [hasFilters] is truthy, so the stage runs [renderFilters]; but the
    factor it derives is 0, the guard [if ( contrast )] tests that
    factor and skips the adjustment, and the pixels read from the canvas
    are put back as they were.  A channel holding 100 stays 100, where
    the formula with the factor 0 gives 127.5, which the pixel array
    would keep as 128. *)
Theorem contrast_minus_one_not_applied (layer : Layer) (cvs : CanvasRef) (w : World) :
  filters layer = {| levels := 0; contrast := -1 |} ->
  JS.truthy (hasFilters layer) = true
  /\ contrastFactor (filters layer) = 0
  /\ filterStage cvs layer w
     = drawOn cvs [ ClearRect 0 0 (DOM.width (canvasOf w cvs)) (DOM.height (canvasOf w cvs));
                    PutImageData (getImageData (canvases w) cvs)
                      (DOM.width (canvasOf w cvs)) (DOM.height (canvasOf w cvs)) 0 0 ] w
  /\ filterPixels (scaledLevels (filters layer)) (contrastFactor (filters layer))
       1 1 [ x64; x64; x64; xff ]
     = [ x64; x64; x64; xff ]
  /\ contrastValue (JS.of_byte x64) (contrastFactor (filters layer)) = 127.5
  /\ JS.to_byte (contrastValue (JS.of_byte x64) (contrastFactor (filters layer))) = x80.
Proof.
  intros Hf.
  assert (Hsweep : forall width height data,
             filterPixels (scaledLevels (filters layer)) (contrastFactor (filters layer))
               width height data = data).
  { intros. rewrite Hf. by apply filterPixels_guards_falsy. }
  repeat split.
  - unfold hasFilters. by rewrite Hf.
  - by rewrite Hf.
  - unfold filterStage, hasFilters, renderFilters. rewrite Hsweep. by rewrite Hf.
  - apply Hsweep.
  - by rewrite Hf.
  - by rewrite Hf.
Qed.

(** For every other factor the guard lets the formula through: a
    truthy factor, with no level adjustment, sets a channel to what the
    formula gives, as the pixel array keeps it. *)
Lemma filterPixel_contrast_applied (levels contrast : float) (width x y : nat)
    (data : list byte) :
  JS.truthy levels = false -> JS.truthy contrast = true ->
  let i := ((y * width + x) * 4)%nat in
  filterPixel levels contrast width x y data
  = adjustContrast contrast
      (adjustContrast contrast (adjustContrast contrast data i) (i + 1)) (i + 2).
Proof. intros Hl Hc. unfold filterPixel, filterAt. by rewrite Hl, Hc. Qed.

(** *** The level guard *)

(** X12: the guard of the level adjustment tests [filters.levels * 2],
    which is truthy exactly when [filters.levels] is, for every number:
    doubling keeps zeros zero and [NaN] [NaN], and makes no other number
    zero.  So, unlike the contrast adjustment, the level adjustment runs
    whenever the raw value sends the layer through the filter stage; with
    a contrast of 0 a colour byte becomes the level value as the array
    keeps it when [filters.levels] is truthy, and stays what it was when
    it is not. *)
Theorem level_adjustment_follows_levels (f : Filters) :
  JS.truthy (scaledLevels f) = JS.truthy (levels f)
  /\ (forall layer, filters layer = f -> JS.truthy (levels f) = true ->
        JS.truthy (hasFilters layer) = true)
  /\ (contrast f = 0 -> forall b : byte,
        filterChannel (scaledLevels f) (contrastFactor f) b
        = if JS.truthy (levels f)
          then JS.to_byte (levelValue (JS.of_byte b) (levels f * 2))
          else b).
Proof.
  split; [apply truthy_double|]. split.
  - intros layer <- Hl. unfold hasFilters. by rewrite or_else_truthy.
  - intros Hc b. unfold filterChannel, contrastFactor. rewrite Hc.
    change (JS.pow2 ((0 * 100 + 100) / 100)) with 1.
    change (JS.truthy 1) with true. cbn iota.
    rewrite contrast_one_keeps_byte. unfold scaledLevels at 1.
    by rewrite truthy_double.
Qed.

Lemma level_one_keeps_byte (b : byte) :
  JS.to_byte (levelValue (JS.of_byte b) 1) = b.
Proof. destruct b; vm_compute; reflexivity. Qed.

Lemma adjustLevel_one (data : list byte) (i : nat) :
  adjustLevel 1 data i = data.
Proof.
  unfold adjustLevel, store, load.
  destruct (data !! i) as [b|] eqn:E.
  - rewrite level_one_keeps_byte. by apply list_insert_id.
  - apply list_insert_ge. by apply lookup_ge_None.
Qed.

(** X13: the neutral level is 0.5.  With [levels = 0.5] and
    [contrast = 0] the filter stage runs ([hasFilters] is truthy), the
    scaled level and the contrast factor are both 1, and the sweep gives
    every buffer back byte for byte: the canvas is cleared and the pixels
    read from it are put back as they were. *)
Theorem levels_half_is_neutral (layer : Layer) (cvs : CanvasRef) (w : World) :
  filters layer = {| levels := 0.5; contrast := 0 |} ->
  JS.truthy (hasFilters layer) = true
  /\ scaledLevels (filters layer) = 1
  /\ contrastFactor (filters layer) = 1
  /\ (forall (width height : nat) (data : list byte),
        filterPixels (scaledLevels (filters layer)) (contrastFactor (filters layer))
                     width height data = data)
  /\ filterStage cvs layer w
     = drawOn cvs [ ClearRect 0 0 (DOM.width (canvasOf w cvs)) (DOM.height (canvasOf w cvs));
                    PutImageData (getImageData (canvases w) cvs)
                      (DOM.width (canvasOf w cvs)) (DOM.height (canvasOf w cvs)) 0 0 ] w.
Proof.
  intros Hf.
  assert (Hsweep : forall width height data,
             filterPixels (scaledLevels (filters layer)) (contrastFactor (filters layer))
               width height data = data).
  { intros width height data. rewrite Hf.
    change (scaledLevels _) with 1. change (contrastFactor _) with 1.
    apply filterPixels_fixed. intros x y. unfold filterPixel, filterAt.
    change (JS.truthy 1) with true. cbn iota.
    by rewrite !adjustLevel_one, !adjustContrast_one. }
  split; [unfold hasFilters; by rewrite Hf|].
  split; [by rewrite Hf|]. split; [by rewrite Hf|]. split; [exact Hsweep|].
  unfold filterStage, hasFilters, renderFilters. rewrite Hsweep. by rewrite Hf.
Qed.

(** X25.  The guard [if ( contrast )] of [renderFilters] tests the
    factor [Math.pow((( filters.contrast * 100 ) + 100 ) / 100, 2 )]
    (the square taken as the binary64 product).  Over all binary64
    numbers the factor is falsy for the contrast -1 and for [NaN], and
    for no other: every other contrast, however small or large, has its
    adjustment applied. *)
Theorem contrast_guard_falsy_iff (f : Filters) :
  JS.truthy (contrastFactor f) = false
  <-> contrast f = (-1) \/ is_nan (contrast f) = true.
Proof.
  unfold contrastFactor. set (c := contrast f). split.
  - intros Hfalsy.
    destruct (spec_float_eq_dec (Prim2SF c) S754_nan) as [Hnan|Hnan];
      [right; by apply is_nan_SF|].
    destruct (spec_float_eq_dec (Prim2SF c) (Prim2SF (-1))) as [Hone|Hone];
      [left; by apply Prim2SF_inj|].
    assert (Hne : c <> (-1)) by (by intros ->).
    pose proof (order_ge_truthy _ _ (contrastFactor_order c Hnan Hne)) as Htrue.
    congruence.
  - intros [-> | Hnan]; [reflexivity|].
    apply is_nan_SF in Hnan. rewrite truthy_SF. unfold JS.pow2.
    rewrite mul_spec, div_spec, add_spec, mul_spec, Hnan. reflexivity.
Qed.
End FilterFacts.

(** ** The layer effect pipeline *)

Section RenderFacts.
Import DOM RenderService.
Context `{Browser} `{Sprites} `{ImageMath} `{FontService}.
Local Open Scope float_scope.

(** *** Drawing keeps the size of every canvas, and nothing but
        canvases *)

Lemma extent_drawOn (c : CanvasRef) (ops : list Command) (w : World) (c' : CanvasRef) :
  extent (drawOn c ops w) c' = extent w c'.
Proof.
  unfold extent, canvasOf, drawOn, with_canvases; cbn.
  destruct (decide (c = c')) as [->|Hne].
  - rewrite lookup_alter_eq. by destruct (canvases w !! c').
  - by rewrite lookup_alter_ne.
Qed.

Lemma extent_resized (c : CanvasRef) (width height : float) (w : World) :
  extent (with_canvases (insert c (resized width height)) w) c
  = (dimension width, dimension height).
Proof.
  unfold extent, canvasOf, with_canvases; cbn. by rewrite lookup_insert_eq.
Qed.

(** What [renderText] can change: the canvases, by drawing, and the
    list of font requests. *)
Lemma renderText_frame (layer : Layer) (w w' : World) :
  renderText layer w = Some w' ->
  layers w' = layers w /\ sprites w' = sprites w
  /\ forall c, extent w' c = extent w c.
Proof.
  unfold renderText.
  destruct (String.eqb (value (text layer)) EmptyString); [by intros [= <-]|].
  destruct (source layer) as [src|]; [|done]. cbn.
  intros [= <-]. repeat split. intros c. by rewrite extent_drawOn.
Qed.

Lemma renderText_total (layer : Layer) (w : World) :
  is_Some (source layer) -> is_Some (renderText layer w).
Proof.
  intros [src Hsrc]. unfold renderText.
  destruct (String.eqb _ _); [done|]. rewrite Hsrc. cbn. done.
Qed.

Lemma filterStage_frame (cvs : CanvasRef) (layer : Layer) (w : World) :
  layers (filterStage cvs layer w) = layers w
  /\ sprites (filterStage cvs layer w) = sprites w
  /\ fontRequests (filterStage cvs layer w) = fontRequests w
  /\ forall c, extent (filterStage cvs layer w) c = extent w c.
Proof.
  unfold filterStage. destruct (JS.truthy _); [|done].
  unfold renderFilters. repeat split. intros c. by rewrite extent_drawOn.
Qed.

(** C10: for a layer whose text value is the empty string, [renderText]
    returns at once: the world it leaves is the world it found, so no
    font was requested and no command, neither the clearing nor a
    drawing, reached the source canvas (or any other). *)
Theorem renderText_empty_value_returns (layer : Layer) (w : World) :
  value (text layer) = EmptyString ->
  renderText layer w = Some w
  /\ forall w', renderText layer w = Some w' ->
       fontRequests w' = fontRequests w
       /\ canvases w' = canvases w
       /\ forall src, source layer = Some src ->
            commands (canvasOf w' src) = commands (canvasOf w src).
Proof.
  intros Hv.
  assert (E : renderText layer w = Some w) by (unfold renderText; by rewrite Hv).
  split; [done|]. rewrite E. by intros w' [= <-].
Qed.

(** X4: for a layer with a text value and a source canvas, [renderText]
    asks the font service for the font and sends to the source, first,
    the clearing of its whole surface, then the font (["Arial"] when the
    font could not be loaded) and the fill colour, before any text is
    drawn. *)
Theorem renderText_value_clears (layer : Layer) (w : World) (src : CanvasRef) (cvs : Canvas) :
  value (text layer) <> EmptyString ->
  source layer = Some src ->
  canvases w !! src = Some cvs ->
  exists w' ops,
    renderText layer w = Some w'
    /\ fontRequests w' = fontRequests w ++ [ font (text layer) ]
    /\ commands (canvasOf w' src)
       = commands cvs
         ++ [ ClearRect 0 0 (DOM.width cvs) (DOM.height cvs);
              SetFont (size (text layer))
                (if loadGoogleFont (font (text layer)) then font (text layer)
                 else "Arial"%string);
              SetFillStyle (color (text layer)) ]
         ++ ops.
Proof.
  intros Hv Hsrc Hc. unfold renderText.
  destruct (String.eqb_spec (value (text layer)) EmptyString); [done|].
  rewrite Hsrc. cbn.
  eexists _, _. split; [reflexivity|]. split; [done|].
  unfold canvasOf, drawOn, with_canvases; cbn.
  rewrite lookup_alter_eq, Hc. cbn. reflexivity.
Qed.

(** *** Lines and letters *)

Lemma split_lines_cons (s : string) :
  exists line rest, split_lines s = line :: rest.
Proof.
  induction s as [|c s (line & rest & IH)]; cbn; [by eauto|].
  destruct (Ascii.eqb c "010"); [by eauto|]. rewrite IH. by eauto.
Qed.

Lemma split_lines_length (s : string) :
  length (split_lines s) = S (newlines s).
Proof.
  induction s as [|c s IH]; cbn; [done|].
  destruct (Ascii.eqb c "010"); cbn; [by rewrite IH|].
  destruct (split_lines s); cbn in *; done.
Qed.

Lemma join_split_lines (s : string) : join (split_lines s) = s.
Proof.
  induction s as [|c s IH]; cbn; [done|].
  destruct (Ascii.eqb_spec c "010") as [->|Hc].
  - destruct (split_lines_cons s) as (line & rest & E).
    cbn. rewrite E. rewrite E in IH. cbn [join] in *. by rewrite IH.
  - destruct (split_lines_cons s) as (line & rest & E).
    rewrite E in *. cbn [join] in *. destruct rest; cbn in *; by rewrite <- IH.
Qed.



















(** *** The text of a list of commands *)

Lemma textOf_app (a b : list Command) : textOf (a ++ b) = textOf a ++ textOf b.
Proof. apply omap_app. Qed.

Lemma textOf_concat (ls : list (list Command)) :
  textOf (concat ls) = concat (textOf <$> ls).
Proof.
  induction ls as [|l ls IH]; [done|]. cbn. by rewrite textOf_app, IH.
Qed.

Lemma textOf_fillText {A : Type} (t : nat -> A -> string) (x y : nat -> A -> float)
    (l : list A) :
  textOf (imap (fun i a => FillText (t i a) (x i a) (y i a)) l)
  = imap (fun i a => (t i a, x i a, y i a)) l.
Proof.
  revert t x y. induction l as [|a l IH]; intros t x y; [done|].
  exact (f_equal (cons (t 0%nat a, x 0%nat a, y 0%nat a))
           (IH (fun i => t (S i)) (fun i => x (S i)) (fun i => y (S i)))).
Qed.

Lemma fmap_imap {A B C : Type} (g : B -> C) (f : nat -> A -> B) (l : list A) :
  g <$> imap f l = imap (fun i a => g (f i a)) l.
Proof.
  revert f. induction l as [|a l IH]; intros f; [done|]. cbn. by rewrite IH.
Qed.



Lemma concat_imap_singleton {A B : Type} (f : nat -> A -> B) (l : list A) :
  concat (imap (fun i a => [ f i a ]) l) = imap f l.
Proof.
  revert f. induction l as [|a l IH]; intros f; [done|].
  cbn. f_equal. apply (IH (fun i => f (S i))).
Qed.

(** What [renderText] sends after the clearing, the font and the fill
    colour. *)
Lemma renderText_commands (layer : Layer) (w : World) (src : CanvasRef) (cvs : Canvas) :
  value (text layer) <> EmptyString ->
  source layer = Some src ->
  canvases w !! src = Some cvs ->
  let family :=
    if loadGoogleFont (font (text layer)) then font (text layer) else "Arial"%string in
  let lineHeight :=
    if JS.truthy (lineHeight (text layer)) then lineHeight (text layer)
    else size (text layer)
         + abs (actualBoundingBoxDescent (size (text layer)) family "Wq") in
  exists w',
    renderText layer w = Some w'
    /\ textOf (commands (canvasOf w' src))
       = textOf (commands cvs)
         ++ concat (imap (fun i line =>
                            let y := lineHeight + JS.of_nat i * lineHeight in
                            if JS.truthy (spacing (text layer))
                            then imap (fun j letter =>
                                         (letter, JS.of_nat j * spacing (text layer), y))
                                      (split_letters line)
                            else [ (line, 0, y) ])
                         (split_lines (value (text layer)))).
Proof.
  intros Hv Hsrc Hc. cbv zeta. unfold renderText.
  destruct (String.eqb_spec (value (text layer)) EmptyString); [done|].
  rewrite Hsrc. cbn [mbind option_bind].
  eexists. split; [reflexivity|].
  unfold canvasOf, drawOn, with_canvases; cbn [canvases].
  rewrite lookup_alter_eq. cbn [canvases]. rewrite Hc. cbn [fmap option_fmap option_map default draw commands].
  unfold Datatypes.id, draw. cbn [commands].
  rewrite !textOf_app, textOf_concat. cbn [textOf omap list_omap app].
  do 2 f_equal. rewrite fmap_imap. apply imap_ext. intros i line _. cbn beta.
  destruct (JS.truthy (spacing (text layer))); [|done].
  apply (textOf_fillText (fun _ letter => letter)).
Qed.


(** X7: for a text without letter spacing, [renderText] draws each line of
    the value with one [fillText], at the left edge and one line height
    below the line before; the line height is the custom one when that is
    truthy, else the font size plus the descent the context measures.
    The lines are the value cut at its line feeds: one more than there
    are line feeds, and joined by line feeds they give the value. *)
Theorem renderText_line_by_line (layer : Layer) (w : World) (src : CanvasRef)
    (cvs : Canvas) :
  value (text layer) <> EmptyString ->
  source layer = Some src ->
  canvases w !! src = Some cvs ->
  JS.truthy (spacing (text layer)) = false ->
  let family :=
    if loadGoogleFont (font (text layer)) then font (text layer) else "Arial"%string in
  let lineHeight :=
    if JS.truthy (lineHeight (text layer)) then lineHeight (text layer)
    else size (text layer)
         + abs (actualBoundingBoxDescent (size (text layer)) family "Wq") in
  exists w',
    renderText layer w = Some w'
    /\ textOf (commands (canvasOf w' src))
       = textOf (commands cvs)
         ++ imap (fun i line => (line, 0, lineHeight + JS.of_nat i * lineHeight))
                 (split_lines (value (text layer)))
    /\ length (split_lines (value (text layer))) = S (newlines (value (text layer)))
    /\ join (split_lines (value (text layer))) = value (text layer).
Proof.
  intros Hv Hsrc Hc Hspacing. cbv zeta.
  destruct (renderText_commands layer w src cvs Hv Hsrc Hc) as (w' & Hrun & Htext).
  exists w'. split; [exact Hrun|]. split; [|split].
  - rewrite Htext, Hspacing. f_equal.
    apply (concat_imap_singleton (fun i line => (line, 0, _))).
  - apply split_lines_length.
  - apply join_split_lines.
Qed.

End RenderFacts.

Section PipelineFacts.
Import DOM RenderService.
Context `{Browser} `{Sprites} `{ImageMath} `{FontService}.
Local Open Scope float_scope.

(** *** The transform renderer *)

Lemma renderMask_no_rotate (layer : Layer) (tX tY angle : float) :
  Rotate angle ∉ renderMask layer tX tY.
Proof.
  unfold renderMask. destruct (mask layer); [|by apply not_elem_of_nil].
  rewrite !not_elem_of_cons. repeat split; try done. apply not_elem_of_nil.
Qed.

(** What the code does: the rotation is sent to the context exactly when
    the flag [rotate], the test [( rotation % 360 ) !== 0], is set. *)
Lemma renderTransformedSource_rotates_iff (layer : Layer) (src : CanvasRef)
    (width height : float) (e : Effects) :
  Rotate (rotation e) ∈ renderTransformedSource layer src width height e
  <-> rotate (rotation e) = true.
Proof.
  unfold renderTransformedSource.
  destruct (rotate (rotation e)) eqn:R.
  - destruct (getRotationCenter _ _ _ _) as [x y].
    split; [done|]. intros _.
    rewrite !elem_of_app. right. left. rewrite !elem_of_cons. auto.
  - split; [|done]. cbn [app].
    rewrite !elem_of_cons, elem_of_app, elem_of_cons.
    intros [?|[?|[?|[?|[?|?]]]]]; try done; exfalso.
    + by eapply renderMask_no_rotate.
    + by eapply not_elem_of_nil.
Qed.

(** X2: what decides the rotation path in the code: the rotation is sent
    to the context exactly when [( rotation % 360 ) !== 0]; so it is not
    for the angles 0, 360, 720 and -360, and it is for [Math.PI],
    [2 * Math.PI] and 359.5. *)
Theorem rotation_path_iff_modulo_360 (layer : Layer) (src : CanvasRef)
    (width height : float) (e : Effects) :
  (Rotate (rotation e) ∈ renderTransformedSource layer src width height e
   <-> JS.strict_ne (JS.rem (rotation e) 360) 0 = true)
  /\ rotate 0 = false
  /\ rotate 360 = false
  /\ rotate 720 = false
  /\ rotate (-360) = false
  /\ rotate JS.PI = true
  /\ rotate (2 * JS.PI) = true
  /\ rotate 359.5 = true.
Proof.
  split; [apply renderTransformedSource_rotates_iff|]. repeat split; reflexivity.
Qed.

(** C1, at the failing inputs.  The rotation is an angle in radians (it
    is passed as it is to [ctx.rotate]), but the flag [rotate] tests it
    modulo 360.  For the angle 360, which is not a whole number of turns
    ([360 % ( 2 * Math.PI )] is not 0), the flag is not set and the source
    is drawn with no rotation; for one full turn, [2 * Math.PI], the flag
    is set and the rotation path is taken. *)
Theorem rotate_flag_tests_modulo_360 (layer : Layer) (src : CanvasRef)
    (width height : float) :
  mask layer = None ->
  (JS.strict_ne (JS.rem 360 (2 * JS.PI)) 0 = true
   /\ rotate 360 = false
   /\ renderTransformedSource layer src width height
        {| rotation := 360; mirrorX := false; mirrorY := false |}
      = [ Save; Scale 1 1; DrawImage src 0 0; Restore ])
  /\ (JS.strict_ne (JS.rem (2 * JS.PI) (2 * JS.PI)) 0 = false
      /\ rotate (2 * JS.PI) = true
      /\ Rotate (2 * JS.PI)
         ∈ renderTransformedSource layer src width height
             {| rotation := 2 * JS.PI; mirrorX := false; mirrorY := false |}).
Proof.
  intros Hmask. split; repeat split; try reflexivity.
  - unfold renderTransformedSource, renderMask. cbn [rotation mirrorX mirrorY].
    change (rotate 360) with false. by rewrite Hmask.
  - by apply (renderTransformedSource_rotates_iff layer src width height
                {| rotation := 2 * JS.PI; mirrorX := false; mirrorY := false |}).
Qed.

(** *** The pipeline *)

Lemma workingCanvas_frame (sprite : Sprite) (width height : float) (w : World) :
  let '(cvs, w') := workingCanvas sprite width height w in
  layers w' = layers w /\ sprites w' = sprites w
  /\ fontRequests w' = fontRequests w
  /\ extent w' cvs = (dimension width, dimension height).
Proof.
  unfold workingCanvas, createCanvas.
  destruct (_bitmap sprite); repeat split; apply extent_resized.
Qed.

(** C9: [renderEffectsForLayer] resolves, and every layer of the world
    it leaves is the layer it found, width and height included, whatever
    size [getRotatedSize] gives for the rotation.  When the layer has a
    sprite and a source, what changes is the sprite: it receives, through
    [setBitmap], a canvas and the rotated width and height, and that
    canvas has the rotated size; without a sprite or a source nothing
    changes at all. *)
Theorem renderEffectsForLayer_keeps_layer_size (ref : string) (w : World) :
  exists w',
    renderEffectsForLayer ref w = Some w'
    /\ layers w' = layers w
    /\ (forall layer, layers w !! ref = Some layer ->
          exists layer', layers w' !! ref = Some layer'
            /\ RenderService.width layer' = RenderService.width layer
            /\ RenderService.height layer' = RenderService.height layer)
    /\ (forall layer sprite src,
          layers w !! ref = Some layer ->
          getSpriteForLayer w layer = Some sprite ->
          source layer = Some src ->
          exists cvs,
            let size := getRotatedSize layer (rotation (effects layer)) in
            sprites w'
            = <[ id layer := invalidate (setBitmap sprite cvs size.1 size.2) ]> (sprites w)
            /\ extent w' cvs = (dimension size.1, dimension size.2))
    /\ (forall layer,
          layers w !! ref = Some layer ->
          getSpriteForLayer w layer = None \/ source layer = None ->
          w' = w).
Proof.
  unfold renderEffectsForLayer.
  destruct (layers w !! ref) as [layer|] eqn:Hl; [|by exists w].
  destruct (getSpriteForLayer w layer) as [sprite|] eqn:Hs.
  2: { exists w. split; [done|]. split; [done|].
       split; [intros ? [= <-]; by exists layer|].
       split; [|done]. intros ??? [= <-]. by rewrite Hs. }
  destruct (source layer) as [src|] eqn:Hsrc.
  2: { exists w. split; [done|]. split; [done|].
       split; [intros ? [= <-]; by exists layer|].
       split; [|done]. intros ??? [= <-] _. by rewrite Hsrc. }
  destruct (getRotatedSize layer (rotation (effects layer))) as [width height] eqn:Hsize.
  pose proof (workingCanvas_frame sprite width height w) as Hwc.
  destruct (workingCanvas sprite width height w) as [cvs w1].
  destruct Hwc as (Hl1 & Hs1 & _ & He1).
  assert (exists w2, (if is_text (type layer) then renderText layer w1 else Some w1) = Some w2
                     /\ layers w2 = layers w1 /\ sprites w2 = sprites w1
                     /\ forall c, extent w2 c = extent w1 c)
    as (w2 & -> & Hl2 & Hs2 & He2).
  { destruct (is_text (type layer)); [|by exists w1].
    destruct (renderText_total layer w1) as [w2 E]; [by rewrite Hsrc|].
    exists w2. split; [done|]. by apply renderText_frame in E. }
  cbn [mbind option_bind].
  set (w3 := if hasEffects layer then _ else _).
  assert (layers w3 = layers w2 /\ sprites w3 = sprites w2
          /\ forall c, extent w3 c = extent w2 c) as (Hl3 & Hs3 & He3).
  { unfold w3. destruct (hasEffects layer); repeat split; intros; apply extent_drawOn. }
  destruct (filterStage_frame cvs layer w3) as (Hl4 & Hs4 & _ & He4).
  eexists. split; [reflexivity|]. cbn [layers sprites].
  assert (Hlayers : layers (filterStage cvs layer w3) = layers w) by congruence.
  repeat split.
  - done.
  - intros layer0 [= <-]. exists layer. by rewrite Hlayers, Hl.
  - intros layer0 sprite0 src0 [= <-] Es Eo.
    rewrite Hs in Es. injection Es as <-. clear Eo.
    exists cvs. cbn zeta. rewrite Hsize. cbn [fst snd]. split.
    + f_equal. congruence.
    + unfold extent at 1, canvasOf. cbn [canvases].
      fold (canvasOf (filterStage cvs layer w3) cvs).
      fold (extent (filterStage cvs layer w3) cvs).
      by rewrite He4, He3, He2, He1.
  - intros layer0 [= <-] [E|E]; [by rewrite Hs in E|by rewrite Hsrc in E].
Qed.

Lemma renderEffectsForLayer_total (ref : string) (w : World) :
  is_Some (renderEffectsForLayer ref w).
Proof.
  unfold renderEffectsForLayer.
  destruct (layers w !! ref) as [layer|]; [|done].
  destruct (getSpriteForLayer w layer) as [sprite|]; [|done].
  destruct (source layer) as [src|] eqn:Hsrc; [|done].
  destruct (getRotatedSize layer (rotation (effects layer))) as [width height].
  destruct (workingCanvas sprite width height w) as [cvs w1].
  destruct (is_text (type layer)); [|done].
  destruct (renderText_total layer w1) as [w2 ->]; [by rewrite Hsrc|]. done.
Qed.

(** *** The drawing state *)

(** X9: [renderTransformedSource] leaves the drawing state of the context
    as it found it, for every layer, size and effects: what it scales,
    translates and rotates, and the composite operation of the mask, are
    undone by its [restore]s.  The layer's image is drawn under the
    composite operation the context had, and only the mask, after it,
    under ["destination-in"]. *)
Theorem renderTransformedSource_restores_state (layer : Layer) (src : CanvasRef)
    (width height : float) (effects : Effects) (ctx : Context) :
  let ops := renderTransformedSource layer src width height effects in
  run ops ctx = ctx
  /\ (fun p => (p.1, ctx_operation p.2)) <$> painted ops ctx
     = (src, ctx_operation (current ctx))
       :: match mask layer with
          | Some m => [ (m, "destination-in"%string) ]
          | None => []
          end
  /\ (forall tX tY, run (renderMask layer tX tY) ctx = ctx).
Proof.
  cbv zeta. unfold renderTransformedSource, renderMask.
  destruct ctx as [s saved]. destruct (rotate (rotation effects)).
  - destruct (getRotationCenter _ _ _ _) as [x y].
    destruct (mask layer); repeat split; reflexivity.
  - destruct (mask layer); repeat split; reflexivity.
Qed.

(** *** What the pipeline touches *)

Lemma canvases_drawOn_ne (c c' : CanvasRef) (ops : list Command) (w : World) :
  c <> c' -> canvases (drawOn c ops w) !! c' = canvases w !! c'.
Proof. intros. unfold drawOn, with_canvases; cbn. by rewrite lookup_alter_ne. Qed.

Lemma dom_canvases_drawOn (c : CanvasRef) (ops : list Command) (w : World) :
  dom (canvases (drawOn c ops w)) = dom (canvases w).
Proof. unfold drawOn, with_canvases; cbn. apply leibniz_equiv, dom_alter. Qed.

Lemma renderText_canvases (layer : Layer) (w w' : World) :
  renderText layer w = Some w' ->
  dom (canvases w') = dom (canvases w)
  /\ forall c, source layer <> Some c -> canvases w' !! c = canvases w !! c.
Proof.
  unfold renderText.
  destruct (String.eqb (value (text layer)) EmptyString); [by intros [= <-]|].
  destruct (source layer) as [src|]; [|done]. cbn [mbind option_bind].
  intros [= <-]. split.
  - by rewrite dom_canvases_drawOn.
  - intros c Hc. rewrite canvases_drawOn_ne; [done|congruence].
Qed.

Lemma filterStage_canvases (cvs : CanvasRef) (layer : Layer) (w : World) :
  dom (canvases (filterStage cvs layer w)) = dom (canvases w)
  /\ forall c, c <> cvs -> canvases (filterStage cvs layer w) !! c = canvases w !! c.
Proof.
  unfold filterStage. destruct (JS.truthy _); [|done].
  unfold renderFilters. split.
  - apply dom_canvases_drawOn.
  - intros c Hc. by rewrite canvases_drawOn_ne.
Qed.

(** The reference of the canvas the pipeline works on. *)
Lemma workingCanvas_canvases (sprite : Sprite) (width height : float) (w : World) :
  let cvs := match _bitmap sprite with
             | HTMLCanvasElement c => c
             | _ => fresh (dom (canvases w))
             end in
  (workingCanvas sprite width height w).1 = cvs
  /\ canvases (workingCanvas sprite width height w).2
     = <[ cvs := resized width height ]> (canvases w)
  /\ fontRequests (workingCanvas sprite width height w).2 = fontRequests w.
Proof.
  unfold workingCanvas, createCanvas. by destruct (_bitmap sprite).
Qed.

Lemma renderEffectsForLayer_inv (ref : string) (w w' : World) (layer : Layer)
    (sprite : Sprite) (src : CanvasRef) :
  layers w !! ref = Some layer ->
  getSpriteForLayer w layer = Some sprite ->
  source layer = Some src ->
  renderEffectsForLayer ref w = Some w' ->
  let cvs := match _bitmap sprite with
             | HTMLCanvasElement c => c
             | _ => fresh (dom (canvases w))
             end in
  let size := getRotatedSize layer (rotation (effects layer)) in
  dom (canvases w') = {[ cvs ]} ∪ dom (canvases w)
  /\ (forall c, c <> cvs -> (c = src -> is_text (type layer) = false) ->
        canvases w' !! c = canvases w !! c)
  /\ sprites w' = <[ id layer := invalidate (setBitmap sprite cvs size.1 size.2) ]> (sprites w)
  /\ layers w' = layers w
  /\ (is_text (type layer) = false -> fontRequests w' = fontRequests w).
Proof.
  intros Hl Hs Hsrc. unfold renderEffectsForLayer. rewrite Hl, Hs, Hsrc.
  destruct (getRotatedSize layer (rotation (effects layer))) as [width height].
  pose proof (workingCanvas_canvases sprite width height w) as Hwc.
  pose proof (workingCanvas_frame sprite width height w) as Hfr.
  destruct (workingCanvas sprite width height w) as [cvs w1].
  cbv zeta in Hwc. cbn [fst snd] in Hwc. destruct Hwc as (-> & Hc1 & Hf1).
  destruct Hfr as (Hl1 & Hs1 & _ & _).
  set (cvs := match _bitmap sprite with
              | HTMLCanvasElement c => c
              | _ => fresh (dom (canvases w))
              end) in *.
  destruct (if is_text (type layer) then renderText layer w1 else Some w1)
    as [w2|] eqn:Htext; [|done]. cbn [mbind option_bind].
  assert (dom (canvases w2) = dom (canvases w1)
          /\ (forall c, (c = src -> is_text (type layer) = false) ->
                canvases w2 !! c = canvases w1 !! c)
          /\ layers w2 = layers w1 /\ sprites w2 = sprites w1
          /\ (is_text (type layer) = false -> fontRequests w2 = fontRequests w1))
    as (Hd2 & Hc2 & Hl2 & Hs2 & Hf2).
  { destruct (is_text (type layer)).
    - destruct (renderText_canvases _ _ _ Htext) as [Hd Hc].
      destruct (renderText_frame _ _ _ Htext) as (? & ? & _).
      repeat split; try done. intros c Hne. apply Hc. rewrite Hsrc.
      intros [= <-]. by specialize (Hne eq_refl).
    - by injection Htext as <-. }
  set (w3 := if hasEffects layer then _ else _).
  assert (dom (canvases w3) = dom (canvases w2)
          /\ (forall c, c <> cvs -> canvases w3 !! c = canvases w2 !! c)
          /\ layers w3 = layers w2 /\ sprites w3 = sprites w2
          /\ fontRequests w3 = fontRequests w2)
    as (Hd3 & Hc3 & Hl3 & Hs3 & Hf3).
  { unfold w3. destruct (hasEffects layer);
      (repeat split; [apply dom_canvases_drawOn|intros; by apply canvases_drawOn_ne]). }
  destruct (filterStage_canvases cvs layer w3) as [Hd4 Hc4].
  destruct (filterStage_frame cvs layer w3) as (Hl4 & Hs4 & Hf4 & _).
  intros [= <-]. cbv zeta. cbn [canvases sprites layers fontRequests fst snd].
  repeat split.
  - rewrite Hd4, Hd3, Hd2, Hc1. apply leibniz_equiv, dom_insert.
  - intros c Hne Htxt. rewrite Hc4, Hc3, Hc2, Hc1 by done.
    by rewrite lookup_insert_ne.
  - f_equal. congruence.
  - congruence.
  - intros Htxt. rewrite Hf4, Hf3, Hf2, Hf1; done.
Qed.

(** X10: [renderEffectsForLayer] draws on the working canvas (the sprite's
    own canvas, or a new one when the sprite has none) and, for a text
    layer, on the layer's source, and on no other canvas: every other
    canvas of the store, the mask and the source of a bitmap layer among
    them, is left as it was, command for command.  At most one canvas is
    added to the store, none when the sprite has a canvas; no sprite but
    the layer's changes, and only a text layer asks for a font. *)
Theorem renderEffectsForLayer_touches_working_canvas (ref : string) (w w' : World)
    (layer : Layer) (sprite : Sprite) (src : CanvasRef) :
  layers w !! ref = Some layer ->
  getSpriteForLayer w layer = Some sprite ->
  source layer = Some src ->
  renderEffectsForLayer ref w = Some w' ->
  let cvs := match _bitmap sprite with
             | HTMLCanvasElement c => c
             | _ => fresh (dom (canvases w))
             end in
  dom (canvases w') = {[ cvs ]} ∪ dom (canvases w)
  /\ (forall c, _bitmap sprite = HTMLCanvasElement c ->
        is_Some (canvases w !! c) -> dom (canvases w') = dom (canvases w))
  /\ (forall c, c <> cvs -> (c = src -> is_text (type layer) = false) ->
        canvases w' !! c = canvases w !! c)
  /\ (forall m, mask layer = Some m -> m <> cvs -> m <> src ->
        canvases w' !! m = canvases w !! m)
  /\ (forall k, k <> id layer -> sprites w' !! k = sprites w !! k)
  /\ (is_text (type layer) = false -> fontRequests w' = fontRequests w).
Proof.
  intros Hl Hs Hsrc Hrun.
  destruct (renderEffectsForLayer_inv ref w w' layer sprite src Hl Hs Hsrc Hrun)
    as (Hdom & Hframe & Hsprites & _ & Hfonts).
  cbv zeta in *. repeat split.
  - exact Hdom.
  - intros c Hb Hc. rewrite Hdom, Hb.
    apply elem_of_dom in Hc. apply subseteq_union_1_L. by apply singleton_subseteq_l.
  - exact Hframe.
  - intros m _ Hm Hms. apply Hframe; [done|]. by intros ->.
  - intros k Hk. rewrite Hsprites. by rewrite lookup_insert_ne.
  - exact Hfonts.
Qed.

(** The drawing and the filter step read and write the canvases only. *)
Lemma canvases_drawOn_ext (c : CanvasRef) (ops : list Command) (a b : World) :
  canvases a = canvases b -> canvases (drawOn c ops a) = canvases (drawOn c ops b).
Proof. intros E. unfold drawOn, with_canvases; cbn. by rewrite E. Qed.

Lemma canvases_filterStage_ext (cvs : CanvasRef) (layer : Layer) (a b : World) :
  canvases a = canvases b ->
  canvases (filterStage cvs layer a) = canvases (filterStage cvs layer b).
Proof.
  intros E. unfold filterStage. destruct (JS.truthy _); [|done].
  unfold renderFilters, drawOn, with_canvases, canvasOf; cbn. by rewrite E.
Qed.

(** The canvases a run on a layer that is not a text layer leaves, from
    the canvases after the working canvas was sized. *)
Lemma renderEffectsForLayer_canvases (ref : string) (w w' : World) (layer : Layer)
    (sprite : Sprite) (src : CanvasRef) :
  layers w !! ref = Some layer ->
  getSpriteForLayer w layer = Some sprite ->
  source layer = Some src ->
  is_text (type layer) = false ->
  renderEffectsForLayer ref w = Some w' ->
  let size := getRotatedSize layer (rotation (effects layer)) in
  let w1 := (workingCanvas sprite size.1 size.2 w).2 in
  let cvs := (workingCanvas sprite size.1 size.2 w).1 in
  canvases w'
  = canvases (filterStage cvs layer
                (if hasEffects layer
                 then drawOn cvs (renderTransformedSource layer src size.1 size.2
                                    (effects layer)) w1
                 else drawOn cvs [ DrawImage src 0 0 ] w1)).
Proof.
  intros Hl Hs Hsrc Htext. unfold renderEffectsForLayer. rewrite Hl, Hs, Hsrc, Htext.
  destruct (getRotatedSize layer (rotation (effects layer))) as [width height].
  cbv zeta. cbn [fst snd].
  destruct (workingCanvas sprite width height w) as [cvs w1]. cbn [mbind option_bind fst snd].
  by intros [= <-].
Qed.

(** X11: when the sprites keep the canvas [setBitmap] gives them, the
    second of two runs of [renderEffectsForLayer] on a layer works on the
    canvas of the first: it adds no canvas to the store, and the sprite
    keeps that canvas as its bitmap.  The two runs together add at most
    one canvas.  For a layer that is not a text layer the second run
    leaves every canvas, the working canvas included, with the size and
    the commands the first run left: rendering twice is rendering
    once. *)
Theorem renderEffectsForLayer_reuses_canvas (ref : string) (w w' w'' : World)
    (layer : Layer) (sprite : Sprite) (src : CanvasRef) :
  (forall s c width height,
     _bitmap (invalidate (setBitmap s c width height)) = HTMLCanvasElement c) ->
  layers w !! ref = Some layer ->
  getSpriteForLayer w layer = Some sprite ->
  source layer = Some src ->
  renderEffectsForLayer ref w = Some w' ->
  renderEffectsForLayer ref w' = Some w'' ->
  let cvs := match _bitmap sprite with
             | HTMLCanvasElement c => c
             | _ => fresh (dom (canvases w))
             end in
  dom (canvases w'') = dom (canvases w')
  /\ dom (canvases w'') = {[ cvs ]} ∪ dom (canvases w)
  /\ _bitmap <$> getSpriteForLayer w' layer = Some (HTMLCanvasElement cvs)
  /\ _bitmap <$> getSpriteForLayer w'' layer = Some (HTMLCanvasElement cvs)
  /\ (is_text (type layer) = false -> canvases w'' = canvases w').
Proof.
  intros Hlib Hl Hs Hsrc Hrun Hrun'.
  destruct (renderEffectsForLayer_inv ref w w' layer sprite src Hl Hs Hsrc Hrun)
    as (Hdom & Hframe & Hsprites & Hlayers & _).
  cbv zeta in *.
  set (cvs := match _bitmap sprite with
              | HTMLCanvasElement c => c
              | _ => fresh (dom (canvases w))
              end) in *.
  set (size := getRotatedSize layer (rotation (effects layer))) in *.
  assert (Hs' : getSpriteForLayer w' layer
                = Some (invalidate (setBitmap sprite cvs size.1 size.2))).
  { unfold getSpriteForLayer. rewrite Hsprites. apply lookup_insert_eq. }
  assert (Hl' : layers w' !! ref = Some layer) by (by rewrite Hlayers).
  destruct (renderEffectsForLayer_inv ref w' w'' layer _ src Hl' Hs' Hsrc Hrun')
    as (Hdom' & _ & Hsprites' & _).
  cbv zeta in *. rewrite Hlib in Hdom', Hsprites'.
  assert (E : dom (canvases w'') = dom (canvases w')).
  { rewrite Hdom', Hdom. by rewrite (assoc_L (∪)), (idemp_L (∪)). }
  split; [exact E|]. split; [by rewrite E|].
  split; [rewrite Hs'; cbn; by rewrite Hlib|].
  split; [unfold getSpriteForLayer; rewrite Hsprites', lookup_insert_eq; cbn;
          by rewrite Hlib|].
  intros Htext.
  rewrite (renderEffectsForLayer_canvases ref w' w'' layer _ src Hl' Hs' Hsrc Htext Hrun').
  rewrite (renderEffectsForLayer_canvases ref w w' layer sprite src Hl Hs Hsrc Htext Hrun).
  cbv zeta. fold size.
  destruct (workingCanvas_canvases sprite size.1 size.2 w) as (Hc & Hw & _).
  destruct (workingCanvas_canvases (invalidate (setBitmap sprite cvs size.1 size.2))
              size.1 size.2 w') as (Hc' & Hw' & _).
  cbv zeta in *. rewrite Hlib in Hc', Hw'. fold cvs in Hc, Hw.
  rewrite Hc, Hc'.
  assert (Hsame : canvases (workingCanvas (invalidate (setBitmap sprite cvs size.1 size.2))
                              size.1 size.2 w').2
                  = canvases (workingCanvas sprite size.1 size.2 w).2).
  { rewrite Hw, Hw'. apply map_eq. intros c.
    destruct (decide (c = cvs)) as [->|Hne].
    - by rewrite !lookup_insert_eq.
    - rewrite !lookup_insert_ne by done. apply Hframe; [done|]. by intros _. }
  apply canvases_filterStage_ext.
  destruct (hasEffects layer); by apply canvases_drawOn_ext.
Qed.

(** *** Without effects and filters *)

(** X24: a bitmap layer without mask, rotation, mirroring and filters is
    copied as it is: after [renderEffectsForLayer] the working canvas has
    the size of the layer as [getRotatedSize] gives it and holds one
    command, the drawing of the layer's source at the origin; whatever
    the sprite's canvas showed before is gone.  The effects [create]
    gives by default and the filters [levels: 0, contrast: 0] are such
    effects and filters. *)
Theorem unaffected_layer_is_copied (ref : string) (w w' : World) (layer : Layer)
    (sprite : Sprite) (src : CanvasRef) :
  layers w !! ref = Some layer ->
  getSpriteForLayer w layer = Some sprite ->
  source layer = Some src ->
  is_text (type layer) = false ->
  hasEffects layer = false ->
  JS.truthy (hasFilters layer) = false ->
  renderEffectsForLayer ref w = Some w' ->
  let cvs := match _bitmap sprite with
             | HTMLCanvasElement c => c
             | _ => fresh (dom (canvases w))
             end in
  let size := getRotatedSize layer (rotation (effects layer)) in
  canvases w' !! cvs
  = Some {| DOM.width := dimension size.1; DOM.height := dimension size.2;
            commands := [ DrawImage src 0 0 ] |}
  /\ (forall l : Layer,
        effects l = EffectFactory.create None -> mask l = None -> hasEffects l = false)
  /\ (forall l : Layer,
        filters l = {| levels := 0; contrast := 0 |} -> JS.truthy (hasFilters l) = false).
Proof.
  intros Hl Hs Hsrc Htext Heffects Hfilters Hrun. cbv zeta.
  split; [|split].
  - rewrite (renderEffectsForLayer_canvases ref w w' layer sprite src Hl Hs Hsrc Htext Hrun).
    cbv zeta. rewrite Heffects. unfold filterStage. rewrite Hfilters.
    destruct (workingCanvas_canvases sprite
                (getRotatedSize layer (rotation (effects layer))).1
                (getRotatedSize layer (rotation (effects layer))).2 w) as (Hc & Hw & _).
    cbv zeta in *. rewrite Hc. unfold drawOn, with_canvases. cbn [canvases].
    rewrite Hw, lookup_alter_eq, lookup_insert_eq. reflexivity.
  - intros l He Hm. unfold hasEffects. rewrite Hm, He. reflexivity.
  - intros l Hf. unfold hasFilters. by rewrite Hf.
Qed.
End PipelineFacts.

(** ** Snapshots of a document *)

Section SnapshotFacts.
Import DOM RenderService.
Context `{Browser} `{Sprites} `{ImageMath} `{FontService} `{!Exporter}.
Local Open Scope float_scope.





End SnapshotFacts.

(** ** The zoomable canvas *)

Section ZoomFacts.
Import ZoomableCanvas.
Context {W : Type} `{!@Library W}.
Local Open Scope float_scope.
Local Abbreviation Sprite := (@ZoomableCanvas.Sprite W).
Local Abbreviation Canvas := (@ZoomableCanvas.Canvas W).

(** *** Rescaling *)

Lemma scrollRatio_quotient (offset scroll : float) :
  JS.truthy (offset / scroll) = true -> scrollRatio offset scroll = offset / scroll.
Proof. apply or_else_truthy. Qed.

Lemma scrollRatio_default (offset scroll : float) :
  JS.truthy (offset / scroll) = false -> scrollRatio offset scroll = 0.5.
Proof. apply or_else_falsy. Qed.

(** An unscrolled axis is centred, whatever there is to scroll. *)
Lemma scrollRatio_unscrolled (offset scroll : float) :
  is_zero offset = true -> scrollRatio offset scroll = 0.5.
Proof. intros Hz. apply scrollRatio_default. by apply zero_div_falsy. Qed.

(** C3, as amended: [setDocumentScale] sizes the canvas, sets the zoom
    factor, and pans the viewport to
    [(newScrollWidth * ratioX, newScrollHeight * ratioY)], the scroll
    extents being taken at the new canvas size with the viewport size read
    before.  [ratioX] is the quotient
    [viewport.left / (oldTotalWidth - viewportWidth)] whenever that
    quotient is truthy (a number other than zero), and 0.5 whenever it is
    zero or [NaN]; so it is 0.5 whenever [viewport.left] is zero, also when
    the denominator is not.  [ratioY] likewise on the vertical axis. *)
Theorem setDocumentScale_pans_by_ratio (c : Canvas) (v : Viewport)
    (targetWidth targetHeight scale zoom : float) (activeDocument : option Document) :
  _viewport c = Some v ->
  let quotientX := left v / (_width c - width v) in
  let quotientY := top v / (_height c - height v) in
  let ratioX := scrollRatio (left v) (_width c - width v) in
  let ratioY := scrollRatio (top v) (_height c - height v) in
  let sized := setZoomFactor (setDimensions c targetWidth targetHeight true true)
                 (scale * zoom) in
  let panned := panViewport sized ((_width sized - width v) * ratioX)
                  ((_height sized - height v) * ratioY) true in
  setDocumentScale c targetWidth targetHeight scale zoom activeDocument
  = Some match activeDocument with
         | Some d => set_documentScale (doc_width d / _width panned) panned
         | None => panned
         end
  /\ (JS.truthy quotientX = true -> ratioX = quotientX)
  /\ (JS.truthy quotientX = false -> ratioX = 0.5)
  /\ (is_zero (left v) = true -> ratioX = 0.5)
  /\ (JS.truthy quotientY = true -> ratioY = quotientY)
  /\ (JS.truthy quotientY = false -> ratioY = 0.5)
  /\ (is_zero (top v) = true -> ratioY = 0.5).
Proof.
  intros Hv. cbv zeta. split.
  - unfold setDocumentScale. rewrite Hv. by destruct v.
  - repeat split;
      auto using scrollRatio_quotient, scrollRatio_default, scrollRatio_unscrolled.
Qed.

(** *** Dispatch along the sibling links *)

Lemma dispatchMouse_unfold (theChild : Sprite) (x y : float) (aEvent : Event) (w : W) :
  dispatchMouse theChild x y aEvent w
  = let '(found, w) := child_handleInteraction theChild x y aEvent w in
    let call := {| callee := theChild; call_x := x; call_y := y |} in
    if found then ([ call ], w)
    else match last theChild with
         | Some prev =>
             let '(calls, w) := dispatchMouse prev x y aEvent w in
             (call :: calls, w)
         | None => ([ call ], w)
         end.
Proof. by destruct theChild. Qed.

Lemma dispatchTouch_unfold (theChild : Sprite) (x y : float) (aEvent : Event) (w : W) :
  dispatchTouch theChild x y aEvent w
  = let '(_, w) := child_handleInteraction theChild x y aEvent w in
    let call := {| callee := theChild; call_x := x; call_y := y |} in
    match last theChild with
    | Some prev =>
        let '(calls, w) := dispatchTouch prev x y aEvent w in
        (call :: calls, w)
    | None => ([ call ], w)
    end.
Proof. by destruct theChild. Qed.

(** Following the [last] links from the topmost child visits the
    children from the top down. *)
Lemma dispatchMouse_chained (below : list Sprite) (theChild : Sprite)
    (x y : float) (aEvent : Event) (w : W) :
  chained (theChild :: below) ->
  dispatchMouse theChild x y aEvent w
  = visitUntilHandled (theChild :: below) x y aEvent w.
Proof.
  revert theChild w. induction below as [|prev below IH]; intros theChild w [Hlast Hrest];
    rewrite dispatchMouse_unfold; cbn [visitUntilHandled];
    destruct (child_handleInteraction theChild x y aEvent w) as [[|] w1];
    try done; rewrite Hlast; cbn [head]; [done|].
  by rewrite (IH prev w1 Hrest).
Qed.

Lemma dispatchTouch_chained (below : list Sprite) (theChild : Sprite)
    (x y : float) (aEvent : Event) (w : W) :
  chained (theChild :: below) ->
  dispatchTouch theChild x y aEvent w
  = visitAll (theChild :: below) x y aEvent w.
Proof.
  revert theChild w. induction below as [|prev below IH]; intros theChild w [Hlast Hrest];
    rewrite dispatchTouch_unfold; cbn [visitAll];
    destruct (child_handleInteraction theChild x y aEvent w) as [found w1];
    rewrite Hlast; cbn [head]; [done|].
  by rewrite (IH prev w1 Hrest).
Qed.

(** [this._children[ numChildren - 1 ]] is the first child from the
    top. *)
Lemma topmost_child (children : list Sprite) :
  children !! (length children - 1)%nat = head (reverse children).
Proof.
  rewrite head_reverse, last_lookup. f_equal. lia.
Qed.

Lemma visitUntilHandled_prefix (order : list Sprite) (x y : float) (aEvent : Event) (w : W) :
  map callee (visitUntilHandled order x y aEvent w).1 `prefix_of` order.
Proof.
  revert w. induction order as [|s rest IH]; intros w; cbn; [done|].
  destruct (child_handleInteraction s x y aEvent w) as [[|] w1]; cbn.
  - apply prefix_cons, prefix_nil.
  - specialize (IH w1). destruct (visitUntilHandled rest x y aEvent w1). cbn.
    by apply prefix_cons.
Qed.

Lemma visitUntilHandled_coordinates (order : list Sprite) (x y : float)
    (aEvent : Event) (w : W) :
  Forall (fun call => call_x call = x /\ call_y call = y)
         (visitUntilHandled order x y aEvent w).1.
Proof.
  revert w. induction order as [|s rest IH]; intros w; cbn; [done|].
  destruct (child_handleInteraction s x y aEvent w) as [[|] w1]; cbn.
  - by repeat constructor.
  - specialize (IH w1). destruct (visitUntilHandled rest x y aEvent w1). cbn.
    by constructor.
Qed.

Lemma visitAll_callees (order : list Sprite) (x y : float) (aEvent : Event) (w : W) :
  map callee (visitAll order x y aEvent w).1 = order.
Proof.
  revert w. induction order as [|s rest IH]; intros w; cbn; [done|].
  destruct (child_handleInteraction s x y aEvent w) as [found w1]; cbn.
  specialize (IH w1). destruct (visitAll rest x y aEvent w1). cbn in *. by f_equal.
Qed.

Lemma visitAll_coordinates (order : list Sprite) (x y : float) (aEvent : Event) (w : W) :
  Forall (fun call => call_x call = x /\ call_y call = y)
         (visitAll order x y aEvent w).1.
Proof.
  revert w. induction order as [|s rest IH]; intros w; cbn; [done|].
  destruct (child_handleInteraction s x y aEvent w) as [found w1]; cbn.
  specialize (IH w1). destruct (visitAll rest x y aEvent w1). cbn in *. by constructor.
Qed.

(** *** Input translation *)

(** In binary64 the translated coordinate is halved exactly when the
    zoom factor is doubled, away from the ends of the exponent range. *)
Lemma toDocument_doubled_zoom (offset : float) (origin : option float) (z : float) :
  JS.magnitude_between 0x1p-1022 0x1p+1022 z = true ->
  JS.magnitude_between 0x1p-1019 0x1.fffffffffffffp+1023
    (toDocument offset origin z) = true ->
  toDocument offset origin (2 * z) = toDocument offset origin z / 2.
Proof. unfold toDocument. apply div_double. Qed.

(** C7, as amended: for a mouse event ([mousedown], [mousemove],
    [mouseup]) on a canvas whose children are linked as the library links
    them, the handlers are called with the coordinate ([offset + viewport
    offset], divided by the zoom factor, on each axis, in binary64), from
    the topmost child down, and no child below the first that reports the
    event handled is called.  With a zero viewport offset a pointer on the
    origin translates to zero for every zoom factor other than 0 and
    [NaN] (and to [NaN] for these) and stays what it is when the zoom
    factor is doubled; and doubling the zoom factor halves every
    coordinate exactly, for every zoom factor that is a normal number up
    to [2^1022] and every coordinate that is finite and at least
    [2^-1019] in magnitude.  For other ratios of zoom factors the
    coordinate is the rounded quotient, and nothing more is said of it. *)
Theorem mouse_event_dispatch (c : Canvas) (aEvent : Event) (w : W) :
  is_mouse (type aEvent) = true ->
  linked (_children c) ->
  let x := toDocument (offsetX aEvent) (left <$> _viewport c) (zoomFactor c) in
  let y := toDocument (offsetY aEvent) (top <$> _viewport c) (zoomFactor c) in
  let visit := visitUntilHandled (reverse (_children c)) x y aEvent w in
  (exists o, handleInteraction c aEvent w = Some o
             /\ calls o = visit.1 /\ world o = visit.2)
  /\ map callee visit.1 `prefix_of` reverse (_children c)
  /\ Forall (fun call => call_x call = x /\ call_y call = y) visit.1
  /\ (forall v, _viewport c = Some v ->
        x = (offsetX aEvent + left v) / zoomFactor c
        /\ y = (offsetY aEvent + top v) / zoomFactor c)
  /\ (forall z : float, JS.truthy (toDocument 0 (Some 0) z) = false)
  /\ (forall z : float, is_zero (toDocument 0 (Some 0) z) = JS.truthy z)
  /\ (forall z : float, toDocument 0 (Some 0) (2 * z) = toDocument 0 (Some 0) z / 2)
  /\ (forall (offset : float) (origin : option float) (z : float),
        JS.magnitude_between 0x1p-1022 0x1p+1022 z = true ->
        JS.magnitude_between 0x1p-1019 0x1.fffffffffffffp+1023
          (toDocument offset origin z) = true ->
        toDocument offset origin (2 * z) = toDocument offset origin z / 2).
Proof.
  intros Hmouse Hlinked. cbv zeta.
  split; [|split; [apply visitUntilHandled_prefix|
           split; [apply visitUntilHandled_coordinates|
           split; [|split; [|split; [|split]]]]]].
  - unfold handleInteraction. rewrite topmost_child.
    unfold linked in Hlinked.
    destruct (reverse (_children c)) as [|theChild below]; cbn [head].
    + cbn. eauto.
    + rewrite Hmouse. rewrite (dispatchMouse_chained below); [|done].
      destruct (visitUntilHandled _ _ _ _ _). cbn. eauto.
  - intros v Hv. by rewrite Hv.
  - intros z. by apply zero_div_falsy.
  - intros z. unfold toDocument. by apply zero_div_is_zero.
  - intros z. unfold toDocument. by apply zero_div_double.
  - intros. by apply toDocument_doubled_zoom.
Qed.

(** C8, as amended: for a touch event (any event that is neither a mouse
    event nor a wheel event) the page coordinate of the first touch (of
    [touches], or of [changedTouches] when [touches] is empty) has the
    position of the canvas on the page, less the viewport offset,
    subtracted and is divided by the zoom factor; no other touch is
    translated, and an event without touches gives the origin.  Every
    child's handler is called with that coordinate, from the topmost child
    down, whatever the handlers report. *)
Theorem touch_event_dispatch (c : Canvas) (aEvent : Event) (w : W) :
  is_mouse (type aEvent) = false ->
  type aEvent <> "wheel"%string ->
  linked (_children c) ->
  let '(x, y) := touchCoordinates c aEvent in
  let visit := visitAll (reverse (_children c)) x y aEvent w in
  (exists o, handleInteraction c aEvent w = Some o
             /\ calls o = visit.1 /\ world o = visit.2)
  /\ map callee visit.1 = reverse (_children c)
  /\ Forall (fun call => call_x call = x /\ call_y call = y) visit.1
  /\ (forall t rest v,
        activeTouches aEvent = t :: rest -> _viewport c = Some v ->
        x = (pageX t - ((getCoordinate c).1 - left v)) / zoomFactor c
        /\ y = (pageY t - ((getCoordinate c).2 - top v)) / zoomFactor c)
  /\ (activeTouches aEvent = [] -> x = 0 /\ y = 0).
Proof.
  intros Hmouse Hwheel%String.eqb_neq Hlinked.
  destruct (touchCoordinates c aEvent) as [x y] eqn:Hxy. cbv zeta.
  split; [|split; [apply visitAll_callees|split; [apply visitAll_coordinates|]]].
  - unfold handleInteraction. rewrite topmost_child.
    unfold linked in Hlinked.
    destruct (reverse (_children c)) as [|theChild below]; cbn [head].
    + cbn. eauto.
    + rewrite Hmouse, Hwheel, Hxy.
      rewrite (dispatchTouch_chained below); [|done].
      destruct (visitAll _ _ _ _ _). cbn. eauto.
  - unfold touchCoordinates in Hxy. split.
    + intros t rest v Ht Hv. rewrite Ht, Hv in Hxy.
      destruct (getCoordinate c) as [cx cy]. by injection Hxy as <- <-.
    + intros Ht. rewrite Ht in Hxy. by injection Hxy as <- <-.
Qed.

Lemma wheelSpeed_values (delta : float) :
  wheelSpeed delta = 0 \/ wheelSpeed delta = 20 \/ wheelSpeed delta = -20.
Proof.
  unfold wheelSpeed. destruct (JS.strict_eq delta 0); [auto|].
  destruct (0 <? delta); auto.
Qed.

(** X3: a wheel event on a canvas with a viewport and at least one child
    pans the viewport by a fixed step on each axis, 0, 20 or -20 with the
    sign of the wheel delta and whatever its size, and calls no child;
    without children the viewport is not panned. *)
Theorem wheel_event_pans_fixed_step (c : Canvas) (aEvent : Event) (w : W) (v : Viewport) :
  type aEvent = "wheel"%string ->
  _viewport c = Some v ->
  let aEvent' :=
    if _preventDefaults c then preventDefault (stopPropagation aEvent) else aEvent in
  handleInteraction c aEvent w
  = Some {| canvas :=
              invalidate
                (if bool_decide (_children c = []) then c
                 else panViewport c (left v + wheelSpeed (deltaX aEvent))
                        (top v + wheelSpeed (deltaY aEvent)) true);
            world := w; event := aEvent'; calls := [] |}
  /\ (wheelSpeed (deltaX aEvent) = 0 \/ wheelSpeed (deltaX aEvent) = 20
      \/ wheelSpeed (deltaX aEvent) = -20)
  /\ (wheelSpeed (deltaY aEvent) = 0 \/ wheelSpeed (deltaY aEvent) = 20
      \/ wheelSpeed (deltaY aEvent) = -20)
  /\ wheelSpeed 0.25 = 20 /\ wheelSpeed 120 = 20
  /\ wheelSpeed (-3) = -20 /\ wheelSpeed 0 = 0.
Proof.
  intros Htype Hv. cbv zeta.
  split; [|split; [apply wheelSpeed_values|split; [apply wheelSpeed_values|]]].
  - unfold handleInteraction. rewrite topmost_child, Htype, Hv.
    destruct (_children c) as [|first rest] eqn:Hc using rev_ind.
    + reflexivity.
    + rewrite reverse_snoc. cbn [head]. rewrite bool_decide_eq_false_2; [done|].
      by destruct rest.
  - repeat split; reflexivity.
Qed.

(** *** Failure and the event *)

(** X14: [handleInteraction] throws in one case only: a wheel event on a
    canvas that has children and no viewport (it reads [viewport.left]).
    Every mouse and touch event, and every event on a canvas without
    children, is handled to the end. *)
Theorem handleInteraction_fails_iff (c : Canvas) (aEvent : Event) (w : W) :
  handleInteraction c aEvent w = None
  <-> type aEvent = "wheel"%string /\ _viewport c = None /\ _children c <> [].
Proof.
  unfold handleInteraction. rewrite topmost_child.
  destruct (_children c) as [|first rest] eqn:Hc using rev_ind.
  - cbn. split; [done|]. by intros (_ & _ & ?).
  - rewrite reverse_snoc. cbn [head].
    destruct (is_mouse (type aEvent)) eqn:Hm.
    + destruct (dispatchMouse _ _ _ _ _). cbn. split; [done|].
      intros (E & _). by rewrite E in Hm.
    + destruct (String.eqb_spec (type aEvent) "wheel") as [E|E].
      * destruct (_viewport c); cbn; split; try done.
        -- by intros (_ & ? & _).
        -- intros _. repeat split; [done|]. by destruct rest.
      * destruct (touchCoordinates c aEvent). destruct (dispatchTouch _ _ _ _ _). cbn.
        split; [done|]. by intros (? & _).
Qed.

(** X15: whatever the event and whether or not a child handled it, a canvas
    that prevents defaults stops the propagation of the event and
    prevents its default, and changes nothing else of it; a canvas that
    does not leaves the event alone.  The canvas is invalidated, and,
    unless the event is a wheel event, neither panned nor sized. *)
Theorem handleInteraction_stops_event (c : Canvas) (aEvent : Event) (w : W)
    (o : Outcome) :
  handleInteraction c aEvent w = Some o ->
  event o = (if _preventDefaults c then preventDefault (stopPropagation aEvent)
             else aEvent)
  /\ propagationStopped (event o) = _preventDefaults c || propagationStopped aEvent
  /\ defaultPrevented (event o) = _preventDefaults c || defaultPrevented aEvent
  /\ (type (event o), offsetX (event o), offsetY (event o), touches (event o),
      changedTouches (event o), deltaX (event o), deltaY (event o))
     = (type aEvent, offsetX aEvent, offsetY aEvent, touches aEvent,
        changedTouches aEvent, deltaX aEvent, deltaY aEvent)
  /\ (type aEvent <> "wheel"%string -> canvas o = invalidate c)
  /\ (_children c = [] -> canvas o = invalidate c /\ calls o = [] /\ world o = w).
Proof.
  unfold handleInteraction. rewrite topmost_child.
  set (aEvent' := if _preventDefaults c then _ else _).
  assert (Hflags : propagationStopped aEvent' = _preventDefaults c || propagationStopped aEvent
                   /\ defaultPrevented aEvent' = _preventDefaults c || defaultPrevented aEvent
                   /\ (type aEvent', offsetX aEvent', offsetY aEvent', touches aEvent',
                       changedTouches aEvent', deltaX aEvent', deltaY aEvent')
                      = (type aEvent, offsetX aEvent, offsetY aEvent, touches aEvent,
                         changedTouches aEvent, deltaX aEvent, deltaY aEvent)).
  { unfold aEvent'. by destruct (_preventDefaults c). }
  destruct Hflags as (Hp & Hd & Hrest).
  destruct (_children c) as [|first rest] eqn:Hc using rev_ind.
  - cbn. intros [= <-]. cbn. by repeat split.
  - rewrite reverse_snoc. cbn [head].
    destruct (is_mouse (type aEvent)) eqn:Hm.
    + destruct (dispatchMouse _ _ _ _ _). cbn. intros [= <-]. cbn.
      repeat split; try done; by destruct rest.
    + destruct (String.eqb_spec (type aEvent) "wheel") as [E|E].
      * destruct (_viewport c); cbn; [|done]. intros [= <-]. cbn.
        repeat split; try done; by destruct rest.
      * destruct (touchCoordinates c aEvent). destruct (dispatchTouch _ _ _ _ _). cbn.
        intros [= <-]. cbn. repeat split; try done; by destruct rest.
Qed.

(** *** The zoom factor 1 *)

(** X19: at the zoom factor 1, the factor of a new canvas, the translation of
    coordinates is exact in binary64: a mouse offset is moved by the
    viewport offset and a touch by the position of the canvas, and
    nothing is rounded by the division; the viewport [render] hands to
    the sprites is the viewport of the canvas.  The handlers of the
    children are called with these coordinates. *)
Theorem unit_zoom_is_exact (c : Canvas) (aEvent : Event) (w : W) :
  zoomFactor c = 1 ->
  let x := match _viewport c with
           | Some v => offsetX aEvent + left v
           | None => offsetX aEvent
           end in
  let y := match _viewport c with
           | Some v => offsetY aEvent + top v
           | None => offsetY aEvent
           end in
  toDocument (offsetX aEvent) (left <$> _viewport c) (zoomFactor c) = x
  /\ toDocument (offsetY aEvent) (top <$> _viewport c) (zoomFactor c) = y
  /\ (forall page at_ : float,
        touchToDocument page at_ (left <$> _viewport c) (zoomFactor c)
        = page - match _viewport c with
                 | Some v => at_ - left v
                 | None => at_
                 end)
  /\ zoomedViewport c = _viewport c
  /\ (is_mouse (type aEvent) = true -> linked (_children c) ->
      exists o, handleInteraction c aEvent w = Some o
                /\ Forall (fun call => call_x call = x /\ call_y call = y) (calls o))
  /\ (forall base : Canvas,
        zoomFactor (contextScale 1 1 (set_zoomFactor 1 (set_documentScale 1 base))) = 1
        /\ constructor base
           = invalidate (contextScale 1 1 (set_zoomFactor 1 (set_documentScale 1 base)))).
Proof.
  intros Hz. cbv zeta. rewrite Hz.
  assert (Hx : forall offset : float, forall field : Viewport -> float,
             toDocument offset (field <$> _viewport c) 1
             = match _viewport c with
               | Some v => offset + field v
               | None => offset
               end).
  { intros offset field. unfold toDocument.
    rewrite div_one. by destruct (_viewport c). }
  split; [apply Hx|]. split; [apply Hx|]. split; [|split; [|split]].
  - intros page at_. unfold touchToDocument.
    rewrite div_one. by destruct (_viewport c).
  - unfold zoomedViewport. rewrite Hz. destruct (_viewport c) as [[l t wd h]|]; [|done].
    cbn. by rewrite !div_one.
  - intros Hmouse Hlinked. unfold handleInteraction. rewrite topmost_child.
    unfold linked in Hlinked.
    destruct (reverse (_children c)) as [|theChild below]; cbn [head].
    + cbn. eexists. split; [reflexivity|]. by constructor.
    + rewrite Hmouse, Hz, !Hx. rewrite (dispatchMouse_chained below); [|done].
      pose proof (visitUntilHandled_coordinates (theChild :: below)
                    (match _viewport c with
                     | Some v => offsetX aEvent + left v
                     | None => offsetX aEvent
                     end)
                    (match _viewport c with
                     | Some v => offsetY aEvent + top v
                     | None => offsetY aEvent
                     end) aEvent w) as Hcalls.
      destruct (visitUntilHandled _ _ _ _ _). cbn. eexists. split; [reflexivity|].
      exact Hcalls.
  - intros base. split; reflexivity.
Qed.

(** *** A centred viewport *)

(** X20: a viewport that sits at half the scroll extent on both axes is
    panned to half the new scroll extent: [setDocumentScale] keeps a
    centred view centred, for every scroll extent that is zero or at
    least [2^-1021] in magnitude (the quotient of the offset and the
    extent is then a half exactly, or [NaN], for which the half is the
    default). *)
Theorem setDocumentScale_keeps_centre (c : Canvas) (v : Viewport)
    (targetWidth targetHeight scale zoom : float) (activeDocument : option Document) :
  _viewport c = Some v ->
  left v = (_width c - width v) * 0.5 ->
  top v = (_height c - height v) * 0.5 ->
  (0x1p-1021 <=? abs (_width c - width v)) = true
    \/ JS.truthy (_width c - width v) = false ->
  (0x1p-1021 <=? abs (_height c - height v)) = true
    \/ JS.truthy (_height c - height v) = false ->
  let sized := setZoomFactor (setDimensions c targetWidth targetHeight true true)
                 (scale * zoom) in
  let panned := panViewport sized ((_width sized - width v) * 0.5)
                  ((_height sized - height v) * 0.5) true in
  scrollRatio (left v) (_width c - width v) = 0.5
  /\ scrollRatio (top v) (_height c - height v) = 0.5
  /\ setDocumentScale c targetWidth targetHeight scale zoom activeDocument
     = Some match activeDocument with
            | Some d => set_documentScale (doc_width d / _width panned) panned
            | None => panned
            end.
Proof.
  intros Hv Hleft Htop Hw Hh. cbv zeta.
  assert (Hx : scrollRatio (left v) (_width c - width v) = 0.5).
  { rewrite Hleft. by apply half_ratio. }
  assert (Hy : scrollRatio (top v) (_height c - height v) = 0.5).
  { rewrite Htop. by apply half_ratio. }
  split; [exact Hx|]. split; [exact Hy|].
  unfold setDocumentScale. rewrite Hv. destruct v as [l t wd h]. cbn [mbind option_bind].
  cbn [left top width height] in *. by rewrite Hx, Hy.
Qed.
End ZoomFacts.

(** ** Rendering the canvas *)

Section RenderingFacts.
Import ZoomableCanvas.
Context {W : Type} `{!@Library W} `{!@Display W}.
Local Open Scope float_scope.
Local Abbreviation Sprite := (@ZoomableCanvas.Sprite W).
Local Abbreviation Canvas := (@ZoomableCanvas.Canvas W).
Local Abbreviation RenderState := (@ZoomableCanvas.RenderState W).
Local Abbreviation RenderStep := (@ZoomableCanvas.RenderStep W).

(** Along [next] links that follow the list of the children, the loop
    visits the list, given fuel for its length. *)
Lemma drawChildren_chained (order : list Sprite) (fuel : nat) (external : bool)
    (now : float) (viewport : option Viewport) (w : W) :
  chained_next order -> (length order <= fuel)%nat ->
  drawChildren fuel (head order) external now viewport w
  = Some (drawAll order external now viewport w).
Proof.
  revert fuel w. induction order as [|sprite above IH]; intros fuel w Hchain Hfuel.
  - by destruct fuel.
  - destruct fuel as [|fuel]; [cbn in Hfuel; lia|].
    destruct Hchain as [Hnext Hchain]. cbn [head drawChildren drawAll].
    rewrite Hnext, IH by (done || cbn in Hfuel; lia).
    cbn. by destruct (drawAll above _ _ _ _).
Qed.

Lemma drawAll_sprites (order : list Sprite) (external : bool) (now : float)
    (viewport : option Viewport) (w : W) :
  omap (fun step : RenderStep =>
          match step with Drawn sprite v => Some (sprite, v) | _ => None end)
       (drawAll order external now viewport w).1
  = (fun sprite => (sprite, viewport)) <$> order
  /\ omap (fun step : RenderStep =>
          match step with Updated sprite t => Some (sprite, t) | _ => None end)
       (drawAll order external now viewport w).1
     = (if external then [] else (fun sprite => (sprite, now)) <$> order)
  /\ Forall (fun step : RenderStep =>
               match step with Updated _ _ | Drawn _ _ => True | _ => False end)
            (drawAll order external now viewport w).1.
Proof.
  revert w. induction order as [|sprite above IH]; intros w.
  - cbn. by destruct external.
  - cbn [drawAll].
    specialize (IH (draw sprite viewport (if external then w else update sprite now w))).
    destruct (drawAll above _ _ _ _) as [steps w']. cbn [fst] in *.
    destruct IH as (IHd & IHu & IHf).
    destruct external; cbn; rewrite IHd, IHu; repeat split; by repeat constructor.
Qed.

(** What [render] does, step by step, when no size is enqueued. *)
Lemma render_steps (c : Canvas) (r : RenderState) (now : float)
    (frame : nat) (w : W) (fuel : nat) :
  _enqueuedSize r = false ->
  chained_next (_children c) ->
  (length (_children c) <= fuel)%nat ->
  let r' := stamped now r in
  let external := bool_decide (is_Some (_updateHandler r')) in
  let w0 := match _updateHandler r' with Some handler => handler now w | None => w end in
  let visit := drawAll (_children c) external now (zoomedViewport c) w0 in
  exists o,
    render fuel c r now frame w = Some o
    /\ rendered_canvas o = c
    /\ rendered_world o = visit.2
    /\ steps o
       = [ match background r' with
           | Some color =>
               Filled color (_width c / zoomFactor c) (_height c / zoomFactor c)
           | None => Cleared (_width c / zoomFactor c) (_height c / zoomFactor c)
           end ]
         ++ (if external then [ HandlerCalled now ] else [])
         ++ visit.1
         ++ (if negb (_disposed r') && _animate r' && negb (_renderPending r')
             then [ FrameRequested frame ] else []).
Proof.
  cbv zeta. intros Henq Hchain Hfuel. unfold render.
  assert (Henq' : _enqueuedSize (stamped now r) = false) by done.
  rewrite Henq'.
  set (r' := stamped now r) in *.
  assert (Hhead : _children c !! 0%nat = head (_children c)) by (by destruct (_children c)).
  rewrite Hhead.
  set (external := bool_decide (is_Some (_updateHandler r'))).
  set (w0 := match _updateHandler r' with Some handler => handler now w | None => w end).
  assert (Hhandled : match _updateHandler r' with
                     | Some handler => (handler now w, [ HandlerCalled now ])
                     | None => (w, [])
                     end
                     = (w0, if external then [ HandlerCalled now ] else []
                                                                      : list RenderStep)).
  { unfold w0, external. by destruct (_updateHandler r'). }
  rewrite Hhandled. clear Hhandled.
  rewrite (drawChildren_chained _ fuel external now (zoomedViewport c) w0 Hchain Hfuel).
  cbn [mbind option_bind].
  destruct (drawAll (_children c) external now (zoomedViewport c) w0) as [visited w1].
  cbn [fst snd] in *.
  destruct (negb (_disposed r') && _animate r' && negb (_renderPending r'));
    (eexists; split; [reflexivity|]; cbn [rendered_canvas rendered_world steps];
     split; [reflexivity|split; [reflexivity|by destruct (background r')]]).
Qed.

(** X17: with a size enqueued [render] throws: it calls
    [updateCanvasSize], a function the module neither defines nor
    imports.  Without one it clears the canvas (with the background
    colour when there is one), calls the external update handler when
    there is one, and then goes through the children along their [next]
    links, from the bottom child up: each child is drawn once, with the
    copy of the viewport whose values are divided by the zoom factor;
    without an external handler each child is updated, with the time of
    the render, just before it is drawn, and with one no child is
    updated.  The canvas itself is not changed. *)
Theorem render_draws_children_in_order (c : Canvas) (r : RenderState) (now : float)
    (frame : nat) (w : W) (fuel : nat) :
  chained_next (_children c) ->
  (length (_children c) <= fuel)%nat ->
  let r' := stamped now r in
  let external := bool_decide (is_Some (_updateHandler r')) in
  let w0 := match _updateHandler r' with Some handler => handler now w | None => w end in
  let visit := drawAll (_children c) external now (zoomedViewport c) w0 in
  (_enqueuedSize r = true -> render fuel c r now frame w = None)
  /\ (_enqueuedSize r = false ->
      exists o,
        render fuel c r now frame w = Some o
        /\ rendered_canvas o = c
        /\ rendered_world o = visit.2
        /\ steps o
           = [ match background r' with
               | Some color =>
                   Filled color (_width c / zoomFactor c) (_height c / zoomFactor c)
               | None => Cleared (_width c / zoomFactor c) (_height c / zoomFactor c)
               end ]
             ++ (if external then [ HandlerCalled now ] else [])
             ++ visit.1
             ++ (if negb (_disposed r') && _animate r' && negb (_renderPending r')
                 then [ FrameRequested frame ] else [])
        /\ omap (fun step : RenderStep =>
                   match step with Drawn sprite v => Some (sprite, v) | _ => None end)
                (steps o)
           = (fun sprite => (sprite, zoomedViewport c)) <$> _children c
        /\ omap (fun step : RenderStep =>
                   match step with Updated sprite t => Some (sprite, t) | _ => None end)
                (steps o)
           = (if external then [] else (fun sprite => (sprite, now)) <$> _children c)).
Proof.
  cbv zeta. intros Hchain Hfuel. split.
  - intros Henq. unfold render.
    assert (Henq' : _enqueuedSize (stamped now r) = true) by done.
    by rewrite Henq'.
  - intros Henq.
    destruct (render_steps c r now frame w fuel Henq Hchain Hfuel)
      as (o & Hrun & Hcanvas & Hworld & Hsteps).
    exists o. split; [exact Hrun|]. split; [exact Hcanvas|]. split; [exact Hworld|].
    split; [exact Hsteps|].
    match type of Hworld with
    | _ = (drawAll ?order ?external _ ?viewport ?w0).2 =>
        destruct (drawAll_sprites order external now viewport w0) as (Hdrawn & Hupdated & _)
    end.
    rewrite Hsteps, !omap_app, Hdrawn, Hupdated.
    split;
      destruct (background _), (bool_decide _), (negb _ && _ && _);
      cbn; by rewrite ?app_nil_r.
Qed.

Lemma drawChildren_steps (fuel : nat) (theSprite : option Sprite) (external : bool)
    (now : float) (viewport : option Viewport) (w w' : W) (visited : list RenderStep) :
  drawChildren fuel theSprite external now viewport w = Some (visited, w') ->
  omap (fun step : RenderStep =>
          match step with FrameRequested f => Some f | _ => None end) visited = [].
Proof.
  revert theSprite w visited.
  induction fuel as [|fuel IH]; intros [sprite|] w visited; cbn; try done.
  - by intros [= <- <-].
  - destruct (drawChildren fuel _ _ _ _ _) as [[rest w1]|] eqn:E; [|done].
    cbn. intros [= <- <-]. rewrite omap_app. apply IH in E.
    destruct external; cbn; by rewrite E.
  - by intros [= <- <-].
Qed.

(** X18: the animation loop: [render] asks for the next frame exactly when the
    canvas animates and is not disposed, whether or not a render was
    pending when it was called, and then marks a render as pending and
    keeps the id of the frame; otherwise no render is pending after it.
    It sets the time of the last render to
    [now - ( ( now - _lastRender ) % _renderInterval )]. *)
Theorem render_requests_frame (c : Canvas) (r : RenderState) (now : float)
    (frame : nat) (w : W) (fuel : nat) (o : Rendered) :
  _enqueuedSize r = false ->
  render fuel c r now frame w = Some o ->
  let animated := negb (_disposed r) && _animate r in
  _renderPending (rendered_state o) = animated
  /\ _renderId (rendered_state o) = (if animated then Some frame else _renderId r)
  /\ omap (fun step : RenderStep =>
             match step with FrameRequested f => Some f | _ => None end) (steps o)
     = (if animated then [ frame ] else [])
  /\ _lastRender (rendered_state o)
     = now - JS.rem (now - _lastRender r) (_renderInterval r)
  /\ (_renderInterval (rendered_state o), _enqueuedSize (rendered_state o),
      _bgColor (rendered_state o), _disposed (rendered_state o),
      _animate (rendered_state o))
     = (_renderInterval r, _enqueuedSize r, _bgColor r, _disposed r, _animate r)
  /\ rendered_canvas o = c.
Proof.
  intros Henq. unfold render.
  assert (Henq' : _enqueuedSize (stamped now r) = false) by done.
  rewrite Henq'.
  destruct (_updateHandler (stamped now r)) as [handler|];
    (destruct (drawChildren fuel _ _ _ _ _) as [[visited w1]|] eqn:E; [|done];
     apply drawChildren_steps in E; cbn [mbind option_bind];
     change (_disposed (stamped now r)) with (_disposed r);
     change (_animate (stamped now r)) with (_animate r);
     change (_renderPending (stamped now r)) with false;
     rewrite andb_true_r;
     destruct (negb (_disposed r) && _animate r); intros [= <-]; cbv zeta;
     cbn [rendered_state rendered_canvas steps];
     destruct (background (stamped now r)); cbn [app];
     rewrite ?omap_app; cbn [omap list_omap]; rewrite ?omap_app, E;
     by repeat split).
Qed.

(** *** Drawing and input *)

(** X23: input goes through the children in the reverse of the order they
    are drawn in: what [render] draws last, on top, [handleInteraction]
    asks first.  On a canvas whose children are linked both ways as the
    library links them, the handlers called for a touch event are those of
    the sprites [render] draws, in reverse order, and the handlers called
    for a mouse event are the first of these, up to the one that handles
    the event. *)
Theorem input_reverses_draw_order (c : Canvas) (r : RenderState) (aEvent : Event)
    (now : float) (frame : nat) (w w0 : W) :
  _enqueuedSize r = false ->
  type aEvent <> "wheel"%string ->
  linked (_children c) ->
  chained_next (_children c) ->
  exists o rendered,
    handleInteraction c aEvent w = Some o
    /\ render (length (_children c)) c r now frame w0 = Some rendered
    /\ let drawn :=
         omap (fun step : RenderStep =>
                 match step with Drawn sprite _ => Some sprite | _ => None end)
              (steps rendered) in
       drawn = _children c
       /\ map callee (calls o) `prefix_of` reverse drawn
       /\ (is_mouse (type aEvent) = false -> map callee (calls o) = reverse drawn).
Proof.
  intros Henq Hwheel%String.eqb_neq Hlinked Hnext.
  pose proof (render_steps c r now frame w0 (length (_children c))) as Hrender.
  cbv zeta in Hrender.
  destruct (Hrender Henq Hnext (Nat.le_refl _)) as (rendered & Hrun & _ & Hworld & Hsteps).
  assert (Hsprites : omap (fun step : RenderStep =>
                             match step with Drawn sprite _ => Some sprite | _ => None end)
                          (steps rendered) = _children c).
  { transitivity (fst <$> omap (fun step : RenderStep =>
                                  match step with
                                  | Drawn sprite v => Some (sprite, v)
                                  | _ => None
                                  end) (steps rendered)).
    - generalize (steps rendered). intros l. induction l as [|step l IH]; [done|].
      destruct step; cbn; by rewrite ?IH.
    - match type of Hworld with
      | _ = (drawAll ?order ?external _ ?viewport ?w1).2 =>
          destruct (drawAll_sprites order external now viewport w1) as (Hdrawn & _)
      end.
      rewrite Hsteps, !omap_app, Hdrawn.
      destruct (background _), (bool_decide _), (negb _ && _ && _); cbn;
        rewrite ?app_nil_r, <- list_fmap_compose; apply list_fmap_id. }
  unfold handleInteraction. rewrite topmost_child. unfold linked in Hlinked.
  destruct (reverse (_children c)) as [|theChild below] eqn:Hrev; cbn [head].
  - cbn. eexists _, rendered. split; [reflexivity|]. split; [exact Hrun|].
    cbv zeta. rewrite Hsprites, Hrev. cbn [calls map].
    split; [reflexivity|]. by split.
  - destruct (is_mouse (type aEvent)) eqn:Hmouse.
    + rewrite (dispatchMouse_chained below); [|done].
      pose proof (visitUntilHandled_prefix (theChild :: below)
                    (toDocument (offsetX aEvent) (left <$> _viewport c) (zoomFactor c))
                    (toDocument (offsetY aEvent) (top <$> _viewport c) (zoomFactor c))
                    aEvent w) as Hprefix.
      destruct (visitUntilHandled _ _ _ _ _). cbn.
      eexists _, rendered. split; [reflexivity|]. split; [exact Hrun|].
      cbv zeta. rewrite Hsprites, Hrev. cbn [calls fst] in *.
      split; [reflexivity|]. by split.
    + rewrite Hwheel. destruct (touchCoordinates c aEvent) as [x y].
      rewrite (dispatchTouch_chained below); [|done].
      pose proof (visitAll_callees (theChild :: below) x y aEvent w) as Hall.
      destruct (visitAll _ _ _ _ _). cbn.
      eexists _, rendered. split; [reflexivity|]. split; [exact Hrun|].
      cbv zeta. rewrite Hsprites, Hrev. cbn [calls fst] in *.
      split; [reflexivity|]. by rewrite Hall.
Qed.
End RenderingFacts.

(** * Concrete runs *)

Section Runs.
Import DOM RenderService Fixtures.
Local Open Scope float_scope.

(** The source is drawn without rotation for the angle 360 on a layer
    without mask. *)
Lemma rotate_flag_tests_modulo_360_run :
  mask plainLayer = None
  /\ renderTransformedSource plainLayer 0%nat 4 2
       {| rotation := 360; mirrorX := false; mirrorY := false |}
     = [ Save; Scale 1 1; DrawImage 0%nat 0 0; Restore ].
Proof.
  split; [reflexivity|].
  apply (rotate_flag_tests_modulo_360 plainLayer 0%nat 4 2). reflexivity.
Defined.

(** A layer at full negative contrast keeps its grey of 100. *)
Lemma contrast_minus_one_not_applied_run :
  let layer := with_filters {| levels := 0; contrast := -1 |} plainLayer in
  filters layer = {| levels := 0; contrast := -1 |}
  /\ commands (canvasOf (filterStage 0%nat layer (worldOf layer)) 0%nat)
     = [ FillText "old" 0 10;
         ClearRect 0 0 4 2;
         PutImageData (grey {| DOM.width := 4; DOM.height := 2; commands := [] |})
           4 2 0 0 ].
Proof.
  cbv zeta. split; [reflexivity|].
  pose proof (contrast_minus_one_not_applied
                (with_filters {| levels := 0; contrast := -1 |} plainLayer) 0%nat
                (worldOf (with_filters {| levels := 0; contrast := -1 |} plainLayer))
                eq_refl) as (_ & _ & Hstage & _).
  rewrite Hstage. vm_compute. reflexivity.
Defined.

(** A layer at the levels value 1: the grey of 100 is put back as 255,
    the byte the pixel array keeps of 400; the alpha bytes are kept. *)
Lemma levels_one_gives_400_unclamped_run :
  let layer := with_filters {| levels := 1; contrast := 0 |} plainLayer in
  commands (canvasOf (filterStage 0%nat layer (worldOf layer)) 0%nat)
  = [ FillText "old" 0 10;
      ClearRect 0 0 4 2;
      PutImageData (replicate 32 xff) 4 2 0 0 ].
Proof.
  cbv zeta.
  pose proof levels_one_gives_400_unclamped as (_ & _ & _ & _ & _ & _ & Hlink).
  destruct (Hlink (with_filters {| levels := 1; contrast := 0 |} plainLayer) 0%nat
              (worldOf (with_filters {| levels := 1; contrast := 0 |} plainLayer))
              eq_refl) as (_ & Hstage & Hrender).
  rewrite Hstage, Hrender. vm_compute. reflexivity.
Defined.

Lemma filters_zero_noop_run :
  filters plainLayer = {| levels := 0; contrast := 0 |}
  /\ filterStage 0%nat plainLayer (worldOf plainLayer) = worldOf plainLayer
  /\ filterPixels (scaledLevels (filters plainLayer)) (contrastFactor (filters plainLayer))
       1 2 [ x00; x7f; xff; x80; x01; xfe; x64; x00 ]
     = [ x00; x7f; xff; x80; x01; xfe; x64; x00 ].
Proof.
  split; [reflexivity|].
  destruct (filters_zero_noop plainLayer 0%nat (worldOf plainLayer) eq_refl) as [Hstage Hsweep].
  split; [exact Hstage|apply Hsweep].
Defined.

Lemma renderText_empty_value_returns_run :
  value (text (textLayer noText)) = EmptyString
  /\ renderText (textLayer noText) (worldOf (textLayer noText))
     = Some (worldOf (textLayer noText)).
Proof.
  split; [reflexivity|].
  apply (renderText_empty_value_returns (textLayer noText) (worldOf (textLayer noText))).
  reflexivity.
Defined.

Lemma filterPixels_alpha_run :
  (7 mod 4 = 3)%nat
  /\ filterPixels 2 4 1 2 [ x00; x7f; xff; x80; x01; xfe; x64; x33 ] !! 7%nat = Some x33.
Proof.
  split; [reflexivity|].
  apply (filterPixels_alpha 2 4 1 2 [ x00; x7f; xff; x80; x01; xfe; x64; x33 ] 7).
  reflexivity.
Defined.

(** Two lines, a font that does not load, letters two apart. *)
Lemma renderText_value_clears_run :
  let t := {| value := "ab" +:+ String "010" "c"; font := "Nope"; size := 12;
              color := "red"; lineHeight := 0; spacing := 2 |} in
  value (text (textLayer t)) <> EmptyString
  /\ source (textLayer t) = Some 0%nat
  /\ exists w',
       renderText (textLayer t) (worldOf (textLayer t)) = Some w'
       /\ fontRequests w' = [ "Nope"%string ]
       /\ commands (canvasOf w' 0%nat)
          = [ FillText "old" 0 10; ClearRect 0 0 4 2; SetFont 12 "Arial";
              SetFillStyle "red"; FillText "a" 0 15; FillText "b" 2 15;
              FillText "c" 0 30 ].
Proof.
  cbv zeta. split; [discriminate|]. split; [reflexivity|].
  destruct (renderText_value_clears
              (textLayer {| value := "ab" +:+ String "010" "c"; font := "Nope"; size := 12;
                            color := "red"; lineHeight := 0; spacing := 2 |})
              (worldOf (textLayer {| value := "ab" +:+ String "010" "c"; font := "Nope";
                                     size := 12; color := "red"; lineHeight := 0;
                                     spacing := 2 |}))
              0%nat {| DOM.width := 4; DOM.height := 2; commands := [ FillText "old" 0 10 ] |}
              ltac:(discriminate) eq_refl eq_refl)
    as (w' & ops & Hrun & Hfonts & _).
  exists w'. split; [exact Hrun|]. split; [exact Hfonts|].
  injection Hrun as <-. vm_compute. reflexivity.
Defined.

(** Two lines, drawn whole: the line height is the font size plus the
    measured descent, 12 + 3. *)
Lemma renderText_line_by_line_run :
  let t := {| value := "ab" +:+ String "010" "c"; font := "Roboto"; size := 12;
              color := "red"; lineHeight := 0; spacing := 0 |} in
  value (text (textLayer t)) <> EmptyString
  /\ JS.truthy (spacing (text (textLayer t))) = false
  /\ exists w',
       renderText (textLayer t) (worldOf (textLayer t)) = Some w'
       /\ textOf (commands (canvasOf w' 0%nat))
          = [ ("old"%string, 0, 10); ("ab"%string, 0, 15); ("c"%string, 0, 30) ].
Proof.
  cbv zeta. split; [discriminate|]. split; [reflexivity|].
  destruct (renderText_line_by_line
              (textLayer {| value := "ab" +:+ String "010" "c"; font := "Roboto";
                            size := 12; color := "red"; lineHeight := 0; spacing := 0 |})
              (worldOf (textLayer {| value := "ab" +:+ String "010" "c"; font := "Roboto";
                                     size := 12; color := "red"; lineHeight := 0;
                                     spacing := 0 |}))
              0%nat {| DOM.width := 4; DOM.height := 2; commands := [ FillText "old" 0 10 ] |}
              ltac:(discriminate) eq_refl eq_refl eq_refl)
    as (w' & Hrun & Htext & _).
  exists w'. split; [exact Hrun|]. rewrite Htext. vm_compute. reflexivity.
Defined.


(** A bitmap layer whose sprite has no canvas yet: the pipeline works on
    a new canvas, 1, and leaves the source, canvas 0, as it was. *)
Lemma renderEffectsForLayer_touches_working_canvas_run :
  exists w',
    renderEffectsForLayer "layer" (worldOf plainLayer) = Some w'
    /\ dom (canvases w') = {[ 1%nat ]} ∪ dom (canvases (worldOf plainLayer))
    /\ canvases w' !! 0%nat = canvases (worldOf plainLayer) !! 0%nat.
Proof.
  destruct (renderEffectsForLayer "layer" (worldOf plainLayer)) as [w'|] eqn:Hrun;
    [|vm_compute in Hrun; discriminate].
  exists w'. split; [reflexivity|].
  destruct (renderEffectsForLayer_touches_working_canvas "layer" (worldOf plainLayer) w'
              plainLayer emptySprite 0%nat eq_refl eq_refl eq_refl Hrun)
    as (Hdom & _ & Hframe & _).
  split; [exact Hdom|]. by apply Hframe.
Defined.

(** Two runs on that layer: the second works on canvas 1 again. *)
Lemma renderEffectsForLayer_reuses_canvas_run :
  exists w' w'',
    renderEffectsForLayer "layer" (worldOf plainLayer) = Some w'
    /\ renderEffectsForLayer "layer" w' = Some w''
    /\ dom (canvases w'') = dom (canvases w')
    /\ _bitmap <$> getSpriteForLayer w'' plainLayer = Some (HTMLCanvasElement 1%nat)
    /\ canvases w'' = canvases w'.
Proof.
  destruct (renderEffectsForLayer "layer" (worldOf plainLayer)) as [w'|] eqn:Hrun;
    [|vm_compute in Hrun; discriminate].
  destruct (renderEffectsForLayer_total "layer" w') as [w'' Hrun'].
  exists w', w''. split; [reflexivity|]. split; [exact Hrun'|].
  destruct (renderEffectsForLayer_reuses_canvas "layer" (worldOf plainLayer) w' w''
              plainLayer emptySprite 0%nat ltac:(reflexivity) eq_refl eq_refl eq_refl
              Hrun Hrun')
    as (Hdom & _ & _ & Hbitmap & Hsame).
  split; [exact Hdom|]. split; [exact Hbitmap|]. by apply Hsame.
Defined.

(** A layer at the level 0.5 keeps its grey of 100. *)
Lemma levels_half_is_neutral_run :
  let layer := with_filters {| levels := 0.5; contrast := 0 |} plainLayer in
  filters layer = {| levels := 0.5; contrast := 0 |}
  /\ filterPixels (scaledLevels (filters layer)) (contrastFactor (filters layer))
       1 2 [ x00; x7f; xff; x80; x01; xfe; x64; x00 ]
     = [ x00; x7f; xff; x80; x01; xfe; x64; x00 ].
Proof.
  cbv zeta. split; [reflexivity|].
  destruct (levels_half_is_neutral
              (with_filters {| levels := 0.5; contrast := 0 |} plainLayer) 0%nat
              (worldOf plainLayer) eq_refl) as (_ & _ & _ & Hsweep & _).
  apply Hsweep.
Defined.

(** The bitmap layer of the test world: the new canvas 1 holds the one
    drawing of the source. *)
Lemma unaffected_layer_is_copied_run :
  exists w',
    renderEffectsForLayer "layer" (worldOf plainLayer) = Some w'
    /\ canvases w' !! 1%nat
       = Some {| DOM.width := 4; DOM.height := 2; commands := [ DrawImage 0%nat 0 0 ] |}.
Proof.
  destruct (renderEffectsForLayer "layer" (worldOf plainLayer)) as [w'|] eqn:Hrun;
    [|vm_compute in Hrun; discriminate].
  exists w'. split; [reflexivity|].
  destruct (unaffected_layer_is_copied "layer" (worldOf plainLayer) w' plainLayer
              emptySprite 0%nat eq_refl eq_refl eq_refl eq_refl eq_refl eq_refl Hrun)
    as (Hcopy & _).
  exact Hcopy.
Defined.


End Runs.

Section CanvasRuns.
Import ZoomableCanvas Fixtures.
Local Open Scope float_scope.

(** C3, the claim as first stated fails: the canvas is 200 wide, its
    viewport 100 wide and unscrolled, so the denominator is 100, not
    zero, and [viewport.left / 100] is 0; yet the ratio is 0.5, not that
    quotient, and after resizing to 400 the viewport is panned to
    [(400 - 100) * 0.5 = 150], not to 0. *)
Lemma setDocumentScale_unscrolled_counterexample :
  let c := testCanvas 0 0 [] in
  _viewport c = Some {| left := 0; top := 0; width := 100; height := 100 |}
  /\ JS.strict_ne (_width c - 100) 0 = true
  /\ JS.strict_eq (0 / (_width c - 100)) 0 = true
  /\ scrollRatio 0 (_width c - 100) = 0.5
  /\ JS.strict_eq (scrollRatio 0 (_width c - 100)) (0 / (_width c - 100)) = false
  /\ (setDocumentScale c 400 400 1 1 None ≫= _viewport)
     = Some {| left := 150; top := 150; width := 100; height := 100 |}.
Proof. cbv zeta. repeat split; vm_compute; reflexivity. Qed.

(** A canvas scrolled a quarter of the way keeps its ratio; the other
    axis, unscrolled, is centred. *)
Lemma setDocumentScale_pans_by_ratio_run :
  let c := testCanvas 25 0 [] in
  _viewport c = Some {| left := 25; top := 0; width := 100; height := 100 |}
  /\ (setDocumentScale c 400 400 1 1 None ≫= _viewport)
     = Some {| left := 75; top := 150; width := 100; height := 100 |}.
Proof.
  cbv zeta. split; [reflexivity|].
  pose proof (setDocumentScale_pans_by_ratio (testCanvas 25 0 [])
                {| left := 25; top := 0; width := 100; height := 100 |}
                400 400 1 1 None eq_refl) as [Hrun _].
  rewrite Hrun. vm_compute. reflexivity.
Defined.

(** Three linked children, the middle one handling the event: the top
    and the middle child are called, the bottom child is not. *)
Lemma mouse_event_dispatch_run :
  let c := testCanvas 10 20 [ bottom; middle true; topmost true ] in
  let aEvent := mouseEvent "mousedown" 30 40 in
  is_mouse (type aEvent) = true
  /\ linked (_children c)
  /\ exists o, handleInteraction c aEvent [] = Some o
       /\ map (fun call => (label (callee call), call_x call, call_y call)) (calls o)
          = [ ("top"%string, 20, 30); ("middle"%string, 20, 30) ]
       /\ world o = [ "top"%string; "middle"%string ].
Proof.
  cbv zeta. split; [reflexivity|]. split; [by repeat split|].
  destruct (mouse_event_dispatch
              (testCanvas 10 20 [ bottom; middle true; topmost true ])
              (mouseEvent "mousedown" 30 40) [] eq_refl)
    as [(o & Ho & Hcalls & Hworld) _]; [by repeat split|].
  exists o. split; [exact Ho|]. rewrite Hcalls, Hworld. by vm_compute.
Defined.

(** C8, the claim as first stated fails: a touch event with two touches,
    at page positions [(10, 10)] and [(50, 70)], on a canvas at the
    origin, unscrolled, zoomed by 2.  Every child is called with
    [(5, 5)], the first touch translated; the second touch, which
    translates to [(25, 35)], reaches no handler as a coordinate. *)
Lemma second_touch_not_translated_counterexample :
  let c := testCanvas 0 0 [ bottom; middle true; topmost true ] in
  let second := {| pageX := 50; pageY := 70 |} in
  let aEvent := touchEvent "touchmove" [ {| pageX := 10; pageY := 10 |}; second ] [] in
  (map (fun call => (label (callee call), call_x call, call_y call)) ∘ calls
     <$> handleInteraction c aEvent [])
  = Some [ ("top"%string, 5, 5); ("middle"%string, 5, 5); ("bottom"%string, 5, 5) ]
  /\ touchToDocument (pageX second) 0 (Some 0) (zoomFactor c) = 25
  /\ touchToDocument (pageY second) 0 (Some 0) (zoomFactor c) = 35.
Proof. cbv zeta. repeat split; vm_compute; reflexivity. Qed.

Lemma touch_event_dispatch_run :
  let c := testCanvas 10 20 [ bottom; middle true; topmost true ] in
  let aEvent := touchEvent "touchend" [] [ {| pageX := 10; pageY := 10 |} ] in
  is_mouse (type aEvent) = false
  /\ type aEvent <> "wheel"%string
  /\ linked (_children c)
  /\ exists o, handleInteraction c aEvent [] = Some o
       /\ map (fun call => (label (callee call), call_x call, call_y call)) (calls o)
          = [ ("top"%string, 10, 15); ("middle"%string, 10, 15); ("bottom"%string, 10, 15) ].
Proof.
  cbv zeta. split; [reflexivity|]. split; [discriminate|]. split; [by repeat split|].
  pose proof (touch_event_dispatch
                (testCanvas 10 20 [ bottom; middle true; topmost true ])
                (touchEvent "touchend" [] [ {| pageX := 10; pageY := 10 |} ]) []
                eq_refl ltac:(discriminate) ltac:(by repeat split)) as Hrun.
  change (touchCoordinates _ _) with (10, 15) in Hrun.
  destruct Hrun as [(o & Ho & Hcalls & _) _].
  exists o. split; [exact Ho|]. rewrite Hcalls. by vm_compute.
Defined.

(** The coordinates as the program computes them in binary64: a pointer
    on the canvas origin translates to 0 for the zoom factors 2 and 4,
    the offset 30 to 15 and 7.5; and over a sample of offsets and zoom
    factors, doubling the zoom factor halves the coordinate exactly. *)
Lemma toDocument_binary64_runs :
  toDocument 0 (Some 0) 2 = 0 /\ toDocument 0 (Some 0) 4 = 0
  /\ toDocument 30 (Some 0) 2 = 15 /\ toDocument 30 (Some 0) 4 = 7.5
  /\ toDocument 30 (Some 10) 2 = 20
  /\ forallb (fun '(offset, z) =>
                JS.strict_eq (toDocument offset (Some 0) (2 * z))
                             (toDocument offset (Some 0) z / 2))
              halvingSample = true.
Proof. repeat split; vm_compute; reflexivity. Qed.

(** C7, the claim as first stated fails: the coordinate is not inversely
    proportional to the zoom factor for every ratio.  With a zero
    viewport offset, the offset 10 at the zoom factor 21 translates to
    0.47619047619047616, and a third of its translation at the zoom factor
    7 is 0.47619047619047622.  Nor does doubling halve outside the ranges:
    twice the zoom factor [2^1023] is infinite, and half of the least
    number is zero. *)
Lemma zoom_not_inverse_proportional_counterexample :
  toDocument 10 (Some 0) (3 * 7) = 0x1.e79e79e79e79ep-2
  /\ toDocument 10 (Some 0) 7 / 3 = 0x1.e79e79e79e79fp-2
  /\ JS.strict_eq (toDocument 10 (Some 0) (3 * 7)) (toDocument 10 (Some 0) 7 / 3) = false
  /\ JS.strict_eq (toDocument 1 (Some 0) (2 * 0x1p+1023))
                  (toDocument 1 (Some 0) 0x1p+1023 / 2) = false
  /\ JS.strict_eq (toDocument 0x5p-1074 (Some 0) (2 * 4))
                  (toDocument 0x5p-1074 (Some 0) 4 / 2) = false.
Proof. repeat split; vm_compute; reflexivity. Qed.

(** The zoom factors 2 and 0.75 and the coordinates 15 and -80 are
    within the range of the binary64 halving law. *)
Lemma toDocument_doubled_zoom_run :
  toDocument 30 (Some 0) (2 * 2) = toDocument 30 (Some 0) 2 / 2
  /\ toDocument (-70) (Some 10) (2 * 0.75) = toDocument (-70) (Some 10) 0.75 / 2.
Proof. split; apply toDocument_doubled_zoom; vm_compute; reflexivity. Qed.

Lemma wheel_event_pans_fixed_step_run :
  let c := testCanvas 10 20 [ bottom ] in
  let aEvent :=
    {| type := "wheel"; offsetX := 0; offsetY := 0; touches := []; changedTouches := [];
       deltaX := 0.25; deltaY := -480;
       propagationStopped := false; defaultPrevented := false |} in
  type aEvent = "wheel"%string
  /\ _viewport c = Some {| left := 10; top := 20; width := 100; height := 100 |}
  /\ (_viewport ∘ canvas <$> handleInteraction c aEvent [])
     = Some (Some {| left := 30; top := 0; width := 100; height := 100 |}).
Proof.
  cbv zeta. split; [reflexivity|]. split; [reflexivity|].
  pose proof (wheel_event_pans_fixed_step (testCanvas 10 20 [ bottom ])
                {| type := "wheel"; offsetX := 0; offsetY := 0; touches := [];
                   changedTouches := []; deltaX := 0.25; deltaY := -480;
                   propagationStopped := false; defaultPrevented := false |} []
                {| left := 10; top := 20; width := 100; height := 100 |}
                eq_refl eq_refl) as [Hrun _].
  rewrite Hrun. vm_compute. reflexivity.
Defined.

(** A mouse event that the middle child handles, on a canvas that
    prevents defaults: the event is stopped and its default prevented. *)
Lemma handleInteraction_stops_event_run :
  let c := testCanvas 10 20 [ bottom; middle true; topmost true ] in
  let aEvent := mouseEvent "mousedown" 30 40 in
  exists o,
    handleInteraction c aEvent [] = Some o
    /\ propagationStopped (event o) = true
    /\ defaultPrevented (event o) = true
    /\ canvas o = c.
Proof.
  cbv zeta. eexists. split; [vm_compute; reflexivity|].
  destruct (handleInteraction_stops_event
              (testCanvas 10 20 [ bottom; middle true; topmost true ])
              (mouseEvent "mousedown" 30 40) [] _ eq_refl)
    as (_ & Hstop & Hprevent & _ & Hcanvas & _).
  split; [exact Hstop|]. split; [exact Hprevent|].
  by apply Hcanvas.
Defined.

(** Three children, no external update handler: each is updated and
    drawn, from the bottom child up; with a size enqueued nothing is. *)
Lemma render_draws_children_in_order_run :
  let c := testCanvas 10 20 [ bottom; middle true; topmost true ] in
  let sized :=
    {| _lastRender := 1000; _renderInterval := 16; _renderPending := true;
       _enqueuedSize := true; _bgColor := None; _updateHandler := None;
       _disposed := false; _animate := true; _renderId := None |} in
  chained_next (_children c)
  /\ render 3 c sized 1040 7%nat [] = None
  /\ exists o,
       render 3 c (testRenderState true) 1040 7%nat [] = Some o
       /\ rendered_world o
          = [ "update bottom"%string; "draw bottom"%string; "update middle"%string;
              "draw middle"%string; "update top"%string; "draw top"%string ]
       /\ omap (fun step =>
                  match step with
                  | Drawn sprite v => Some (label sprite, v)
                  | _ => None
                  end) (steps o)
          = (fun name : string =>
               (name, Some {| left := 5; top := 10; width := 50; height := 50 |}))
            <$> [ "bottom"%string; "middle"%string; "top"%string ].
Proof.
  cbv zeta. split; [by repeat split|]. split.
  { apply (render_draws_children_in_order
             (testCanvas 10 20 [ bottom; middle true; topmost true ]) _ 1040 7%nat [] 3);
      [by repeat split|cbn; lia|reflexivity]. }
  destruct (render_draws_children_in_order
              (testCanvas 10 20 [ bottom; middle true; topmost true ])
              (testRenderState true) 1040 7%nat [] 3
              ltac:(by repeat split) ltac:(cbn; lia)) as [_ Hdraws].
  destruct (Hdraws eq_refl) as (o & Hrun & _ & Hworld & Hsteps & _).
  exists o. split; [exact Hrun|]. split; [exact Hworld|].
  rewrite Hsteps. vm_compute. reflexivity.
Defined.

(** An animated canvas asks for frame 7, rendered at 1040 after 1000
    with an interval of 16: the last render is set to 1032. *)
Lemma render_requests_frame_run :
  let c := testCanvas 10 20 [ bottom; middle true; topmost true ] in
  exists o,
    render 3 c (testRenderState true) 1040 7%nat [] = Some o
    /\ _renderPending (rendered_state o) = true
    /\ _renderId (rendered_state o) = Some 7%nat
    /\ _lastRender (rendered_state o) = 1032.
Proof.
  cbv zeta.
  destruct (render 3 (testCanvas 10 20 [ bottom; middle true; topmost true ])
              (testRenderState true) 1040 7%nat []) as [o|] eqn:Hrun;
    [|vm_compute in Hrun; discriminate].
  exists o. split; [reflexivity|].
  destruct (render_requests_frame
              (testCanvas 10 20 [ bottom; middle true; topmost true ])
              (testRenderState true) 1040 7%nat [] 3 o eq_refl Hrun)
    as (Hpending & Hid & _ & Hlast & _).
  split; [exact Hpending|]. split; [exact Hid|]. rewrite Hlast. vm_compute. reflexivity.
Defined.

(** A canvas as the constructor leaves it, showing the window at
    [(10, 20)]: the mouse offset [(30, 40)] is the document position
    [(40, 60)]. *)
Lemma unit_zoom_is_exact_run :
  let c := constructor (testCanvas 10 20 [ bottom; middle true; topmost true ]) in
  zoomFactor c = 1
  /\ toDocument 30 (left <$> _viewport c) (zoomFactor c) = 40
  /\ toDocument 40 (top <$> _viewport c) (zoomFactor c) = 60.
Proof.
  cbv zeta.
  assert (Hz : zoomFactor (constructor (testCanvas 10 20 [ bottom; middle true;
                                                           topmost true ])) = 1)
    by reflexivity.
  split; [exact Hz|].
  destruct (unit_zoom_is_exact
              (constructor (testCanvas 10 20 [ bottom; middle true; topmost true ]))
              (mouseEvent "mousedown" 30 40) [] Hz) as (Hx & Hy & _).
  split; [exact Hx|exact Hy].
Defined.

(** A 200 wide canvas showing 100 from 50 on, sized to 400: the window
    moves to 150, half of the 300 there are to scroll. *)
Lemma setDocumentScale_keeps_centre_run :
  let c := testCanvas 50 50 [] in
  (ZoomableCanvas.left <$>
     (setDocumentScale c 400 400 1 1 None ≫= _viewport))
  = Some 150.
Proof.
  cbv zeta.
  destruct (setDocumentScale_keeps_centre (testCanvas 50 50 [])
              {| left := 50; top := 50; width := 100; height := 100 |}
              400 400 1 1 None eq_refl eq_refl eq_refl
              ltac:(left; reflexivity) ltac:(left; reflexivity)) as (_ & _ & Hrun).
  rewrite Hrun. vm_compute. reflexivity.
Defined.

(** The three children are drawn bottom, middle, top, and a touch is
    handed to top, middle, bottom. *)
Lemma input_reverses_draw_order_run :
  let c := testCanvas 10 20 [ bottom; middle true; topmost true ] in
  let aEvent := touchEvent "touchstart" [ {| pageX := 10; pageY := 10 |} ] [] in
  linked (_children c)
  /\ chained_next (_children c)
  /\ exists o rendered,
       handleInteraction c aEvent [] = Some o
       /\ render 3 c (testRenderState false) 1040 7%nat [] = Some rendered
       /\ label <$> omap (fun step =>
                            match step with Drawn sprite _ => Some sprite | _ => None end)
                         (steps rendered)
          = [ "bottom"%string; "middle"%string; "top"%string ]
       /\ label <$> map callee (calls o)
          = [ "top"%string; "middle"%string; "bottom"%string ].
Proof.
  cbv zeta. split; [by repeat split|]. split; [by repeat split|].
  destruct (input_reverses_draw_order
              (testCanvas 10 20 [ bottom; middle true; topmost true ])
              (testRenderState false)
              (touchEvent "touchstart" [ {| pageX := 10; pageY := 10 |} ] [])
              1040 7%nat [] [] eq_refl ltac:(discriminate)
              ltac:(by repeat split) ltac:(by repeat split))
    as (o & rendered & Hinput & Hrender & Hdrawn & _ & Hall).
  exists o, rendered. split; [exact Hinput|]. split; [exact Hrender|].
  cbv zeta in *. rewrite (Hall eq_refl), Hdrawn. split; reflexivity.
Defined.
End CanvasRuns.
